(** * A first-order Hidden Markov Model tagger (hmm.py), embedded in Rocq

    The Python class [HMM] is translated function by function.  Python
    dictionaries keep their insertion order, and the naive decoder breaks
    ties by that order, so a dictionary is an association list whose keys
    are unique and whose new keys are appended at the end.  Exceptions are
    an error monad; the mutable fields of the object are threaded through
    the functions that assign them, and a call that raises returns no
    object.  Counts are integers ([Z]).  Probabilities and scores come
    twice: as exact rationals ([Q]), an idealisation in which the
    estimates and the recursion can be reasoned about, and, in the module
    [Binary64], as the binary64 floating-point numbers the program computes
    with.  Opening files is not part of the model: the estimators and the
    decoders take the lists of (word, state) pairs that [process_file]
    builds, [process_file] takes the text that was read and [predict]
    returns the text it writes. *)

From Stdlib Require Import List Ascii String ZArith QArith Qpower Bool Lia Arith.
From Stdlib Require PrimFloat Uint63 FloatOps SpecFloat.
Import ListNotations.
Local Open Scope Z_scope.

(** ** Exceptions *)

Inductive error : Type :=
| InvalidStartingState   (* Exception("Invalid starting state: ...") *)
| InvalidStoppingState   (* Exception("Invalid stopping state: ...") *)
| InvalidStateInData     (* Exception("Invalid state in data: ...") *)
| EmissionEmpty          (* Exception("Emission probabilities is empty") *)
| InvalidIteration       (* Exception("Invalid iteration: ...") *)
| InvalidState           (* Exception("Invalid state: ...") *)
| IndexError
| KeyError
| ValueError
| ZeroDivisionError.

Inductive result (A : Type) : Type :=
| Ok (a : A)
| Raise (e : error).
Arguments Ok {A} a.
Arguments Raise {A} e.

Definition bind {A B : Type} (m : result A) (f : A -> result B) : result B :=
  match m with
  | Ok a => f a
  | Raise e => Raise e
  end.

Declare Scope exn_scope.
Delimit Scope exn_scope with exn.
Notation "x <- m ;; k" := (bind m (fun x => k))
  (at level 61, m at next level, right associativity) : exn_scope.
Notation "' p <- m ;; k" := (bind m (fun x => match x with p => k end))
  (at level 61, p pattern, m at next level, right associativity) : exn_scope.
Local Open Scope exn_scope.

(** A [for] loop whose body may raise. *)
Fixpoint foldM {A B : Type} (f : A -> B -> result A) (l : list B) (a : A)
  : result A :=
  match l with
  | [] => Ok a
  | b :: l' => a' <- f a b ;; foldM f l' a'
  end.

(** A comprehension whose element expression may raise. *)
Fixpoint mapM {A B : Type} (f : A -> result B) (l : list A) : result (list B) :=
  match l with
  | [] => Ok []
  | a :: l' => b <- f a ;; bs <- mapM f l' ;; Ok (b :: bs)
  end.

Definition result_map {A B : Type} (f : A -> B) (m : result A) : result B :=
  match m with
  | Ok a => Ok (f a)
  | Raise e => Raise e
  end.

(** ** Keys and dictionaries *)

Class EqKey (K : Type) : Type := {
  keqb : K -> K -> bool;
  keqb_spec : forall a b : K, reflect (a = b) (keqb a b)
}.

#[export] Instance EqKey_string : EqKey string :=
  {| keqb := String.eqb; keqb_spec := String.eqb_spec |}.

#[export] Instance EqKey_Z : EqKey Z :=
  {| keqb := Z.eqb; keqb_spec := Z.eqb_spec |}.

Section Dict.
Context {K : Type} `{EqKey K}.

(** [x in l] for a Python list. *)
Definition list_mem (x : K) (l : list K) : bool := existsb (keqb x) l.

Context {V : Type}.

Definition dict : Type := list (K * V).

(** [d.get(k)], [None] when the key is absent. *)
Fixpoint dget (d : dict) (k : K) : option V :=
  match d with
  | [] => None
  | (k', v) :: d' => if keqb k k' then Some v else dget d' k
  end.

(** [d[k] = v]: an existing key keeps its position. *)
Fixpoint dset (d : dict) (k : K) (v : V) : dict :=
  match d with
  | [] => [(k, v)]
  | (k', v') :: d' =>
      if keqb k k' then (k', v) :: d' else (k', v') :: dset d' k v
  end.

(** [k in d]. *)
Definition dmem (d : dict) (k : K) : bool :=
  match dget d k with Some _ => true | None => false end.

(** [d.get(k, dflt)]. *)
Definition dget_default (d : dict) (k : K) (dflt : V) : V :=
  match dget d k with Some v => v | None => dflt end.

(** [d[k]] as an expression. *)
Definition dindex (d : dict) (k : K) : result V :=
  match dget d k with Some v => Ok v | None => Raise KeyError end.

Definition dkeys (d : dict) : list K := map fst d.
Definition dvalues (d : dict) : list V := map snd d.
End Dict.
Arguments dict K V : clear implicits.

(** [{k: f(v) for k, v in d.items()}], where [f] may raise. *)
Definition dict_mapM {K V V' : Type} (f : V -> result V') (d : dict K V)
  : result (dict K V') :=
  mapM (fun kv : K * V => v' <- f (snd kv) ;; Ok (fst kv, v')) d.

(** [l[i]] for a Python sequence and a non-negative index. *)
Definition getitem {A : Type} (l : list A) (i : nat) : result A :=
  match nth_error l i with Some a => Ok a | None => Raise IndexError end.

(** ** The model object *)

(** States and words are Python strings. *)
Abbreviation state := string (only parsing).
Abbreviation word := string (only parsing).
Definition sequence : Type := list (word * state).

Record HMM : Type := mkHMM {
  end_states : list state;
  states : list state;
  emission_probs : dict state (dict word Q);
  transition_probs : dict state (dict state Q);
  training_words : dict word Z;
  _transition_cnts : dict state (dict state Z)
}.

Definition UNKNOWN_TOKEN : word := "#UNK#"%string.

(** [HMM.__init__] *)
Definition HMM_init (sts : list state) : HMM :=
  {| end_states := firstn 2 sts;
     states := skipn 2 sts;
     emission_probs := [];
     transition_probs := [];
     training_words := [];
     _transition_cnts := [] |}.

Definition set_emission_probs (h : HMM) (e : dict state (dict word Q)) : HMM :=
  {| end_states := end_states h; states := states h;
     emission_probs := e; transition_probs := transition_probs h;
     training_words := training_words h;
     _transition_cnts := _transition_cnts h |}.

Definition set_transition_probs (h : HMM) (t : dict state (dict state Q)) : HMM :=
  {| end_states := end_states h; states := states h;
     emission_probs := emission_probs h; transition_probs := t;
     training_words := training_words h;
     _transition_cnts := _transition_cnts h |}.

Definition set_training_words (h : HMM) (tw : dict word Z) : HMM :=
  {| end_states := end_states h; states := states h;
     emission_probs := emission_probs h;
     transition_probs := transition_probs h;
     training_words := tw;
     _transition_cnts := _transition_cnts h |}.

Definition set_transition_cnts (h : HMM) (c : dict state (dict state Z)) : HMM :=
  {| end_states := end_states h; states := states h;
     emission_probs := emission_probs h;
     transition_probs := transition_probs h;
     training_words := training_words h;
     _transition_cnts := c |}.

(** [HMM._check_end_states] *)
Definition _check_end_states (h : HMM) (ws_deque : sequence) : result bool :=
  first <- getitem ws_deque 0 ;;
  start <- getitem (end_states h) 0 ;;
  if negb (keqb (snd first) start) then Raise InvalidStartingState else
  last <- getitem ws_deque (List.length ws_deque - 1) ;;
  stop <- getitem (end_states h) 1 ;;
  if negb (keqb (snd last) stop) then Raise InvalidStoppingState else
  Ok true.

(** ** Emission estimation *)

(** [sum(d.values())] *)
Definition sum_values {K : Type} (d : dict K Z) : Z :=
  fold_left Z.add (dvalues d) 0.

(** [d[k] += 1] *)
Definition dincr {K : Type} `{EqKey K} (d : dict K Z) (k : K)
  : result (dict K Z) :=
  v <- dindex d k ;; Ok (dset d k (v + 1)).

(** [if k not in d: d[k] = 0] followed by [d[k] += 1] *)
Definition count_one {K : Type} `{EqKey K} (d : dict K Z) (k : K)
  : result (dict K Z) :=
  let d := if negb (dmem d k) then dset d k 0 else d in
  dincr d k.

(** [HMM._calculate_emission_mle], over the rationals: the quotient is
    exact.  The rounded quotient of the program is
    [Binary64._calculate_emission_mle]. *)
Definition _calculate_emission_mle (word_count state_count smooth_k : Z)
  : result Q :=
  if state_count + smooth_k =? 0 then Raise ZeroDivisionError
  else Ok (inject_Z word_count / inject_Z (state_count + smooth_k))%Q.

(** What the counting loops of [estimate_emission] update:
    [self.training_words] and [state_emission_cnts]. *)
Definition emission_acc : Type :=
  (dict word Z * dict state (dict word Z))%type.

(** Body of the loop [for word, state in ws_deque] of [estimate_emission]. *)
Definition emission_count_step (h : HMM) (acc : emission_acc)
    (ws : word * state) : result emission_acc :=
  let '(tw, cnts) := acc in
  let '(w, st) := ws in
  if list_mem st (end_states h) then Ok acc
  else if negb (list_mem st (states h)) then Raise InvalidStateInData
  else
    tw <- count_one tw w ;;
    row <- dindex cnts st ;;
    row <- count_one row w ;;
    Ok (tw, dset cnts st row).

(** Body of the loop [for ws_deque in observations]. *)
Definition emission_count_deque (h : HMM) (acc : emission_acc)
    (ws_deque : sequence) : result emission_acc :=
  _ <- _check_end_states h ws_deque ;;
  foldM (emission_count_step h) ws_deque acc.

(** The second loop, for one state.  [copy.deepcopy] gives a dictionary with
    the same keys in the same order, and every key is then assigned again,
    so the result is the counts table mapped entry by entry. *)
Definition emission_row (smooth_k : Z) (emission_counts : dict word Z)
  : result (dict word Q) :=
  let state_cnt := sum_values emission_counts in
  probs <- dict_mapM (fun word_cnt =>
                        _calculate_emission_mle word_cnt state_cnt smooth_k)
                     emission_counts ;;
  unk <- _calculate_emission_mle smooth_k state_cnt smooth_k ;;
  Ok (dset probs UNKNOWN_TOKEN unk).

(** [HMM.estimate_emission]: returns the object (its [training_words] are
    updated) and the emission table. *)
Definition estimate_emission (h : HMM) (observations : list sequence)
    (smooth_k : Z) : result (HMM * dict state (dict word Q)) :=
  let state_emission_cnts :=
    fold_left (fun d st => dset d st []) (states h) [] in
  '(tw, cnts) <- foldM (emission_count_deque h) observations
                   (training_words h, state_emission_cnts) ;;
  emission_probs <- dict_mapM (emission_row smooth_k) cnts ;;
  Ok (set_training_words h tw, emission_probs).

(** [HMM.get_emission_probability] *)
Definition get_emission_probability (h : HMM) (st : state) (w : word)
  : result Q :=
  if negb (dmem (training_words h) w) then
    row <- dindex (emission_probs h) st ;; dindex row UNKNOWN_TOKEN
  else
    row <- dindex (emission_probs h) st ;; Ok (dget_default row w 0%Q).

(** ** Transition estimation *)

(** [HMM._calculate_transition_mle], over the rationals: the quotient is
    exact.  The rounded quotient of the program is
    [Binary64._calculate_transition_mle]. *)
Definition _calculate_transition_mle (next_state_cnt state_cnt : Z) : result Q :=
  if state_cnt =? 0 then Raise ZeroDivisionError
  else Ok (inject_Z next_state_cnt / inject_Z state_cnt)%Q.

(** Body of the loop [for i, ws_pair in enumerate(ws_deque)] for [i > 0];
    [prev] is [ws_deque[i - 1]]. *)
Definition transition_count_step (cnts : dict state (dict state Z))
    (prev_state curr_state : state) : result (dict state (dict state Z)) :=
  row <- dindex cnts prev_state ;;
  row <- count_one row curr_state ;;
  Ok (dset cnts prev_state row).

(** The loop over one deque: position 0 is skipped, every later position
    is counted with its predecessor. *)
Fixpoint transition_count_from (cnts : dict state (dict state Z))
    (prev : word * state) (rest : sequence)
  : result (dict state (dict state Z)) :=
  match rest with
  | [] => Ok cnts
  | ws_pair :: rest' =>
      cnts' <- transition_count_step cnts (snd prev) (snd ws_pair) ;;
      transition_count_from cnts' ws_pair rest'
  end.

Definition transition_count_deque (h : HMM) (cnts : dict state (dict state Z))
    (ws_deque : sequence) : result (dict state (dict state Z)) :=
  _ <- _check_end_states h ws_deque ;;
  match ws_deque with
  | [] => Ok cnts
  | first :: rest => transition_count_from cnts first rest
  end.

Definition transition_row (transition_counts : dict state Z)
  : result (dict state Q) :=
  let state_cnt := sum_values transition_counts in
  dict_mapM (fun next_state_cnt =>
               _calculate_transition_mle next_state_cnt state_cnt)
            transition_counts.

(** [HMM.estimate_transition]: returns the object (its [_transition_cnts]
    are assigned) and the transition table. *)
Definition estimate_transition (h : HMM) (observations : list sequence)
  : result (HMM * dict state (dict state Q)) :=
  start <- getitem (end_states h) 0 ;;
  let state_transition_cnts :=
    fold_left (fun d st => dset d st []) (start :: states h) [] in
  cnts <- foldM (transition_count_deque h) observations
            state_transition_cnts ;;
  let h' := set_transition_cnts h cnts in
  transition_probs <- dict_mapM transition_row cnts ;;
  Ok (h', transition_probs).

(** [HMM.get_transition_probability] *)
Definition get_transition_probability (h : HMM) (state1 state2 : state)
  : result Q :=
  row <- dindex (transition_probs h) state1 ;;
  Ok (dget_default row state2 0%Q).

(** ** Training *)

(** The default of the parameter [smooth_k] of [estimate_emission]. *)
Definition default_smooth_k : Z := 1.

(** [HMM.train], on the observations that [process_file] read. *)
Definition train (h : HMM) (observations : list sequence) : result HMM :=
  '(h1, e) <- estimate_emission h observations default_smooth_k ;;
  let h2 := set_emission_probs h1 e in
  '(h3, t) <- estimate_transition h2 observations ;;
  Ok (set_transition_probs h3 t).

(** ** Naive decoding *)

Definition Qlt_bool (x y : Q) : bool := negb (Qle_bool y x).

(** [max(l, key=itemgetter(1))] on a list of pairs: the first element whose
    key is greatest; [ValueError] on the empty list. *)
Definition max_by_snd {A : Type} (l : list (A * Q)) : result (A * Q) :=
  match l with
  | [] => Raise ValueError
  | x :: l' =>
      Ok (fold_left (fun best y => if Qlt_bool (snd best) (snd y) then y else best)
            l' x)
  end.

Definition is_empty {A : Type} (l : list A) : bool :=
  match l with [] => true | _ => false end.

(** [HMM._argmax_emission] *)
Definition _argmax_emission (h : HMM) (w : word) : result state :=
  if is_empty (emission_probs h) then Raise EmissionEmpty else
  let word_emission_probs :=
    map (fun sp : state * dict word Q => (fst sp, dget_default (snd sp) w 0%Q))
        (emission_probs h) in
  best <- max_by_snd word_emission_probs ;;
  Ok (fst best).

(** [HMM.naive_label_sequence] *)
Definition naive_label_sequence (h : HMM) (sq : sequence) : result sequence :=
  if is_empty (emission_probs h) then Raise EmissionEmpty else
  start <- getitem (end_states h) 0 ;;
  let prediction := [(EmptyString, start)] in
  prediction <- foldM (fun prediction (ws : word * state) =>
                         if list_mem (snd ws) (end_states h) then Ok prediction
                         else
                           st <- _argmax_emission h (fst ws) ;;
                           Ok (prediction ++ [(fst ws, st)]))
                  sq prediction ;;
  stop <- getitem (end_states h) 1 ;;
  Ok (prediction ++ [(EmptyString, stop)]).

(** [HMM.naive_predict] *)
Definition naive_predict (h : HMM) (sequences : list sequence)
  : result (list sequence) :=
  mapM (naive_label_sequence h) sequences.

(** ** Viterbi decoding *)

(** A cell of the graph: the best predecessor and its score. *)
Definition node : Type := (state * Q)%type.
Definition graph : Type := dict Z (dict state node).

(** [HMM._process_unknown_word] *)
Definition _process_unknown_word (h : HMM) (w : word) : word :=
  if dmem (training_words h) w then w else UNKNOWN_TOKEN.

(** [viterbi_graph[iteration][curr_state] = nd] *)
Definition graph_set (g : graph) (iteration : Z) (curr_state : state)
    (nd : node) : result graph :=
  row <- dindex g iteration ;;
  Ok (dset g iteration (dset row curr_state nd)).

(** [HMM._dp_helper]: returns the modified graph.  The scores are exact
    rationals; the rounded products of the program are those of
    [Binary64._dp_helper]. *)
Definition _dp_helper (h : HMM) (iteration : Z) (curr_state : state)
    (sq : sequence) (viterbi_graph : graph) (scaling_constant : Q)
  : result graph :=
  let len := Z.of_nat (List.length sq) in
  if (iteration <? 1) || (iteration >=? len) then Raise InvalidIteration else
  stop <- getitem (end_states h) 1 ;;
  if negb (list_mem curr_state (states h ++ [stop])) then Raise InvalidState else
  ws <- getitem sq (Z.to_nat iteration) ;;
  let w := _process_unknown_word h (fst ws) in
  if iteration =? 1 then
    start <- getitem (end_states h) 0 ;;
    alpha <- get_transition_probability h start curr_state ;;
    beta <- get_emission_probability h curr_state w ;;
    graph_set viterbi_graph iteration curr_state
      (start, (alpha * beta * scaling_constant)%Q)
  else
    temp_nodes <-
      mapM (fun prev_state =>
              row <- dindex viterbi_graph (iteration - 1) ;;
              prev <- dindex row prev_state ;;
              let prev_optimal_prob := snd prev in
              alpha <- get_transition_probability h prev_state curr_state ;;
              beta <- (if iteration =? len - 1 then Ok 1%Q
                       else get_emission_probability h curr_state w) ;;
              Ok (prev_state,
                  (prev_optimal_prob * alpha * beta * scaling_constant)%Q))
           (states h) ;;
    best <- max_by_snd temp_nodes ;;
    graph_set viterbi_graph iteration curr_state best.

(** [range(1, n)] *)
Definition range1 (n : nat) : list Z := map Z.of_nat (seq 1 (n - 1)).

(** [HMM.viterbi] *)
Definition viterbi (h : HMM) (sq : sequence) (scaling_constant : Q)
  : result graph :=
  _ <- _check_end_states h sq ;;
  let len := Z.of_nat (List.length sq) in
  let viterbi_graph : graph := map (fun i => (i, [])) (range1 (List.length sq)) in
  foldM (fun g iteration =>
           if iteration =? len - 1 then
             stop <- getitem (end_states h) 1 ;;
             _dp_helper h iteration stop sq g scaling_constant
           else
             foldM (fun g st => _dp_helper h iteration st sq g scaling_constant)
                   (states h) g)
        (range1 (List.length sq)) viterbi_graph.

(** The default of the parameter [scaling_constant] of [viterbi]. *)
Definition default_scaling_constant : Q := 100%Q.

(** The inner loop of [viterbi_predict]:
    [for i in range(len(sequence) - 2, -1, -1)]. *)
Definition backtrace_step (sq : sequence) (viterbi_graph : graph)
    (labelled_sequence : sequence) (i : nat) : result sequence :=
  ws <- getitem sq i ;;
  child <- getitem labelled_sequence 0 ;;
  let child_state := snd child in
  row <- dindex viterbi_graph (Z.of_nat i + 1) ;;
  optimal_node <- dindex row child_state ;;
  Ok ((fst ws, fst optimal_node) :: labelled_sequence).

(** The body of the loop of [viterbi_predict] for one sequence, with the
    scaling constant that [viterbi] receives made explicit. *)
Definition viterbi_label_sequence (h : HMM) (sq : sequence)
    (scaling_constant : Q) : result sequence :=
  viterbi_graph <- viterbi h sq scaling_constant ;;
  stop <- getitem (end_states h) 1 ;;
  foldM (backtrace_step sq viterbi_graph)
        (rev (seq 0 (List.length sq - 1))) [(EmptyString, stop)].

(** [HMM.viterbi_predict] *)
Definition viterbi_predict (h : HMM) (sequences : list sequence)
  : result (list sequence) :=
  mapM (fun sq => viterbi_label_sequence h sq default_scaling_constant)
       sequences.

(** ** A small trained model

    States START, STOP, A, B; two training sequences, x/A y/B and
    x/A x/B. *)

Module Example.
Local Open Scope string_scope.

Definition hmm0 : HMM := HMM_init ["START"; "STOP"; "A"; "B"].

Definition corpus : list sequence :=
  [ [("", "START"); ("x", "A"); ("y", "B"); ("", "STOP")];
    [("", "START"); ("x", "A"); ("x", "B"); ("", "STOP")] ].

Definition sentence : sequence :=
  [("", "START"); ("x", ""); ("x", ""); ("", "STOP")].
End Example.

(** ** What the corpus contains

    The quantities the estimates are compared with are counted directly on
    the corpus, independently of the dictionaries the code builds. *)

Definition count_if {A : Type} (f : A -> bool) (l : list A) : Z :=
  Z.of_nat (List.length (filter f l)).

(** A pair emits when its state is not an end state. *)
Definition emitting (h : HMM) (ws : word * state) : bool :=
  negb (list_mem (snd ws) (end_states h)).

(** Number of emissions of [w] from [s] in the corpus. *)
Definition emit_count (h : HMM) (obs : list sequence) (s : state) (w : word) : Z :=
  count_if (fun ws => emitting h ws && keqb (snd ws) s && keqb (fst ws) w)
           (List.concat obs).

(** Number of emissions from [s] in the corpus. *)
Definition state_count (h : HMM) (obs : list sequence) (s : state) : Z :=
  count_if (fun ws => emitting h ws && keqb (snd ws) s) (List.concat obs).

(** [w] was emitted somewhere in the corpus. *)
Definition in_corpus (h : HMM) (obs : list sequence) (w : word) : bool :=
  existsb (fun ws => emitting h ws && keqb (fst ws) w) (List.concat obs).

(** Adjacent pairs of states of a sequence. *)
Fixpoint adjacent (sq : sequence) : list (state * state) :=
  match sq with
  | [] => []
  | a :: sq' =>
      match sq' with
      | [] => []
      | b :: _ => (snd a, snd b) :: adjacent sq'
      end
  end.

(** Number of transitions from [s] to [t] in the corpus. *)
Definition trans_count (obs : list sequence) (s t : state) : Z :=
  count_if (fun p => keqb (fst p) s && keqb (snd p) t)
           (List.concat (map adjacent obs)).

(** Number of transitions out of [s] in the corpus. *)
Definition out_count (obs : list sequence) (s : state) : Z :=
  count_if (fun p => keqb (fst p) s) (List.concat (map adjacent obs)).

(** Sum of a list of rationals. *)
Definition Qsum (l : list Q) : Q := fold_right Qplus 0%Q l.

(** ** Notions used in the statements and in the proofs *)

(** Sum of a list of integers. *)
Definition sumZ (l : list Z) : Z := fold_right Z.add 0 l.

(** Entry, row total and row membership of a two-level count table;
    a missing row counts as empty. *)
Definition cell (cnts : dict state (dict string Z)) (s : state) (w : string) : Z :=
  match dget cnts s with Some row => dget_default row w 0 | None => 0 end.

Definition row_total (cnts : dict state (dict string Z)) (s : state) : Z :=
  match dget cnts s with Some row => sum_values row | None => 0 end.

Definition row_mem (cnts : dict state (dict string Z)) (s : state) (w : string)
  : bool :=
  match dget cnts s with Some row => dmem row w | None => false end.

(** [cnts[s][w]] counted once, as both estimators do it. *)
Definition bump (cnts : dict state (dict string Z)) (s : state) (w : string)
  : result (dict state (dict string Z)) :=
  row <- dindex cnts s ;;
  row <- count_one row w ;;
  Ok (dset cnts s row).

(** The table both estimators start from: one empty row per state. *)
Definition empty_rows (sts : list state) : dict state (dict string Z) :=
  fold_left (fun d st => dset d st []) sts [].

(** [{k: g(v) for k, v in d.items()}] for a [g] that cannot raise. *)
Definition dict_map {K V V' : Type} (g : V -> V') (d : dict K V) : dict K V' :=
  map (fun kv => (fst kv, g (snd kv))) d.

(** The row of probabilities computed from a row of counts. *)
Definition mle_row (k : Z) (counts : dict word Z) : dict word Q :=
  let q := inject_Z (sum_values counts + k) in
  dset (dict_map (fun c => (inject_Z c / q)%Q) counts)
       UNKNOWN_TOKEN (inject_Z k / q)%Q.

(** [bump] on a pair (previous state, current state). *)
Definition bump_pair (cnts : dict state (dict state Z)) (p : state * state)
  : result (dict state (dict state Z)) :=
  bump cnts (fst p) (snd p).

(** The row of probabilities computed from a row of transition counts. *)
Definition ratio_row (counts : dict state Z) : dict state Q :=
  dict_map (fun n => (inject_Z n / inject_Z (sum_values counts))%Q) counts.

(** START and the interior states: the sources of the transition table. *)
Definition source_states (h : HMM) : list state :=
  firstn 1 (end_states h) ++ states h.

(** The two exceptions of [_check_end_states]. *)
Definition boundary_error (e : error) : Prop :=
  e = InvalidStartingState \/ e = InvalidStoppingState.

(** The two exceptions [_dp_helper] raises for its arguments. *)
Definition invalid_argument (e : error) : Prop :=
  e = InvalidIteration \/ e = InvalidState.

(** Exceptions of lookups and of [max]. *)
Definition lookup_error (e : error) : Prop :=
  e = IndexError \/ e = KeyError \/ e = ValueError.

(** A computation that raises nothing but exceptions in [P]. *)
Definition raises_only {A : Type} (P : error -> Prop) (r : result A) : Prop :=
  forall e, r = Raise e -> P e.

(** [x] is the first element of [l] whose second component is greatest. *)
Definition first_max {A : Type} (l : list (A * Q)) (x : A * Q) : Prop :=
  exists pre post,
    l = pre ++ x :: post /\
    (forall y, In y pre -> (snd y < snd x)%Q) /\
    (forall y, In y post -> (snd y <= snd x)%Q).

(** The loop body of [max]: a later element replaces the best one only
    when its key is strictly greater. *)
Definition keep_best {A : Type} (best y : A * Q) : A * Q :=
  if Qlt_bool (snd best) (snd y) then y else best.

(** The score the naive decoder gives a row for a word: [row.get(w, 0)]. *)
Definition raw_emission (row : dict word Q) (w : word) : Q :=
  dget_default row w 0%Q.

(** [s] is the first state, in the order of the emission table, whose raw
    score for [w] is greatest. *)
Definition first_argmax (h : HMM) (w : word) (s : state) : Prop :=
  exists pre row post,
    emission_probs h = pre ++ (s, row) :: post /\
    (forall e, In e pre -> (raw_emission (snd e) w < raw_emission row w)%Q) /\
    (forall e, In e post -> (raw_emission (snd e) w <= raw_emission row w)%Q).

(** Two runs that both return, with related values, or both raise the same
    exception. *)
Definition result_rel {A B : Type} (R : A -> B -> Prop) (r1 : result A)
    (r2 : result B) : Prop :=
  match r1, r2 with
  | Ok a, Ok b => R a b
  | Raise e1, Raise e2 => e1 = e2
  | _, _ => False
  end.

(** Dictionaries with the same keys in the same order and related values. *)
Definition dict_rel {K V1 V2 : Type} (R : K -> V1 -> V2 -> Prop)
    (d1 : dict K V1) (d2 : dict K V2) : Prop :=
  Forall2 (fun e1 e2 => fst e1 = fst e2 /\ R (fst e1) (snd e1) (snd e2)) d1 d2.

(** Two cells with the same predecessor whose scores differ by the
    factor [r]. *)
Definition node_rel (r : Q) (n1 n2 : node) : Prop :=
  fst n1 = fst n2 /\ (snd n2 == r * snd n1)%Q.

(** The ratio of two scaling constants. *)
Definition scale_ratio (C1 C2 : Q) : Q := (C2 / C1)%Q.

(** Row [i] of the second graph is row [i] of the first one with every
    score multiplied by the [i]-th power of [rho]. *)
Definition row_rel (rho : Q) (i : Z) (row1 row2 : dict state node) : Prop :=
  dict_rel (fun _ n1 n2 => node_rel (rho ^ i) n1 n2) row1 row2.

Definition graph_rel (rho : Q) (g1 g2 : graph) : Prop :=
  dict_rel (row_rel rho) g1 g2.

(** The predecessors stored in a graph, without the scores. *)
Definition backpointers (g : graph) : dict Z (dict state state) :=
  dict_map (dict_map fst) g.

(** ** Notions used in the further properties *)

(** The elements of a list in the order of their first occurrence: the
    keys of a dictionary filled by assigning them one after the other. *)
Definition dedup_step (acc : list state) (x : state) : list state :=
  if list_mem x acc then acc else acc ++ [x].

Definition dedup (l : list state) : list state := fold_left dedup_step l [].

(** A sequence that starts with a START pair and ends with a STOP pair. *)
Definition bounded_by (start stop : state) (sq : sequence) : Prop :=
  exists first, hd_error sq = Some first /\
                snd first = start /\ snd (last sq first) = stop.

(** A pair whose state is an end state or an interior state. *)
Definition valid_label (h : HMM) (ws : word * state) : bool :=
  list_mem (snd ws) (end_states h) || list_mem (snd ws) (states h).

(** A sequence the emission estimator counts without raising: it passes
    the boundary check and carries known states only. *)
Definition countable (h : HMM) (sq : sequence) : Prop :=
  _check_end_states h sq = Ok true /\
  Forall (fun ws => valid_label h ws = true) sq.

(** Every interior state has a row in the table of counts. *)
Definition rows_for (h : HMM) (a : emission_acc) : Prop :=
  forall s, list_mem s (states h) = true -> dmem (snd a) s = true.

(** A sequence the transition estimator counts without raising: it passes
    the boundary check, and every state that is followed by another one is
    START or an interior state. *)
Definition chainable (h : HMM) (start : state) (sq : sequence) : Prop :=
  _check_end_states h sq = Ok true /\
  Forall (fun p => list_mem (fst p) (start :: states h) = true) (adjacent sq).

(** The rows of a table of transition counts are those of [sts]. *)
Definition keyed_by (sts : list state) (cnts : dict state (dict state Z))
  : Prop :=
  forall s, dmem cnts s = list_mem s sts.

(** Exceptions of the boundary check and of a missing row. *)
Definition transition_error (e : error) : Prop :=
  boundary_error e \/ e = IndexError \/ e = KeyError.

(** Number of emissions of [w] in the corpus, from any state. *)
Definition word_count (h : HMM) (obs : list sequence) (w : word) : Z :=
  count_if (fun ws => emitting h ws && keqb (fst ws) w) (List.concat obs).

(** Every count stored in a table of counts is at least 1. *)
Definition counts_positive (cnts : dict state (dict string Z)) : Prop :=
  Forall (fun e => Forall (fun kv => 1 <= snd kv) (snd e)) cnts.

(** The cell [viterbi_graph[i][s]], when it is filled. *)
Definition gcell (g : graph) (i : Z) (s : state) : option node :=
  match dget g i with Some row => dget row s | None => None end.

(** What a stored predecessor can be: START at the first step, an interior
    state later. *)
Definition backpointer_ok (h : HMM) (start : state) (i : Z) (bp : state)
  : Prop :=
  if i =? 1 then bp = start else In bp (states h).

(** The word the step looks up at position [i]:
    [_process_unknown_word(sequence[i][0])]. *)
Definition step_word (h : HMM) (sq : sequence) (i : Z) : word :=
  _process_unknown_word h
    (fst (nth (Z.to_nat i) sq (EmptyString, EmptyString))).

(** The emission factor of the forward recursion at position [i]: 1 at the
    last position, the emission lookup before. *)
Definition step_emission (h : HMM) (sq : sequence) (i : Z) (s : state)
  : result Q :=
  if i =? Z.of_nat (List.length sq) - 1 then Ok 1%Q
  else get_emission_probability h s (step_word h sq i).

(** [n] is the node the forward recursion appends to [temp_nodes] for the
    predecessor [p]. *)
Definition candidate (h : HMM) (sq : sequence) (C : Q) (g : graph) (i : Z)
    (s p : state) (n : node) : Prop :=
  exists prev alpha beta,
    gcell g (i - 1) p = Some prev /\
    get_transition_probability h p s = Ok alpha /\
    step_emission h sq i s = Ok beta /\
    n = (p, (snd prev * alpha * beta * C)%Q).

(** The cell [nd] at ([i], [s]) is what the step computes: the base case
    at the first position, the first greatest candidate later. *)
Definition recurrence (h : HMM) (start : state) (sq : sequence) (C : Q)
    (g : graph) (i : Z) (s : state) (nd : node) : Prop :=
  if i =? 1 then
    exists alpha beta,
      get_transition_probability h start s = Ok alpha /\
      get_emission_probability h s (step_word h sq 1) = Ok beta /\
      nd = (start, (alpha * beta * C)%Q)
  else
    exists nodes,
      Forall2 (candidate h sq C g i s) (states h) nodes /\
      first_max nodes nd.

Definition cell_filled (h : HMM) (start : state) (sq : sequence) (C : Q)
    (g : graph) (i : Z) (s : state) : Prop :=
  exists nd, gcell g i s = Some nd /\
             backpointer_ok h start i (fst nd) /\
             recurrence h start sq C g i s nd.

(** The graph of a sequence after the steps 1 to [t]: every row exists, the
    rows of the steps done so far hold a cell for every interior state, and
    the row of the last step holds a cell for STOP. *)
Definition rows_filled (h : HMM) (start stop : state) (sq : sequence)
    (C : Q) (g : graph) (t : Z) : Prop :=
  (forall i, 1 <= i <= Z.of_nat (List.length sq) - 1 -> dmem g i = true) /\
  (forall i s, 1 <= i <= t -> i < Z.of_nat (List.length sq) - 1 ->
               In s (states h) -> cell_filled h start sq C g i s) /\
  (t = Z.of_nat (List.length sq) - 1 -> cell_filled h start sq C g t stop).

(** The value of a lookup that returned, 0 for one that raised. *)
Definition or_zero (r : result Q) : Q :=
  match r with Ok q => q | Raise _ => 0%Q end.

(** The score the forward recursion gives to a run of states [path] that
    follows the state [p] and starts at position [i]: for every position
    the product of the transition lookup from the state before, the
    emission factor of the position and the scaling constant. *)
Fixpoint path_score (h : HMM) (sq : sequence) (C : Q) (i : Z) (p : state)
    (path : list state) : Q :=
  match path with
  | [] => 1%Q
  | s :: rest =>
      (or_zero (get_transition_probability h p s) *
       or_zero (step_emission h sq i s) * C *
       path_score h sq C (i + 1) s rest)%Q
  end.

(** ** Text files

    Opening a file is outside the model: [process_file] is given the text
    that [read()] returns and [predict] returns the text it writes.  A
    character of a text is a code point below 256. *)

Definition newline : string := String "010"%char EmptyString.
Definition blank : string := String " "%char EmptyString.

(** [c.isspace()] *)
Definition isspace (c : ascii) : bool :=
  let n := N_of_ascii c in
  ((9 <=? n) && (n <=? 13) || (28 <=? n) && (n <=? 32) ||
   (n =? 133) || (n =? 160))%N.

(** [s.rstrip()] *)
Fixpoint rstrip (s : string) : string :=
  match s with
  | EmptyString => EmptyString
  | String c s' =>
      match rstrip s' with
      | EmptyString => if isspace c then EmptyString else String c EmptyString
      | r => String c r
      end
  end.

(** [s.lower()] *)
Definition lower_char (c : ascii) : ascii :=
  let n := N_of_ascii c in
  if ((65 <=? n) && (n <=? 90) ||
      (192 <=? n) && (n <=? 222) && negb (n =? 215))%N
  then ascii_of_N (n + 32) else c.

Fixpoint lower (s : string) : string :=
  match s with
  | EmptyString => EmptyString
  | String c s' => String (lower_char c) (lower s')
  end.

(** [s.split(sep)] for a separator that is not empty: the text is cut at
    every occurrence of [sep], found from the left and without overlap.
    [skip] counts the characters of a separator that are still to be
    passed, [cur] is the piece read so far. *)
Fixpoint split_from (sep s : string) (skip : nat) (cur : string)
  : list string :=
  match s with
  | EmptyString => [cur]
  | String c s' =>
      match skip with
      | S k => split_from sep s' k cur
      | O =>
          if String.prefix sep s
          then cur :: split_from sep s' (String.length sep - 1) EmptyString
          else split_from sep s' O (cur ++ String c EmptyString)%string
      end
  end.

Definition split (sep s : string) : list string :=
  split_from sep s 0 EmptyString.

(** The cut of [s.rsplit(" ", 1)]: the text before the last space and the
    text after it, when there is a space. *)
Fixpoint rsplit_blank (s : string) : option (string * string) :=
  match s with
  | EmptyString => None
  | String c s' =>
      match rsplit_blank s' with
      | Some (before, after) => Some (String c before, after)
      | None => if Ascii.eqb c " "%char then Some (EmptyString, s') else None
      end
  end.

(** [s.rsplit(" ", 1)] *)
Definition rsplit1 (s : string) : list string :=
  match rsplit_blank s with
  | Some (before, after) => [before; after]
  | None => [s]
  end.

(** The exceptions of the functions that read and write text, beside
    those of the functions they call. *)
Inductive exception : Type :=
| InvalidDataType        (* Exception("Invalid data type given") *)
| WrongTestingSetFormat  (* Exception("Wrong testing set format") *)
| WrongDecodingType      (* Exception("Wrong decoding type") *)
| Inner (e : error).

Inductive outcome (A : Type) : Type :=
| Returns (a : A)
| Fails (e : exception).
Arguments Returns {A} a.
Arguments Fails {A} e.

Definition lift {A : Type} (m : result A) : outcome A :=
  match m with
  | Ok a => Returns a
  | Raise e => Fails (Inner e)
  end.

Definition and_then {A B : Type} (m : outcome A) (f : A -> outcome B)
  : outcome B :=
  match m with
  | Returns a => f a
  | Fails e => Fails e
  end.

Declare Scope text_scope.
Delimit Scope text_scope with text.
Notation "x <- m ;; k" := (and_then m (fun x => k))
  (at level 61, m at next level, right associativity) : text_scope.

Fixpoint for_each {A B : Type} (f : A -> outcome B) (l : list A)
  : outcome (list B) :=
  match l with
  | [] => Returns []
  | a :: l' =>
      (b <- f a ;; bs <- for_each f l' ;; Returns (b :: bs))%text
  end.

(** A tuple of strings, of any length. *)
Definition tuple : Type := list string.

(** The body of the inner loop of [process_file]: the tuple of one line. *)
Definition line_tuple (data_type ws_pair : string) : outcome tuple :=
  if String.eqb (lower data_type) "train" then Returns (rsplit1 ws_pair)
  else
    let split_ws := [rstrip ws_pair] in
    if (1 <? List.length split_ws)%nat then Fails WrongTestingSetFormat
    else Returns (split_ws ++ [EmptyString]).

(** The body of the outer loop of [process_file]: the deque of one
    sentence. *)
Definition sentence_deque (h : HMM) (data_type sentence : string)
  : outcome (list tuple) :=
  (word_state_deque <- for_each (line_tuple data_type)
                         (split newline sentence) ;;
   start <- lift (getitem (end_states h) 0) ;;
   let word_state_deque := [EmptyString; start] :: word_state_deque in
   stop <- lift (getitem (end_states h) 1) ;;
   Returns (word_state_deque ++ [[EmptyString; stop]]))%text.

(** [HMM.process_file], from the text of the file. *)
Definition process_file (h : HMM) (text data_type : string)
  : outcome (list (list tuple)) :=
  if negb (list_mem (lower data_type) ["train"; "test"]%string)
  then Fails InvalidDataType else
  let sentences := split (newline ++ newline) (rstrip text) in
  for_each (sentence_deque h data_type) sentences.

(** [word, state = t]: what the estimators and the decoders do with each
    tuple of a deque. *)
Definition unpack (t : tuple) : result (word * state) :=
  match t with
  | [w; st] => Ok (w, st)
  | _ => Raise ValueError
  end.

(** The output loop of [predict] for one prediction. *)
Definition write_prediction (h : HMM) (out : string) (pred_deque : sequence)
  : string :=
  (fold_left (fun out (ws : word * state) =>
                if list_mem (snd ws) (end_states h) then out
                else out ++ fst ws ++ blank ++ snd ws ++ newline)
             pred_deque out ++ newline)%string.

(** [HMM.predict], from the text of the input file to the text written
    to the output file. *)
Definition predict (h : HMM) (text decoding_type : string) : outcome string :=
  (data <- process_file h text "test" ;;
   sequences <- lift (mapM (mapM unpack) data) ;;
   predictions <-
     (if String.eqb (lower decoding_type) "viterbi"
      then lift (viterbi_predict h sequences)
      else if String.eqb (lower decoding_type) "naive"
      then lift (naive_predict h sequences)
      else Fails WrongDecodingType) ;;
   Returns (fold_left (write_prediction h) predictions EmptyString))%text.

(** The sequence of one sentence of a test file: a START pair, one pair
    per line holding the line without its trailing white space and no
    state, and a STOP pair. *)
Definition test_sequence (start stop : state) (sentence : string)
  : sequence :=
  (EmptyString, start)
  :: map (fun line => (rstrip line, EmptyString)) (split newline sentence)
  ++ [(EmptyString, stop)].

(** The sentences of a text: [text.rstrip().split("\n\n")]. *)
Definition sentences_of (text : string) : list string :=
  split (newline ++ newline) (rstrip text).

(** ** The text [predict] writes *)

Fixpoint join (l : list string) : string :=
  match l with
  | [] => EmptyString
  | s :: l' => (s ++ join l')%string
  end.

(** The line written for a pair: the word, a space, the state and a line
    break. *)
Definition output_line (ws : word * state) : string :=
  (fst ws ++ blank ++ snd ws ++ newline)%string.

(** The block of a sentence whose lines have the labels [labels]: one
    line per line of the sentence, holding the line without its trailing
    white space and the label, then an empty line. *)
Definition output_block (sentence : string) (labels : list state) : string :=
  (join (map output_line
           (combine (map rstrip (split newline sentence)) labels))
   ++ newline)%string.

(** One interior state for each line of a sentence. *)
Definition labelling (h : HMM) (sentence : string) (labels : list state)
  : Prop :=
  List.length labels = List.length (split newline sentence) /\
  Forall (fun s => In s (states h)) labels.

(** A prediction for a sentence: the lines of the sentence with their
    labels, between a START pair and a STOP pair. *)
Definition framed (start stop : state) (sentence : string)
    (labels : list state) : sequence :=
  (EmptyString, start)
  :: combine (map rstrip (split newline sentence)) labels
  ++ [(EmptyString, stop)].

(** ** Reading back the text that was written *)

Fixpoint string_forall (p : ascii -> bool) (s : string) : bool :=
  match s with
  | EmptyString => true
  | String c s' => p c && string_forall p s'
  end.

(** A string without a line break. *)
Definition no_newline (s : string) : Prop :=
  string_forall (fun c => negb (Ascii.eqb c "010"%char)) s = true.

(** A string that is not empty and holds no white space. *)
Definition solid (s : string) : Prop :=
  s <> EmptyString /\ string_forall (fun c => negb (isspace c)) s = true.

(** A prediction: labelled pairs between a START pair and a STOP pair. *)
Definition frame (start stop : state) (body : sequence) : sequence :=
  (EmptyString, start) :: body ++ [(EmptyString, stop)].

(** A labelled pair whose line can be read back: the word holds no line
    break, the state is solid and is not an end state. *)
Definition writable (h : HMM) (ws : word * state) : Prop :=
  no_newline (fst ws) /\ solid (snd ws) /\
  list_mem (snd ws) (end_states h) = false.

(** [sep.join([first] + rest)] *)
Fixpoint sep_by (sep first : string) (rest : list string) : string :=
  match rest with
  | [] => first
  | x :: rest' => (first ++ sep ++ sep_by sep x rest')%string
  end.

(** The line of a pair, without its line break. *)
Definition line_text (ws : word * state) : string :=
  (fst ws ++ blank ++ snd ws)%string.

(** A line that is not empty and holds no line break. *)
Definition plain (s : string) : Prop := s <> EmptyString /\ no_newline s.

(** The lines of a sentence, joined by line breaks. *)
Definition block_text (lines : list string) : string :=
  match lines with
  | [] => EmptyString
  | first :: rest => sep_by newline first rest
  end.

(** The sentences of a text, joined by empty lines. *)
Definition blocks_text (blocks : list (list string)) : string :=
  match blocks with
  | [] => EmptyString
  | b :: bs => sep_by (newline ++ newline) (block_text b) (map block_text bs)
  end.

Definition lines_ok (lines : list string) : Prop :=
  lines <> [] /\ Forall plain lines.

(** A text that [rstrip] leaves unchanged and that is not empty. *)
Definition stable (a : string) : Prop := rstrip a = a /\ a <> EmptyString.

(** The labelled pairs of a sentence. *)
Definition labelled (sentence : string) (labels : list state) : sequence :=
  combine (map rstrip (split newline sentence)) labels.

(** A string without a space. *)
Definition no_blank (s : string) : Prop :=
  string_forall (fun c => negb (Ascii.eqb c " "%char)) s = true.

(** The deque of one sentence of a training file. *)
Definition train_deque (start stop : state) (sentence : string)
  : list tuple :=
  [EmptyString; start]
  :: map rsplit1 (split newline sentence) ++ [[EmptyString; stop]].

(** What [read()] returns for the content of a file opened in text mode:
    a carriage return, alone or followed by a line break, is read as one
    line break. *)
Fixpoint read_text (content : string) : string :=
  match content with
  | EmptyString => EmptyString
  | String c rest =>
      if Ascii.eqb c "013"%char then
        match rest with
        | EmptyString => String "010"%char EmptyString
        | String d rest' =>
            if Ascii.eqb d "010"%char then String "010"%char (read_text rest')
            else String "010"%char (read_text rest)
        end
      else String c (read_text rest)
  end.

(** A string without a carriage return. *)
Definition no_return (s : string) : Prop :=
  string_forall (fun c => negb (Ascii.eqb c "013"%char)) s = true.

(** ** The arithmetic of the program

    The definitions above compute probabilities and scores as exact
    rationals.  The program computes them as Python floats, which are IEEE
    754 binary64 numbers.  The module [Binary64] repeats the functions that
    compute or compare them, with Rocq's primitive floats: these are
    binary64 numbers, and their operations round to nearest, ties to even,
    as Python's do.  The counting loops work on integers only and are the
    ones above. *)

Module Binary64.

(** The object above: what the counting loops read. *)
Definition exact : Type := HMM.

Definition exact_object (es sts : list state) (tw : dict word Z)
    (tc : dict state (dict state Z)) : exact :=
  mkHMM es sts [] [] tw tc.

(** [float(n)] for an integer below 2^63 in absolute value. *)
Definition float_of_Z (n : Z) : PrimFloat.float :=
  if n <? 0 then PrimFloat.opp (PrimFloat.of_uint63 (Uint63.of_Z (- n)))
  else PrimFloat.of_uint63 (Uint63.of_Z n).

(** The integers 0 and 1 that the program mixes with floats. *)
Definition zero : PrimFloat.float := float_of_Z 0.
Definition one : PrimFloat.float := float_of_Z 1.

Record HMM : Type := mkHMM {
  end_states : list state;
  states : list state;
  emission_probs : dict state (dict word PrimFloat.float);
  transition_probs : dict state (dict state PrimFloat.float);
  training_words : dict word Z;
  _transition_cnts : dict state (dict state Z)
}.

(** The fields the counting loops and the boundary check read. *)
Definition counting (h : HMM) : exact :=
  exact_object (end_states h) (states h) (training_words h)
    (_transition_cnts h).

(** [HMM.__init__] *)
Definition HMM_init (sts : list state) : HMM :=
  {| end_states := firstn 2 sts;
     states := skipn 2 sts;
     emission_probs := [];
     transition_probs := [];
     training_words := [];
     _transition_cnts := [] |}.

Definition set_emission_probs (h : HMM)
    (e : dict state (dict word PrimFloat.float)) : HMM :=
  {| end_states := end_states h; states := states h;
     emission_probs := e; transition_probs := transition_probs h;
     training_words := training_words h;
     _transition_cnts := _transition_cnts h |}.

Definition set_transition_probs (h : HMM)
    (t : dict state (dict state PrimFloat.float)) : HMM :=
  {| end_states := end_states h; states := states h;
     emission_probs := emission_probs h; transition_probs := t;
     training_words := training_words h;
     _transition_cnts := _transition_cnts h |}.

Definition set_training_words (h : HMM) (tw : dict word Z) : HMM :=
  {| end_states := end_states h; states := states h;
     emission_probs := emission_probs h;
     transition_probs := transition_probs h;
     training_words := tw;
     _transition_cnts := _transition_cnts h |}.

Definition set_transition_cnts (h : HMM) (c : dict state (dict state Z))
  : HMM :=
  {| end_states := end_states h; states := states h;
     emission_probs := emission_probs h;
     transition_probs := transition_probs h;
     training_words := training_words h;
     _transition_cnts := c |}.

(** [HMM._calculate_emission_mle]:
    [float(word_count) / (state_count + smooth_k)] *)
Definition _calculate_emission_mle (word_count state_count smooth_k : Z)
  : result PrimFloat.float :=
  if state_count + smooth_k =? 0 then Raise ZeroDivisionError
  else Ok (PrimFloat.div (float_of_Z word_count)
                         (float_of_Z (state_count + smooth_k))).

Definition emission_row (smooth_k : Z) (emission_counts : dict word Z)
  : result (dict word PrimFloat.float) :=
  let state_cnt := sum_values emission_counts in
  probs <- dict_mapM (fun word_cnt =>
                        _calculate_emission_mle word_cnt state_cnt smooth_k)
                     emission_counts ;;
  unk <- _calculate_emission_mle smooth_k state_cnt smooth_k ;;
  Ok (dset probs UNKNOWN_TOKEN unk).

(** [HMM.estimate_emission] *)
Definition estimate_emission (h : HMM) (observations : list sequence)
    (smooth_k : Z) : result (HMM * dict state (dict word PrimFloat.float)) :=
  let state_emission_cnts :=
    fold_left (fun d st => dset d st []) (states h) [] in
  '(tw, cnts) <- foldM (emission_count_deque (counting h)) observations
                   (training_words h, state_emission_cnts) ;;
  emission_probs <- dict_mapM (emission_row smooth_k) cnts ;;
  Ok (set_training_words h tw, emission_probs).

(** [HMM.get_emission_probability] *)
Definition get_emission_probability (h : HMM) (st : state) (w : word)
  : result PrimFloat.float :=
  if negb (dmem (training_words h) w) then
    row <- dindex (emission_probs h) st ;; dindex row UNKNOWN_TOKEN
  else
    row <- dindex (emission_probs h) st ;; Ok (dget_default row w zero).

(** [HMM._calculate_transition_mle]: [float(next_state_cnt) / state_cnt] *)
Definition _calculate_transition_mle (next_state_cnt state_cnt : Z)
  : result PrimFloat.float :=
  if state_cnt =? 0 then Raise ZeroDivisionError
  else Ok (PrimFloat.div (float_of_Z next_state_cnt) (float_of_Z state_cnt)).

Definition transition_row (transition_counts : dict state Z)
  : result (dict state PrimFloat.float) :=
  let state_cnt := sum_values transition_counts in
  dict_mapM (fun next_state_cnt =>
               _calculate_transition_mle next_state_cnt state_cnt)
            transition_counts.

(** [HMM.estimate_transition] *)
Definition estimate_transition (h : HMM) (observations : list sequence)
  : result (HMM * dict state (dict state PrimFloat.float)) :=
  start <- getitem (end_states h) 0 ;;
  let state_transition_cnts :=
    fold_left (fun d st => dset d st []) (start :: states h) [] in
  cnts <- foldM (transition_count_deque (counting h)) observations
            state_transition_cnts ;;
  let h' := set_transition_cnts h cnts in
  transition_probs <- dict_mapM transition_row cnts ;;
  Ok (h', transition_probs).

(** [HMM.get_transition_probability] *)
Definition get_transition_probability (h : HMM) (state1 state2 : state)
  : result PrimFloat.float :=
  row <- dindex (transition_probs h) state1 ;;
  Ok (dget_default row state2 zero).

(** [HMM.train], on the observations that [process_file] read. *)
Definition train (h : HMM) (observations : list sequence) : result HMM :=
  '(h1, e) <- estimate_emission h observations default_smooth_k ;;
  let h2 := set_emission_probs h1 e in
  '(h3, t) <- estimate_transition h2 observations ;;
  Ok (set_transition_probs h3 t).

(** The sum of a list of floats taken from left to right, each addition
    rounded: [0 + x1 + x2 + ...]. *)
Definition sum_floats (l : list PrimFloat.float) : PrimFloat.float :=
  fold_left PrimFloat.add l zero.

(** [max(l, key=itemgetter(1))]: a later element replaces the best one
    when its key is greater, [key(y) > key(best)]. *)
Definition max_by_snd {A : Type} (l : list (A * PrimFloat.float))
  : result (A * PrimFloat.float) :=
  match l with
  | [] => Raise ValueError
  | x :: l' =>
      Ok (fold_left (fun best y =>
                       if PrimFloat.ltb (snd best) (snd y) then y else best)
            l' x)
  end.

Definition node : Type := (state * PrimFloat.float)%type.
Definition graph : Type := dict Z (dict state node).

(** [HMM._process_unknown_word] *)
Definition _process_unknown_word (h : HMM) (w : word) : word :=
  if dmem (training_words h) w then w else UNKNOWN_TOKEN.

Definition graph_set (g : graph) (iteration : Z) (curr_state : state)
    (nd : node) : result graph :=
  row <- dindex g iteration ;;
  Ok (dset g iteration (dset row curr_state nd)).

(** [HMM._dp_helper]: the products are taken from left to right, each one
    rounded. *)
Definition _dp_helper (h : HMM) (iteration : Z) (curr_state : state)
    (sq : sequence) (viterbi_graph : graph)
    (scaling_constant : PrimFloat.float) : result graph :=
  let len := Z.of_nat (List.length sq) in
  if (iteration <? 1) || (iteration >=? len) then Raise InvalidIteration else
  stop <- getitem (end_states h) 1 ;;
  if negb (list_mem curr_state (states h ++ [stop])) then Raise InvalidState else
  ws <- getitem sq (Z.to_nat iteration) ;;
  let w := _process_unknown_word h (fst ws) in
  if iteration =? 1 then
    start <- getitem (end_states h) 0 ;;
    alpha <- get_transition_probability h start curr_state ;;
    beta <- get_emission_probability h curr_state w ;;
    graph_set viterbi_graph iteration curr_state
      (start, PrimFloat.mul (PrimFloat.mul alpha beta) scaling_constant)
  else
    temp_nodes <-
      mapM (fun prev_state =>
              row <- dindex viterbi_graph (iteration - 1) ;;
              prev <- dindex row prev_state ;;
              let prev_optimal_prob := snd prev in
              alpha <- get_transition_probability h prev_state curr_state ;;
              beta <- (if iteration =? len - 1 then Ok one
                       else get_emission_probability h curr_state w) ;;
              Ok (prev_state,
                  PrimFloat.mul
                    (PrimFloat.mul (PrimFloat.mul prev_optimal_prob alpha)
                                   beta)
                    scaling_constant))
           (states h) ;;
    best <- max_by_snd temp_nodes ;;
    graph_set viterbi_graph iteration curr_state best.

(** [HMM.viterbi] *)
Definition viterbi (h : HMM) (sq : sequence)
    (scaling_constant : PrimFloat.float) : result graph :=
  _ <- _check_end_states (counting h) sq ;;
  let len := Z.of_nat (List.length sq) in
  let viterbi_graph : graph :=
    map (fun i => (i, [])) (range1 (List.length sq)) in
  foldM (fun g iteration =>
           if iteration =? len - 1 then
             stop <- getitem (end_states h) 1 ;;
             _dp_helper h iteration stop sq g scaling_constant
           else
             foldM (fun g st => _dp_helper h iteration st sq g scaling_constant)
                   (states h) g)
        (range1 (List.length sq)) viterbi_graph.

(** The default of the parameter [scaling_constant] of [viterbi]: [1e2]. *)
Definition default_scaling_constant : PrimFloat.float := float_of_Z 100.

(** The inner loop of [viterbi_predict]. *)
Definition backtrace_step (sq : sequence) (viterbi_graph : graph)
    (labelled_sequence : sequence) (i : nat) : result sequence :=
  ws <- getitem sq i ;;
  child <- getitem labelled_sequence 0 ;;
  let child_state := snd child in
  row <- dindex viterbi_graph (Z.of_nat i + 1) ;;
  optimal_node <- dindex row child_state ;;
  Ok ((fst ws, fst optimal_node) :: labelled_sequence).

(** The body of the loop of [viterbi_predict] for one sequence. *)
Definition viterbi_label_sequence (h : HMM) (sq : sequence)
    (scaling_constant : PrimFloat.float) : result sequence :=
  viterbi_graph <- viterbi h sq scaling_constant ;;
  stop <- getitem (end_states h) 1 ;;
  foldM (backtrace_step sq viterbi_graph)
        (rev (seq 0 (List.length sq - 1))) [(EmptyString, stop)].

(** [HMM.viterbi_predict] *)
Definition viterbi_predict (h : HMM) (sequences : list sequence)
  : result (list sequence) :=
  mapM (fun sq => viterbi_label_sequence h sq default_scaling_constant)
       sequences.

End Binary64.

(** The rational number that a finite binary64 number stands for. *)
Definition exact_value (f : PrimFloat.float) : option Q :=
  match FloatOps.Prim2SF f with
  | SpecFloat.S754_zero _ => Some 0%Q
  | SpecFloat.S754_finite s m e =>
      Some ((if s then -1 else 1) * inject_Z (Z.pos m) * Qpower 2 e)%Q
  | _ => None
  end.

(** The cell [viterbi_graph[i][s]] of a graph of binary64 scores. *)
Definition gcell64 (g : Binary64.graph) (i : Z) (s : state)
  : option Binary64.node :=
  match dget g i with Some row => dget row s | None => None end.

(** * Properties *)

(** ** The model at work

    The scenario of the specification: after training, P(START -> A),
    P(A -> B) and P(B -> STOP) are 1 (stored as the fraction 2/2), A emits
    x with probability 2/3 and keeps 1/3 for unknown tokens. *)

Example train_example :
  exists h,
    train Example.hmm0 Example.corpus = Ok h /\
    emission_probs h
    = [("A", [("x", 2 # 3); ("#UNK#", 1 # 3)]);
       ("B", [("y", 1 # 3); ("x", 1 # 3); ("#UNK#", 1 # 3)])]%string /\
    transition_probs h
    = [("START", [("A", 2 # 2)]); ("A", [("B", 2 # 2)]);
       ("B", [("STOP", 2 # 2)])]%string /\
    training_words h = [("x", 3); ("y", 1)]%string.
Proof.
  eexists. split; [vm_compute; reflexivity|].
  repeat split.
Qed.

(** On the sentence x x, Viterbi follows the only path the transition
    table allows, A then B, while the naive decoder labels both tokens A. *)
Example decode_example :
  exists h,
    train Example.hmm0 Example.corpus = Ok h /\
    result_map backpointers (viterbi h Example.sentence default_scaling_constant)
    = Ok [(1, [("A", "START"); ("B", "START")]);
          (2, [("A", "A"); ("B", "A")]);
          (3, [("STOP", "B")])]%string /\
    viterbi_label_sequence h Example.sentence default_scaling_constant
    = Ok [("", "START"); ("x", "A"); ("x", "B"); ("", "STOP")]%string /\
    naive_label_sequence h Example.sentence
    = Ok [("", "START"); ("x", "A"); ("x", "A"); ("", "STOP")]%string.
Proof.
  eexists. split; [vm_compute; reflexivity|].
  repeat split; vm_compute; reflexivity.
Qed.

(** ** The error monad *)

Lemma bind_Ok {A B : Type} (m : result A) (f : A -> result B) (b : B) :
  bind m f = Ok b -> exists a, m = Ok a /\ f a = Ok b.
Proof. destruct m as [a|e]; simpl; [eauto | discriminate]. Qed.

Ltac inv_bind H :=
  let a := fresh "a" in
  let Ha := fresh "Ha" in
  apply bind_Ok in H; destruct H as [a [Ha H]].

(** An invariant of the loop body is an invariant of the loop. *)
Lemma foldM_inv {A B : Type} (f : A -> B -> result A) (P : A -> Prop) :
  (forall a b a', f a b = Ok a' -> P a -> P a') ->
  forall l a a', foldM f l a = Ok a' -> P a -> P a'.
Proof.
  intros Hstep l; induction l as [|b l IH]; intros a a' Hf Ha; simpl in Hf.
  - now inversion Hf; subst.
  - inv_bind Hf. eauto.
Qed.

(** A quantity that each iteration increases by a weight of the element. *)
Lemma foldM_measure {A B : Type} (f : A -> B -> result A) (m : A -> Z)
    (wt : B -> Z) :
  (forall a b a', f a b = Ok a' -> m a' = m a + wt b) ->
  forall l a a', foldM f l a = Ok a' -> m a' = m a + sumZ (map wt l).
Proof.
  intros Hstep l; induction l as [|b l IH]; intros a a' Hf; simpl in *.
  - inversion Hf; lia.
  - inv_bind Hf. rewrite (IH _ _ Hf), (Hstep _ _ _ Ha). lia.
Qed.

(** A flag that each iteration may raise. *)
Lemma foldM_flag {A B : Type} (f : A -> B -> result A) (p : A -> bool)
    (d : B -> bool) :
  (forall a b a', f a b = Ok a' -> p a' = p a || d b) ->
  forall l a a', foldM f l a = Ok a' -> p a' = p a || existsb d l.
Proof.
  intros Hstep l; induction l as [|b l IH]; intros a a' Hf; simpl in *.
  - inversion Hf; now rewrite orb_false_r.
  - inv_bind Hf. rewrite (IH _ _ Hf), (Hstep _ _ _ Ha). now rewrite orb_assoc.
Qed.

(** ** Counting *)

Lemma count_if_cons {A : Type} (f : A -> bool) (a : A) (l : list A) :
  count_if f (a :: l) = (if f a then 1 else 0) + count_if f l.
Proof.
  unfold count_if; cbn [filter]; destruct (f a); cbn [List.length]; lia.
Qed.

Lemma count_if_app {A : Type} (f : A -> bool) (l1 l2 : list A) :
  count_if f (l1 ++ l2) = count_if f l1 + count_if f l2.
Proof. unfold count_if; rewrite filter_app, length_app; lia. Qed.

Lemma count_if_sumZ {A : Type} (f : A -> bool) (l : list A) :
  count_if f l = sumZ (map (fun a => if f a then 1 else 0) l).
Proof.
  induction l as [|a l IH]; [reflexivity|].
  rewrite count_if_cons, IH; reflexivity.
Qed.

Lemma count_if_concat {A : Type} (f : A -> bool) (ll : list (list A)) :
  count_if f (List.concat ll) = sumZ (map (count_if f) ll).
Proof.
  induction ll as [|l ll IH]; [reflexivity|].
  simpl; rewrite count_if_app, IH; reflexivity.
Qed.

Lemma count_if_nonneg {A : Type} (f : A -> bool) (l : list A) : 0 <= count_if f l.
Proof. unfold count_if; lia. Qed.

Lemma count_if_zero_existsb {A : Type} (f : A -> bool) (l : list A) :
  count_if f l = 0 <-> existsb f l = false.
Proof.
  induction l as [|a l IH]; [now split|].
  rewrite count_if_cons; cbn [existsb]. pose proof (count_if_nonneg f l) as Hn.
  destruct (f a); cbn [orb].
  - split; [intros Hc; exfalso; lia | discriminate].
  - rewrite <- IH; split; intros Hc; lia.
Qed.

Lemma existsb_concat {A : Type} (f : A -> bool) (ll : list (list A)) :
  existsb f (List.concat ll) = existsb (existsb f) ll.
Proof.
  induction ll as [|l ll IH]; [reflexivity|].
  simpl; rewrite existsb_app, IH; reflexivity.
Qed.

Lemma existsb_map_comp {A B : Type} (f : B -> bool) (g : A -> B) (l : list A) :
  existsb f (map g l) = existsb (fun a => f (g a)) l.
Proof.
  induction l as [|a l IH]; [reflexivity|].
  simpl; now rewrite IH.
Qed.

(** ** Dictionaries *)

Section DictFacts.
Context {K : Type} `{EqKey K}.

Lemma keqb_refl (k : K) : keqb k k = true.
Proof. destruct (keqb_spec k k); congruence. Qed.

Lemma keqb_eq (a b : K) : keqb a b = true <-> a = b.
Proof. destruct (keqb_spec a b); split; congruence. Qed.

Lemma keqb_neq (a b : K) : keqb a b = false <-> a <> b.
Proof. destruct (keqb_spec a b); split; congruence. Qed.

Lemma keqb_sym (a b : K) : keqb a b = keqb b a.
Proof.
  destruct (keqb_spec a b), (keqb_spec b a); congruence.
Qed.

Lemma list_mem_In (x : K) (l : list K) : list_mem x l = true <-> In x l.
Proof.
  unfold list_mem; rewrite existsb_exists; split.
  - intros [y [Hy Hxy]]; apply keqb_eq in Hxy; now subst.
  - intros Hx; exists x; split; [assumption | apply keqb_refl].
Qed.

Context {V : Type}.
Implicit Types (d : dict K V) (k : K) (v : V).

Lemma dget_dset_same d k v : dget (dset d k v) k = Some v.
Proof.
  induction d as [|[k' v'] d IH]; simpl.
  - now rewrite keqb_refl.
  - destruct (keqb k k') eqn:E; simpl; rewrite E; auto.
Qed.

Lemma dget_dset_other d k k' v : k <> k' -> dget (dset d k v) k' = dget d k'.
Proof.
  intros Hne; induction d as [|[k0 v0] d IH]; simpl.
  - apply not_eq_sym in Hne; apply keqb_neq in Hne; now rewrite Hne.
  - destruct (keqb k k0) eqn:E; simpl.
    + apply keqb_eq in E; subst k0.
      apply not_eq_sym in Hne; apply keqb_neq in Hne; now rewrite Hne.
    + now rewrite IH.
Qed.

Lemma dget_None_keys d k : dget d k = None <-> ~ In k (dkeys d).
Proof.
  induction d as [|[k' v'] d IH]; simpl; [tauto|].
  destruct (keqb_spec k k') as [->|Hne]; split.
  - discriminate.
  - intros Hn; exfalso; apply Hn; now left.
  - intros Hg [He|Hin]; [congruence | now apply IH].
  - intros Hn; apply IH; tauto.
Qed.

Lemma dget_Some_keys d k v : dget d k = Some v -> In k (dkeys d).
Proof.
  intros Hg. destruct (in_dec (fun a b => reflect_dec _ _ (keqb_spec a b)) k (dkeys d))
    as [Hin|Hn]; [assumption|].
  apply dget_None_keys in Hn; congruence.
Qed.

Lemma dmem_keys d k : dmem d k = true <-> In k (dkeys d).
Proof.
  unfold dmem; destruct (dget d k) eqn:E.
  - split; [intros _; eapply dget_Some_keys; eauto | reflexivity].
  - split; [discriminate | intros Hin; apply dget_None_keys in E; tauto].
Qed.

Lemma dmem_dset d k k' v : dmem (dset d k v) k' = dmem d k' || keqb k k'.
Proof.
  unfold dmem; destruct (keqb_spec k k') as [->|Hne].
  - rewrite dget_dset_same; now rewrite orb_true_r.
  - rewrite dget_dset_other by assumption; now rewrite orb_false_r.
Qed.

(** Assigning an existing key keeps the order of the keys. *)
Lemma dkeys_dset_present d k v : dmem d k = true -> dkeys (dset d k v) = dkeys d.
Proof.
  unfold dmem; induction d as [|[k' v'] d IH]; simpl; [discriminate|].
  destruct (keqb k k') eqn:E; simpl; [reflexivity|].
  intros Hm; now rewrite IH.
Qed.

(** Assigning a new key appends it. *)
Lemma dset_absent d k v : dmem d k = false -> dset d k v = d ++ [(k, v)].
Proof.
  unfold dmem; induction d as [|[k' v'] d IH]; simpl; [reflexivity|].
  destruct (keqb k k') eqn:E; simpl; [discriminate|].
  intros Hm; now rewrite IH.
Qed.

Lemma dmem_false_nil d : (forall k, dmem d k = false) -> d = [].
Proof.
  destruct d as [|[k v] d]; [reflexivity|].
  intros Hall; specialize (Hall k); unfold dmem in Hall; simpl in Hall.
  now rewrite keqb_refl in Hall.
Qed.
End DictFacts.

(** ** Count tables *)

Lemma fold_left_add_sumZ (l : list Z) (a : Z) :
  fold_left Z.add l a = a + sumZ l.
Proof.
  revert a; induction l as [|x l IH]; intros a; simpl; [lia|].
  rewrite IH; lia.
Qed.

Lemma sum_values_sumZ {K : Type} (d : dict K Z) : sum_values d = sumZ (dvalues d).
Proof. unfold sum_values; rewrite fold_left_add_sumZ; lia. Qed.

Section CountTables.
Context {K : Type} `{EqKey K}.
Implicit Types (d : dict K Z) (k : K).

Lemma dset_dset d k (v v' : Z) : dset (dset d k v) k v' = dset d k v'.
Proof.
  induction d as [|[k0 v0] d IH]; simpl.
  - now rewrite keqb_refl.
  - destruct (keqb k k0) eqn:E; simpl; rewrite E; [reflexivity | now rewrite IH].
Qed.

Lemma sum_values_dset d k (v : Z) :
  sum_values (dset d k v) = sum_values d - dget_default d k 0 + v.
Proof.
  rewrite !sum_values_sumZ; unfold dget_default.
  induction d as [|[k0 v0] d IH]; simpl; [lia|].
  destruct (keqb k k0); simpl; lia.
Qed.

(** Counting one occurrence of [k] adds one to its entry. *)
Lemma count_one_eq d k :
  count_one d k = Ok (dset d k (dget_default d k 0 + 1)).
Proof.
  unfold count_one, dincr, dindex, dget_default, dmem.
  destruct (dget d k) as [v|] eqn:E; simpl.
  - now rewrite E.
  - rewrite dget_dset_same; simpl. now rewrite dset_dset.
Qed.

Lemma count_one_get d k d' k' :
  count_one d k = Ok d' ->
  dget_default d' k' 0 = dget_default d k' 0 + (if keqb k k' then 1 else 0).
Proof.
  rewrite count_one_eq; intros Hc; inversion Hc; subst d'.
  unfold dget_default; destruct (keqb_spec k k') as [->|Hne].
  - now rewrite dget_dset_same.
  - rewrite dget_dset_other by assumption. lia.
Qed.

Lemma count_one_sum d k d' :
  count_one d k = Ok d' -> sum_values d' = sum_values d + 1.
Proof.
  rewrite count_one_eq; intros Hc; inversion Hc; subst d'.
  rewrite sum_values_dset; lia.
Qed.

Lemma count_one_mem d k d' k' :
  count_one d k = Ok d' -> dmem d' k' = dmem d k' || keqb k k'.
Proof.
  rewrite count_one_eq; intros Hc; inversion Hc; subst d'.
  apply dmem_dset.
Qed.
End CountTables.

Lemma bump_keys cnts s w cnts' :
  bump cnts s w = Ok cnts' -> dkeys cnts' = dkeys cnts.
Proof.
  unfold bump, dindex; intros Hb.
  destruct (dget cnts s) as [row|] eqn:E; simpl in Hb; [|discriminate].
  inv_bind Hb; inversion Hb; subst.
  apply dkeys_dset_present; unfold dmem; now rewrite E.
Qed.

Lemma bump_cell cnts s w cnts' s' w' :
  bump cnts s w = Ok cnts' ->
  cell cnts' s' w' = cell cnts s' w' + (if keqb s s' && keqb w w' then 1 else 0).
Proof.
  unfold bump, dindex, cell; intros Hb.
  destruct (dget cnts s) as [row|] eqn:E; simpl in Hb; [|discriminate].
  inv_bind Hb; inversion Hb; subst.
  destruct (keqb_spec s s') as [->|Hne]; simpl.
  - rewrite dget_dset_same, E. exact (count_one_get _ _ _ _ Ha).
  - rewrite dget_dset_other by assumption. lia.
Qed.

Lemma bump_total cnts s w cnts' s' :
  bump cnts s w = Ok cnts' ->
  row_total cnts' s' = row_total cnts s' + (if keqb s s' then 1 else 0).
Proof.
  unfold bump, dindex, row_total; intros Hb.
  destruct (dget cnts s) as [row|] eqn:E; simpl in Hb; [|discriminate].
  inv_bind Hb; inversion Hb; subst.
  destruct (keqb_spec s s') as [->|Hne]; simpl.
  - rewrite dget_dset_same, E. exact (count_one_sum _ _ _ Ha).
  - rewrite dget_dset_other by assumption. lia.
Qed.

Lemma bump_mem cnts s w cnts' s' w' :
  bump cnts s w = Ok cnts' ->
  row_mem cnts' s' w' = row_mem cnts s' w' || (keqb s s' && keqb w w').
Proof.
  unfold bump, dindex, row_mem; intros Hb.
  destruct (dget cnts s) as [row|] eqn:E; simpl in Hb; [|discriminate].
  inv_bind Hb; inversion Hb; subst.
  destruct (keqb_spec s s') as [->|Hne]; simpl.
  - rewrite dget_dset_same, E. exact (count_one_mem _ _ _ _ Ha).
  - rewrite dget_dset_other by assumption. now rewrite orb_false_r.
Qed.

Lemma empty_rows_get_aux (sts : list state) (d : dict state (dict string Z)) s :
  (forall s' row, dget d s' = Some row -> row = []) ->
  forall row, dget (fold_left (fun d st => dset d st []) sts d) s = Some row ->
              row = [].
Proof.
  revert d; induction sts as [|st sts IH]; intros d Hd row; simpl; [apply Hd|].
  apply IH; intros s' row' Hg.
  destruct (keqb_spec st s') as [->|Hne].
  - rewrite dget_dset_same in Hg; congruence.
  - rewrite dget_dset_other in Hg by assumption. eauto.
Qed.

Lemma empty_rows_mem_aux (sts : list state) (d : dict state (dict string Z)) s :
  dmem (fold_left (fun d st => dset d st []) sts d) s
  = dmem d s || list_mem s sts.
Proof.
  revert d; induction sts as [|st sts IH]; intros d.
  - simpl; now rewrite orb_false_r.
  - change (list_mem s (st :: sts)) with (keqb s st || list_mem s sts).
    cbn [fold_left]. rewrite IH, dmem_dset, (keqb_sym s st).
    now rewrite orb_assoc.
Qed.

Lemma empty_rows_mem sts s : dmem (empty_rows sts) s = list_mem s sts.
Proof. unfold empty_rows; now rewrite empty_rows_mem_aux. Qed.

Lemma empty_rows_get sts s :
  In s sts -> dget (empty_rows sts) s = Some [].
Proof.
  intros Hin. pose proof (empty_rows_mem sts s) as Hm.
  apply list_mem_In in Hin. rewrite Hin in Hm. unfold dmem in Hm.
  destruct (dget (empty_rows sts) s) as [row|] eqn:E; [|discriminate].
  f_equal. unfold empty_rows in E.
  eapply (empty_rows_get_aux sts []); [|exact E].
  intros s' row' Hg; simpl in Hg; discriminate.
Qed.

(** ** Dictionary comprehensions *)

Section DictMap.
Context {K : Type} `{EqKey K} {V V' : Type}.

Lemma dict_mapM_get (f : V -> result V') (d : dict K V) (d' : dict K V') k :
  dict_mapM f d = Ok d' ->
  match dget d k with
  | Some v => exists v', dget d' k = Some v' /\ f v = Ok v'
  | None => dget d' k = None
  end.
Proof.
  unfold dict_mapM; revert d'; induction d as [|[k0 v0] d IH]; intros d' Hm.
  - simpl in Hm; inversion Hm; reflexivity.
  - simpl in Hm. inv_bind Hm. inv_bind Ha. inversion Ha; subst a; clear Ha.
    inv_bind Hm. inversion Hm; subst d'; clear Hm. simpl.
    destruct (keqb k k0); [eauto | now apply IH].
Qed.

Lemma dict_mapM_keys (f : V -> result V') (d : dict K V) (d' : dict K V') :
  dict_mapM f d = Ok d' -> dkeys d' = dkeys d.
Proof.
  unfold dict_mapM; revert d'; induction d as [|[k0 v0] d IH]; intros d' Hm.
  - simpl in Hm; inversion Hm; reflexivity.
  - simpl in Hm. inv_bind Hm. inv_bind Ha. inversion Ha; subst a; clear Ha.
    inv_bind Hm. inversion Hm; subst d'; clear Hm. simpl.
    f_equal; now apply IH.
Qed.

(** A comprehension whose expression never raises is a plain map. *)
Lemma dict_mapM_total (f : V -> result V') (g : V -> V') (d : dict K V) :
  (forall v, In v (dvalues d) -> f v = Ok (g v)) ->
  dict_mapM f d = Ok (dict_map g d).
Proof.
  unfold dict_mapM, dict_map; induction d as [|[k0 v0] d IH]; intros Hf; [reflexivity|].
  simpl. rewrite (Hf v0) by now left. simpl.
  rewrite IH by (intros v Hv; apply Hf; now right). reflexivity.
Qed.

(** A comprehension that raises on one value raises. *)
Lemma dict_mapM_Ok_all (f : V -> result V') (d : dict K V) (d' : dict K V') :
  dict_mapM f d = Ok d' -> forall v, In v (dvalues d) -> exists v', f v = Ok v'.
Proof.
  unfold dict_mapM; revert d'; induction d as [|[k0 v0] d IH]; intros d' Hm v Hv.
  - destruct Hv.
  - simpl in Hm. inv_bind Hm. inv_bind Ha. inv_bind Hm.
    destruct Hv as [<-|Hv]; [eauto | eapply IH; eauto].
Qed.

Lemma dget_map (g : V -> V') (d : dict K V) k :
  dget (dict_map g d) k = option_map g (dget d k).
Proof.
  unfold dict_map; induction d as [|[k0 v0] d IH]; simpl; [reflexivity|].
  destruct (keqb k k0); [reflexivity | apply IH].
Qed.

Lemma dvalues_map (g : V -> V') (d : dict K V) :
  dvalues (dict_map g d) = map g (dvalues d).
Proof.
  unfold dvalues, dict_map; rewrite !map_map; reflexivity.
Qed.
End DictMap.

(** ** The emission counts are the counts of the corpus *)

Section EmissionCounts.
Variable h : HMM.

Lemma emission_count_step_cases (tw : dict word Z) cnts ws tw' cnts' :
  emission_count_step h (tw, cnts) ws = Ok (tw', cnts') ->
  (emitting h ws = false /\ tw' = tw /\ cnts' = cnts) \/
  (emitting h ws = true /\ count_one tw (fst ws) = Ok tw' /\
   bump cnts (snd ws) (fst ws) = Ok cnts').
Proof.
  unfold emission_count_step, emitting; destruct ws as [w s].
  cbn [fst snd]. destruct (list_mem s (end_states h)); cbn [negb].
  - intros Hs; inversion Hs; now left.
  - destruct (list_mem s (states h)); cbn [negb]; [|discriminate].
    intros Hs; right. inv_bind Hs. inv_bind Hs. inv_bind Hs.
    inversion Hs; subst. repeat split; [assumption|].
    unfold bump. rewrite Ha0; cbn [bind]. rewrite Ha1; reflexivity.
Qed.

Lemma emission_step_cell (a a' : emission_acc) ws s w :
  emission_count_step h a ws = Ok a' ->
  cell (snd a') s w = cell (snd a) s w +
    (if emitting h ws && keqb (snd ws) s && keqb (fst ws) w then 1 else 0).
Proof.
  destruct a as [tw cnts], a' as [tw' cnts']; intros Hs; simpl.
  apply emission_count_step_cases in Hs.
  destruct Hs as [(He & -> & ->)|(He & _ & Hb)]; rewrite He; simpl; [lia|].
  exact (bump_cell _ _ _ _ _ _ Hb).
Qed.

Lemma emission_step_total (a a' : emission_acc) ws s :
  emission_count_step h a ws = Ok a' ->
  row_total (snd a') s = row_total (snd a) s +
    (if emitting h ws && keqb (snd ws) s then 1 else 0).
Proof.
  destruct a as [tw cnts], a' as [tw' cnts']; intros Hs; simpl.
  apply emission_count_step_cases in Hs.
  destruct Hs as [(He & -> & ->)|(He & _ & Hb)]; rewrite He; simpl; [lia|].
  exact (bump_total _ _ _ _ _ Hb).
Qed.

Lemma emission_step_mem (a a' : emission_acc) ws s w :
  emission_count_step h a ws = Ok a' ->
  row_mem (snd a') s w = row_mem (snd a) s w ||
    (emitting h ws && keqb (snd ws) s && keqb (fst ws) w).
Proof.
  destruct a as [tw cnts], a' as [tw' cnts']; intros Hs; simpl.
  apply emission_count_step_cases in Hs.
  destruct Hs as [(He & -> & ->)|(He & _ & Hb)]; rewrite He; simpl.
  - now rewrite orb_false_r.
  - exact (bump_mem _ _ _ _ _ _ Hb).
Qed.

Lemma emission_step_vocab (a a' : emission_acc) ws w :
  emission_count_step h a ws = Ok a' ->
  dmem (fst a') w = dmem (fst a) w || (emitting h ws && keqb (fst ws) w).
Proof.
  destruct a as [tw cnts], a' as [tw' cnts']; intros Hs; simpl.
  apply emission_count_step_cases in Hs.
  destruct Hs as [(He & -> & ->)|(He & Hc & _)]; rewrite He; simpl.
  - now rewrite orb_false_r.
  - exact (count_one_mem _ _ _ _ Hc).
Qed.

Lemma emission_step_keys (a a' : emission_acc) ws :
  emission_count_step h a ws = Ok a' -> dkeys (snd a') = dkeys (snd a).
Proof.
  destruct a as [tw cnts], a' as [tw' cnts']; intros Hs; simpl.
  apply emission_count_step_cases in Hs.
  destruct Hs as [(He & -> & ->)|(He & _ & Hb)]; [reflexivity|].
  exact (bump_keys _ _ _ _ Hb).
Qed.

Lemma emission_deque_body (a a' : emission_acc) ws_deque :
  emission_count_deque h a ws_deque = Ok a' ->
  foldM (emission_count_step h) ws_deque a = Ok a'.
Proof.
  unfold emission_count_deque; intros Hd; inv_bind Hd; exact Hd.
Qed.

(** The loops of [estimate_emission] over a whole corpus. *)
Variables (obs : list sequence) (a a' : emission_acc).
Hypothesis Hloop : foldM (emission_count_deque h) obs a = Ok a'.

Lemma emission_loop_cell s w :
  cell (snd a') s w = cell (snd a) s w + emit_count h obs s w.
Proof.
  unfold emit_count; rewrite count_if_concat.
  apply (foldM_measure (emission_count_deque h) (fun x => cell (snd x) s w)
           _) with (l := obs); [|exact Hloop].
  intros x b x' Hd; apply emission_deque_body in Hd.
  rewrite count_if_sumZ.
  apply (foldM_measure (emission_count_step h) (fun x => cell (snd x) s w)
           _) with (l := b); [|exact Hd].
  intros; now apply emission_step_cell.
Qed.

Lemma emission_loop_total s :
  row_total (snd a') s = row_total (snd a) s + state_count h obs s.
Proof.
  unfold state_count; rewrite count_if_concat.
  apply (foldM_measure (emission_count_deque h) (fun x => row_total (snd x) s)
           _) with (l := obs); [|exact Hloop].
  intros x b x' Hd; apply emission_deque_body in Hd.
  rewrite count_if_sumZ.
  apply (foldM_measure (emission_count_step h) (fun x => row_total (snd x) s)
           _) with (l := b); [|exact Hd].
  intros; now apply emission_step_total.
Qed.

Lemma emission_loop_mem s w :
  row_mem (snd a') s w = row_mem (snd a) s w ||
    existsb (fun ws => emitting h ws && keqb (snd ws) s && keqb (fst ws) w)
            (List.concat obs).
Proof.
  rewrite existsb_concat.
  apply (foldM_flag (emission_count_deque h) (fun x => row_mem (snd x) s w)
           _) with (l := obs); [|exact Hloop].
  intros x b x' Hd; apply emission_deque_body in Hd.
  apply (foldM_flag (emission_count_step h) (fun x => row_mem (snd x) s w)
           _) with (l := b); [|exact Hd].
  intros; now apply emission_step_mem.
Qed.

Lemma emission_loop_vocab w :
  dmem (fst a') w = dmem (fst a) w || in_corpus h obs w.
Proof.
  unfold in_corpus; rewrite existsb_concat.
  apply (foldM_flag (emission_count_deque h) (fun x => dmem (fst x) w)
           _) with (l := obs); [|exact Hloop].
  intros x b x' Hd; apply emission_deque_body in Hd.
  apply (foldM_flag (emission_count_step h) (fun x => dmem (fst x) w)
           _) with (l := b); [|exact Hd].
  intros; now apply emission_step_vocab.
Qed.

Lemma emission_loop_keys : dkeys (snd a') = dkeys (snd a).
Proof.
  apply (foldM_inv (emission_count_deque h)
           (fun x => dkeys (snd x) = dkeys (snd a))) with (l := obs) (a := a);
    [|exact Hloop|reflexivity].
  intros x b x' Hd Hx; apply emission_deque_body in Hd.
  apply (foldM_inv (emission_count_step h)
           (fun x => dkeys (snd x) = dkeys (snd a))) with (l := b) (a := x);
    [|exact Hd|exact Hx].
  intros y c y' Hs Hy. rewrite (emission_step_keys _ _ _ Hs). exact Hy.
Qed.
End EmissionCounts.

(** ** Rational arithmetic of the estimates *)

Lemma inject_Z_nonzero (z : Z) : z <> 0 -> ~ (inject_Z z == 0)%Q.
Proof. intros Hz Hq; apply Hz. unfold Qeq in Hq; simpl in Hq; lia. Qed.

Lemma Qsum_app (l1 l2 : list Q) : (Qsum (l1 ++ l2) == Qsum l1 + Qsum l2)%Q.
Proof.
  induction l1 as [|x l1 IH]; simpl; [ring|].
  rewrite IH; ring.
Qed.

Lemma Qsum_ratios (vals : list Z) (q : Q) :
  ~ (q == 0)%Q ->
  (Qsum (map (fun c => inject_Z c / q) vals) == inject_Z (sumZ vals) / q)%Q.
Proof.
  intros Hq; induction vals as [|c vals IH]; simpl.
  - field; assumption.
  - rewrite IH, inject_Z_plus. field; assumption.
Qed.

Lemma ratio_zero (q : Q) : (0 == inject_Z 0 / q)%Q.
Proof. unfold Qdiv; simpl; ring. Qed.

(** ** The emission table *)

Lemma calculate_emission_mle_Ok c C k p :
  _calculate_emission_mle c C k = Ok p ->
  C + k <> 0 /\ p = (inject_Z c / inject_Z (C + k))%Q.
Proof.
  unfold _calculate_emission_mle. destruct (Z.eqb_spec (C + k) 0); [discriminate|].
  intros Hp; inversion Hp; auto.
Qed.

Lemma emission_row_Ok k counts row :
  emission_row k counts = Ok row ->
  sum_values counts + k <> 0 /\ row = mle_row k counts.
Proof.
  unfold emission_row; intros Hr. inv_bind Hr. inv_bind Hr.
  apply calculate_emission_mle_Ok in Ha0 as [Hnz ->]. split; [assumption|].
  inversion Hr; subst row; clear Hr. unfold mle_row. f_equal.
  assert (Ht : dict_mapM
                 (fun word_cnt =>
                    _calculate_emission_mle word_cnt (sum_values counts) k)
                 counts
               = Ok (dict_map
                       (fun c => (inject_Z c /
                                  inject_Z (sum_values counts + k))%Q) counts)).
  { apply (dict_mapM_total _
             (fun c => (inject_Z c / inject_Z (sum_values counts + k))%Q)).
    intros v _. unfold _calculate_emission_mle.
    destruct (Z.eqb_spec (sum_values counts + k) 0); [contradiction | reflexivity]. }
  rewrite Ht in Ha; now inversion Ha.
Qed.

Lemma mle_row_unknown k counts :
  dget (mle_row k counts) UNKNOWN_TOKEN
  = Some (inject_Z k / inject_Z (sum_values counts + k))%Q.
Proof. unfold mle_row; apply dget_dset_same. Qed.

Lemma mle_row_word k counts w :
  w <> UNKNOWN_TOKEN ->
  dget (mle_row k counts) w
  = option_map (fun c => (inject_Z c / inject_Z (sum_values counts + k))%Q)
               (dget counts w).
Proof.
  intros Hw; unfold mle_row.
  rewrite dget_dset_other by (now apply not_eq_sym).
  apply dget_map.
Qed.

Lemma mle_row_sum k counts :
  sum_values counts + k <> 0 ->
  dmem counts UNKNOWN_TOKEN = false ->
  (Qsum (dvalues (mle_row k counts)) == 1)%Q.
Proof.
  intros Hnz Hu; unfold mle_row.
  rewrite dset_absent.
  - unfold dvalues at 1. rewrite map_app.
    change (map snd (dict_map ?g counts)) with (dvalues (dict_map g counts)).
    rewrite Qsum_app, dvalues_map.
    rewrite Qsum_ratios by (now apply inject_Z_nonzero).
    cbn [dvalues map snd]. rewrite <- sum_values_sumZ, inject_Z_plus.
    unfold Qsum; cbn [fold_right]. field. rewrite <- inject_Z_plus. now apply inject_Z_nonzero.
  - unfold dmem in *. rewrite dget_map.
    destruct (dget counts UNKNOWN_TOKEN); [discriminate | reflexivity].
Qed.

(** What [estimate_emission] returns, state by state: the row of [s] is
    computed from a row of counts that agrees with the corpus. *)
Lemma estimate_emission_row h obs k h' tbl s :
  estimate_emission h obs k = Ok (h', tbl) ->
  In s (states h) ->
  exists counts,
    dget tbl s = Some (mle_row k counts) /\
    sum_values counts + k <> 0 /\
    (forall w, dget_default counts w 0 = emit_count h obs s w) /\
    sum_values counts = state_count h obs s /\
    (forall w, dmem counts w = negb (emit_count h obs s w =? 0)).
Proof.
  unfold estimate_emission; intros He Hs.
  fold (empty_rows (states h)) in He.
  inv_bind He. destruct a as [tw cnts]. inv_bind He. inversion He; subst; clear He.
  pose proof (emission_loop_keys h _ _ _ Ha) as Hk; cbn [snd] in Hk.
  pose proof (emission_loop_cell h _ _ _ Ha s) as Hc; cbn [snd] in Hc.
  pose proof (emission_loop_total h _ _ _ Ha s) as Ht; cbn [snd] in Ht.
  pose proof (emission_loop_mem h _ _ _ Ha s) as Hm; cbn [snd] in Hm.
  pose proof (empty_rows_get (states h) s Hs) as H0.
  unfold cell in Hc; unfold row_total in Ht; unfold row_mem in Hm.
  rewrite H0 in Hc, Ht, Hm.
  assert (Hin : In s (dkeys cnts)).
  { rewrite Hk. eapply dget_Some_keys; eauto. }
  apply dmem_keys in Hin; unfold dmem in Hin.
  destruct (dget cnts s) as [counts|] eqn:Eg; [|discriminate].
  pose proof (dict_mapM_get _ _ _ s Ha0) as Hg. rewrite Eg in Hg.
  destruct Hg as [row [Hrow Hr]].
  apply emission_row_Ok in Hr as [Hnz ->].
  exists counts. split; [assumption|]. split; [assumption|].
  split; [|split].
  - intros w; rewrite Hc. unfold dget_default; simpl; lia.
  - rewrite Ht. unfold sum_values; simpl; lia.
  - intros w; rewrite Hm. unfold dmem; cbn [dget orb]. unfold emit_count.
    destruct (existsb _ (List.concat obs)) eqn:Ex.
    + symmetry; apply negb_true_iff, Z.eqb_neq. intros Hz.
      apply count_if_zero_existsb in Hz. congruence.
    + apply count_if_zero_existsb in Ex. rewrite Ex. reflexivity.
Qed.

Lemma estimate_emission_vocab h obs k h' tbl w :
  estimate_emission h obs k = Ok (h', tbl) ->
  dmem (training_words h') w = dmem (training_words h) w || in_corpus h obs w.
Proof.
  unfold estimate_emission; intros He.
  inv_bind He. destruct a as [tw cnts]. inv_bind He. inversion He; subst; clear He.
  exact (emission_loop_vocab h _ _ _ Ha w).
Qed.

Lemma estimate_emission_keys h obs k h' tbl :
  estimate_emission h obs k = Ok (h', tbl) ->
  forall s, dmem tbl s = list_mem s (states h).
Proof.
  unfold estimate_emission; intros He s.
  fold (empty_rows (states h)) in He.
  inv_bind He. destruct a as [tw cnts]. inv_bind He. inversion He; subst; clear He.
  pose proof (emission_loop_keys h _ _ _ Ha) as Hk; cbn [snd] in Hk.
  apply dict_mapM_keys in Ha0.
  rewrite <- empty_rows_mem.
  apply eq_true_iff_eq. rewrite !dmem_keys. now rewrite Ha0, Hk.
Qed.

(** ** What [train] stores *)

Lemma estimate_emission_object h obs k h' tbl :
  estimate_emission h obs k = Ok (h', tbl) ->
  exists tw, h' = set_training_words h tw.
Proof.
  unfold estimate_emission; intros He.
  inv_bind He. destruct a as [tw cnts]. inv_bind He. inversion He; eauto.
Qed.

Lemma estimate_transition_object h obs h' tbl :
  estimate_transition h obs = Ok (h', tbl) ->
  exists cnts, h' = set_transition_cnts h cnts.
Proof.
  unfold estimate_transition; intros He.
  inv_bind He. inv_bind He. inv_bind He. inversion He; eauto.
Qed.

Lemma train_Ok h obs h' :
  train h obs = Ok h' ->
  exists h1 e h3 t,
    estimate_emission h obs default_smooth_k = Ok (h1, e) /\
    estimate_transition (set_emission_probs h1 e) obs = Ok (h3, t) /\
    h' = set_transition_probs h3 t.
Proof.
  unfold train; intros Ht. inv_bind Ht. destruct a as [h1 e].
  inv_bind Ht. destruct a as [h3 t]. inversion Ht; subst.
  exists h1, e, h3, t; auto.
Qed.

(** The fields of a trained object. *)
Lemma train_fields h obs h' :
  train h obs = Ok h' ->
  exists h1 h3,
    estimate_emission h obs default_smooth_k = Ok (h1, emission_probs h') /\
    estimate_transition (set_emission_probs h1 (emission_probs h')) obs
      = Ok (h3, transition_probs h') /\
    training_words h' = training_words h1 /\
    states h' = states h /\ end_states h' = end_states h.
Proof.
  intros Ht. apply train_Ok in Ht as (h1 & e & h3 & t & He & Htr & ->).
  destruct (estimate_emission_object _ _ _ _ _ He) as [tw ->].
  destruct (estimate_transition_object _ _ _ _ Htr) as [cnts ->].
  simpl. exists (set_training_words h tw), (set_transition_cnts
    (set_emission_probs (set_training_words h tw) e) cnts). auto.
Qed.

Lemma count_if_le {A : Type} (f g : A -> bool) (l : list A) :
  (forall a, f a = true -> g a = true) -> count_if f l <= count_if g l.
Proof.
  intros Hfg; induction l as [|a l IH]; [reflexivity|].
  rewrite !count_if_cons. specialize (Hfg a).
  destruct (f a), (g a); try discriminate (Hfg eq_refl); lia.
Qed.

Lemma emit_count_bounds h obs s w :
  0 <= emit_count h obs s w <= state_count h obs s.
Proof.
  split; [apply count_if_nonneg|].
  apply count_if_le. intros a Ha. apply andb_true_iff in Ha; tauto.
Qed.

(** ** Emission estimates (claims C1, C4, C10) *)

(** C1, as amended.  Whenever [estimate_emission] returns a table (as it
    does inside [train], with [smooth_k] = 1), every interior state [s] has
    a row; writing C for the number of emissions from [s] in the corpus, the
    entry of every token [w] other than the UNKNOWN token is c / (C + k),
    where c is the number of emissions of [w] from [s]; the entry of the
    UNKNOWN token is k / (C + k); and when the UNKNOWN token itself was
    never emitted from [s], the entries of the row sum to 1. *)
Theorem emission_mle_normalised h obs k h' tbl s :
  estimate_emission h obs k = Ok (h', tbl) ->
  In s (states h) ->
  exists row,
    dget tbl s = Some row /\
    (forall w, w <> UNKNOWN_TOKEN ->
       (dget_default row w 0 ==
        inject_Z (emit_count h obs s w) / inject_Z (state_count h obs s + k))%Q) /\
    dget row UNKNOWN_TOKEN
      = Some (inject_Z k / inject_Z (state_count h obs s + k))%Q /\
    (emit_count h obs s UNKNOWN_TOKEN = 0 -> (Qsum (dvalues row) == 1)%Q).
Proof.
  intros He Hs.
  destruct (estimate_emission_row _ _ _ _ _ _ He Hs)
    as (counts & Hrow & Hnz & Hc & Ht & Hm).
  exists (mle_row k counts). split; [assumption|]. split; [|split].
  - intros w Hw. unfold dget_default at 1. rewrite mle_row_word by assumption.
    rewrite <- Hc, <- Ht. unfold dget_default.
    destruct (dget counts w); simpl; [reflexivity | apply ratio_zero].
  - rewrite mle_row_unknown, Ht. reflexivity.
  - intros Hu. apply mle_row_sum; [assumption|].
    rewrite Hm, Hu. reflexivity.
Qed.

(** The statement at the model of [Example]: state A, two emissions of x. *)
Lemma emission_mle_normalised_witness :
  exists row,
    dget [("A"%string, [("x"%string, 2 # 3); (UNKNOWN_TOKEN, 1 # 3)]);
          ("B"%string, [("y"%string, 1 # 3); ("x"%string, 1 # 3);
                        (UNKNOWN_TOKEN, 1 # 3)])] "A"%string = Some row /\
    (forall w, w <> UNKNOWN_TOKEN ->
       (dget_default row w 0 ==
        inject_Z (emit_count Example.hmm0 Example.corpus "A" w) /
        inject_Z (state_count Example.hmm0 Example.corpus "A" + 1))%Q) /\
    dget row UNKNOWN_TOKEN
      = Some (inject_Z 1 /
              inject_Z (state_count Example.hmm0 Example.corpus "A" + 1))%Q /\
    (emit_count Example.hmm0 Example.corpus "A" UNKNOWN_TOKEN = 0 ->
     (Qsum (dvalues row) == 1)%Q).
Proof.
  apply (emission_mle_normalised Example.hmm0 Example.corpus 1
           (set_training_words Example.hmm0
              [("x"%string, 3); ("y"%string, 1)]) _ "A"%string).
  - reflexivity.
  - simpl; auto.
Defined.

(** C1 as stated fails when the corpus contains the UNKNOWN token: its
    count is overwritten by the smoothing entry.  With two emissions of
    "#UNK#" from A and nothing else, the entry of "#UNK#" is 1/3, not
    2/(2+1), and the row sums to 1/3. *)
Lemma emission_mle_unknown_collision :
  let h := HMM_init ["START"; "STOP"; "A"]%string in
  let obs := [[(""%string, "START"%string); (UNKNOWN_TOKEN, "A"%string);
               (UNKNOWN_TOKEN, "A"%string); (""%string, "STOP"%string)]] in
  exists h' row,
    train h obs = Ok h' /\
    In "A"%string (states h) /\
    dget (emission_probs h') "A"%string = Some row /\
    emit_count h obs "A" UNKNOWN_TOKEN = 2 /\
    state_count h obs "A" = 2 /\
    ~ (dget_default row UNKNOWN_TOKEN 0 == inject_Z 2 / inject_Z (2 + 1))%Q /\
    ~ (Qsum (dvalues row) == 1)%Q.
Proof.
  simpl. eexists; eexists. split; [vm_compute; reflexivity|].
  split; [now left|]. split; [reflexivity|].
  split; [reflexivity|]. split; [reflexivity|].
  split; intros Hq; vm_compute in Hq; discriminate.
Qed.

Lemma get_emission_probability_unknown h s w row unk :
  dmem (training_words h) w = false ->
  dget (emission_probs h) s = Some row ->
  dget row UNKNOWN_TOKEN = Some unk ->
  get_emission_probability h s w = Ok unk.
Proof.
  intros Hw Hr Hu; unfold get_emission_probability, dindex.
  rewrite Hw, Hr; cbn [negb bind]. now rewrite Hu.
Qed.

Lemma get_emission_probability_known h s w row :
  dmem (training_words h) w = true ->
  dget (emission_probs h) s = Some row ->
  get_emission_probability h s w = Ok (dget_default row w 0%Q).
Proof.
  intros Hw Hr; unfold get_emission_probability, dindex.
  rewrite Hw, Hr; reflexivity.
Qed.

(** C4, as amended.  In a trained model every interior state [s] has a row
    with an UNKNOWN entry, and for every token [w]: if [w] is not in the
    training vocabulary (it was in no earlier vocabulary and no non-end
    state of the corpus emits it), the lookup for (s, w) returns the UNKNOWN
    entry of [s]; if [w] is emitted somewhere in the corpus but never from
    [s], and [w] is not the UNKNOWN token itself, the lookup returns 0. *)
Theorem emission_lookup_unseen_vs_absent h obs h' s w :
  train h obs = Ok h' ->
  In s (states h) ->
  exists row unk,
    dget (emission_probs h') s = Some row /\
    dget row UNKNOWN_TOKEN = Some unk /\
    (dmem (training_words h) w = false -> in_corpus h obs w = false ->
     get_emission_probability h' s w = Ok unk) /\
    (in_corpus h obs w = true -> emit_count h obs s w = 0 ->
     w <> UNKNOWN_TOKEN ->
     get_emission_probability h' s w = Ok 0%Q).
Proof.
  intros Ht Hs.
  destruct (train_fields _ _ _ Ht) as (h1 & h3 & He & _ & Htw & _ & _).
  destruct (estimate_emission_row _ _ _ _ _ _ He Hs)
    as (counts & Hrow & Hnz & Hc & _ & Hm).
  pose proof (estimate_emission_vocab _ _ _ _ _ w He) as Hv.
  rewrite <- Htw in Hv.
  exists (mle_row default_smooth_k counts). eexists.
  split; [exact Hrow|]. split; [apply mle_row_unknown|]. split.
  - intros Hold Hnew.
    eapply get_emission_probability_unknown; eauto using mle_row_unknown.
    now rewrite Hv, Hold, Hnew.
  - intros Hin Hz Hw.
    rewrite (get_emission_probability_known h' s w _) with (2 := Hrow)
      by (rewrite Hv, Hin; apply orb_true_r).
    unfold dget_default. rewrite mle_row_word by assumption.
    specialize (Hm w). rewrite Hz in Hm. unfold dmem in Hm.
    destruct (dget counts w); [discriminate | reflexivity].
Qed.

(** The statement at the model of [Example]: "zzz" is in no vocabulary, and
    "y" is emitted from B only. *)
Lemma emission_lookup_unseen_vs_absent_witness :
  exists h',
    train Example.hmm0 Example.corpus = Ok h' /\
    get_emission_probability h' "A" "zzz" = Ok (inject_Z 1 / inject_Z (2 + 1))%Q /\
    get_emission_probability h' "A" "y" = Ok 0%Q.
Proof.
  eexists. split; [vm_compute; reflexivity|].
  match goal with
  | |- get_emission_probability ?h' _ _ = _ /\ _ =>
      destruct (emission_lookup_unseen_vs_absent Example.hmm0 Example.corpus
                  h' "A"%string "zzz"%string)
        as (row1 & unk1 & Hr1 & Hu1 & Hunk & _);
        [vm_compute; reflexivity | simpl; auto |];
      destruct (emission_lookup_unseen_vs_absent Example.hmm0 Example.corpus
                  h' "A"%string "y"%string)
        as (row2 & unk2 & Hr2 & Hu2 & _ & Hzero);
        [vm_compute; reflexivity | simpl; auto |]
  end.
  split.
  - rewrite Hunk by reflexivity.
    vm_compute in Hr1. inversion Hr1; subst row1.
    vm_compute in Hu1. inversion Hu1; subst unk1. reflexivity.
  - apply Hzero; [reflexivity | reflexivity | discriminate].
Defined.

(** C4 as stated fails for the UNKNOWN token: when "#UNK#" occurs in the
    corpus under A but never under B, the lookup for (B, "#UNK#") returns
    the UNKNOWN entry of B, which is 1, and not 0. *)
Lemma emission_lookup_unknown_collision :
  let h := HMM_init ["START"; "STOP"; "A"; "B"]%string in
  let obs := [[(""%string, "START"%string); (UNKNOWN_TOKEN, "A"%string);
               (""%string, "STOP"%string)]] in
  exists h' p,
    train h obs = Ok h' /\
    In "B"%string (states h) /\
    in_corpus h obs UNKNOWN_TOKEN = true /\
    emit_count h obs "B" UNKNOWN_TOKEN = 0 /\
    get_emission_probability h' "B" UNKNOWN_TOKEN = Ok p /\
    ~ (p == 0)%Q.
Proof.
  simpl. eexists; eexists. split; [vm_compute; reflexivity|].
  split; [right; now left|]. split; [reflexivity|]. split; [reflexivity|].
  split; [vm_compute; reflexivity|].
  intros Hq; vm_compute in Hq; discriminate.
Qed.

(** C10.  After training, every interior state [s] given at construction
    has a row in the emission table with an UNKNOWN entry [p]; [p] is
    strictly positive and is what the lookup returns for every token outside
    the vocabulary; and when [s] emits nothing in the corpus, the UNKNOWN
    entry is the only entry of the row and equals k/(0+k) = 1. *)
Theorem unknown_entry_every_state h obs h' s :
  train h obs = Ok h' ->
  In s (states h) ->
  exists row p,
    dget (emission_probs h') s = Some row /\
    dget row UNKNOWN_TOKEN = Some p /\
    (0 < p)%Q /\
    (forall w, dmem (training_words h') w = false ->
               get_emission_probability h' s w = Ok p) /\
    (state_count h obs s = 0 ->
     row = [(UNKNOWN_TOKEN, p)] /\
     p = (inject_Z default_smooth_k / inject_Z (0 + default_smooth_k))%Q /\
     (p == 1)%Q).
Proof.
  intros Ht Hs.
  destruct (train_fields _ _ _ Ht) as (h1 & h3 & He & _ & Htw & _ & _).
  destruct (estimate_emission_row _ _ _ _ _ _ He Hs)
    as (counts & Hrow & Hnz & Hc & Hsum & Hm).
  exists (mle_row default_smooth_k counts). eexists.
  split; [exact Hrow|]. split; [apply mle_row_unknown|].
  pose proof (emit_count_bounds h obs s) as Hb.
  assert (Hpos : 0 <= state_count h obs s).
  { specialize (Hb UNKNOWN_TOKEN); lia. }
  split; [|split].
  - rewrite Hsum. unfold default_smooth_k.
    unfold Qlt, Qdiv, Qmult, Qinv, inject_Z; simpl.
    destruct (state_count h obs s + 1) eqn:E; simpl; lia.
  - intros w Hw.
    eapply get_emission_probability_unknown; eauto using mle_row_unknown.
  - intros Hz. assert (Hnil : counts = []).
    { apply dmem_false_nil. intros w. rewrite Hm.
      specialize (Hb w). replace (emit_count h obs s w) with 0 by lia.
      reflexivity. }
    subst counts. split; [reflexivity|]. split; [reflexivity|].
    reflexivity.
Qed.

(** The statement at a model whose state C never occurs in the corpus. *)
Lemma unknown_entry_every_state_witness :
  exists h' row p,
    train (HMM_init ["START"; "STOP"; "A"; "B"; "C"]%string) Example.corpus
      = Ok h' /\
    dget (emission_probs h') "C"%string = Some row /\
    dget row UNKNOWN_TOKEN = Some p /\
    (0 < p)%Q /\
    row = [(UNKNOWN_TOKEN, p)] /\ (p == 1)%Q.
Proof.
  eexists.
  match goal with
  | |- exists row p, train ?h ?obs = Ok ?h' /\ _ =>
      assert (Ht : train h obs = Ok h') by (vm_compute; reflexivity);
      destruct (unknown_entry_every_state h obs h' "C"%string Ht)
        as (row & p & Hr & Hu & Hp & _ & Hz); [simpl; auto|];
      exists row, p
  end.
  destruct Hz as (Hrow & _ & Hone); [reflexivity|].
  repeat split; assumption.
Defined.

(** ** The transition counts are the counts of the corpus *)

Lemma transition_count_from_adjacent cnts prev rest :
  transition_count_from cnts prev rest
  = foldM bump_pair (adjacent (prev :: rest)) cnts.
Proof.
  revert cnts prev; induction rest as [|b rest IH]; intros cnts prev.
  - reflexivity.
  - cbn [transition_count_from].
    change (adjacent (prev :: b :: rest))
      with ((snd prev, snd b) :: adjacent (b :: rest)).
    cbn [foldM]. unfold bump_pair at 1; cbn [fst snd].
    change (transition_count_step cnts (snd prev) (snd b))
      with (bump cnts (snd prev) (snd b)).
    destruct (bump cnts (snd prev) (snd b)); cbn [bind]; [apply IH | reflexivity].
Qed.

Lemma transition_deque_body h cnts ws_deque cnts' :
  transition_count_deque h cnts ws_deque = Ok cnts' ->
  foldM bump_pair (adjacent ws_deque) cnts = Ok cnts'.
Proof.
  unfold transition_count_deque; intros Hd; inv_bind Hd.
  destruct ws_deque as [|first rest]; [exact Hd|].
  now rewrite <- transition_count_from_adjacent.
Qed.

Section TransitionCounts.
Variable h : HMM.
Variables (obs : list sequence) (c c' : dict state (dict state Z)).
Hypothesis Hloop : foldM (transition_count_deque h) obs c = Ok c'.

Lemma transition_loop_cell s t :
  cell c' s t = cell c s t + trans_count obs s t.
Proof.
  unfold trans_count; rewrite count_if_concat, map_map.
  apply (foldM_measure (transition_count_deque h) (fun x => cell x s t)
           (fun sq => count_if (fun p => keqb (fst p) s && keqb (snd p) t)
                        (adjacent sq))) with (l := obs); [|exact Hloop].
  intros x b x' Hd; apply transition_deque_body in Hd.
  rewrite count_if_sumZ.
  apply (foldM_measure bump_pair (fun x => cell x s t) _)
    with (l := adjacent b); [|exact Hd].
  intros y p y' Hb. exact (bump_cell _ _ _ _ _ _ Hb).
Qed.

Lemma transition_loop_total s :
  row_total c' s = row_total c s + out_count obs s.
Proof.
  unfold out_count; rewrite count_if_concat, map_map.
  apply (foldM_measure (transition_count_deque h) (fun x => row_total x s)
           (fun sq => count_if (fun p => keqb (fst p) s) (adjacent sq)))
    with (l := obs); [|exact Hloop].
  intros x b x' Hd; apply transition_deque_body in Hd.
  rewrite count_if_sumZ.
  apply (foldM_measure bump_pair (fun x => row_total x s) _)
    with (l := adjacent b); [|exact Hd].
  intros y p y' Hb. exact (bump_total _ _ _ _ _ Hb).
Qed.

Lemma transition_loop_mem s t :
  row_mem c' s t = row_mem c s t ||
    existsb (fun p => keqb (fst p) s && keqb (snd p) t)
            (List.concat (map adjacent obs)).
Proof.
  rewrite existsb_concat, existsb_map_comp.
  apply (foldM_flag (transition_count_deque h) (fun x => row_mem x s t)
           (fun sq => existsb (fun p => keqb (fst p) s && keqb (snd p) t)
                        (adjacent sq))) with (l := obs); [|exact Hloop].
  intros x b x' Hd; apply transition_deque_body in Hd.
  apply (foldM_flag bump_pair (fun x => row_mem x s t) _)
    with (l := adjacent b); [|exact Hd].
  intros y p y' Hb. exact (bump_mem _ _ _ _ _ _ Hb).
Qed.

Lemma transition_loop_keys : dkeys c' = dkeys c.
Proof.
  apply (foldM_inv (transition_count_deque h)
           (fun x => dkeys x = dkeys c)) with (l := obs) (a := c);
    [|exact Hloop|reflexivity].
  intros x b x' Hd Hx; apply transition_deque_body in Hd.
  apply (foldM_inv bump_pair (fun x => dkeys x = dkeys c))
    with (l := adjacent b) (a := x); [|exact Hd|exact Hx].
  intros y p y' Hb Hy. rewrite (bump_keys _ _ _ _ Hb). exact Hy.
Qed.
End TransitionCounts.

(** ** The transition table *)

Lemma transition_row_Ok counts row :
  transition_row counts = Ok row ->
  row = ratio_row counts /\ (counts <> [] -> sum_values counts <> 0).
Proof.
  unfold transition_row; intros Hr.
  assert (Hnz : counts <> [] -> sum_values counts <> 0).
  { destruct counts as [|[t n] counts]; [congruence|]. intros _.
    destruct (dict_mapM_Ok_all _ _ _ Hr n) as [p Hp]; [now left|].
    unfold _calculate_transition_mle in Hp.
    destruct (Z.eqb_spec (sum_values ((t, n) :: counts)) 0);
      [discriminate | assumption]. }
  split; [|exact Hnz].
  destruct counts as [|[t n] counts].
  - cbn in Hr. now inversion Hr.
  - rewrite (dict_mapM_total _
               (fun n0 => (inject_Z n0 /
                           inject_Z (sum_values ((t, n) :: counts)))%Q)) in Hr.
    + now inversion Hr.
    + intros v _. unfold _calculate_transition_mle.
      destruct (Z.eqb_spec (sum_values ((t, n) :: counts)) 0);
        [exfalso; apply Hnz; [discriminate | assumption] | reflexivity].
Qed.

Lemma ratio_row_sum counts :
  sum_values counts <> 0 -> (Qsum (dvalues (ratio_row counts)) == 1)%Q.
Proof.
  intros Hnz; unfold ratio_row. rewrite dvalues_map.
  rewrite Qsum_ratios by (now apply inject_Z_nonzero).
  rewrite <- sum_values_sumZ. field. now apply inject_Z_nonzero.
Qed.

(** What [estimate_transition] returns, source by source. *)
Lemma estimate_transition_row h obs h' tbl s :
  estimate_transition h obs = Ok (h', tbl) ->
  In s (source_states h) ->
  exists counts,
    dget tbl s = Some (ratio_row counts) /\
    (counts <> [] -> sum_values counts <> 0) /\
    (forall t, dget_default counts t 0 = trans_count obs s t) /\
    sum_values counts = out_count obs s /\
    (forall t, dmem counts t = negb (trans_count obs s t =? 0)).
Proof.
  unfold estimate_transition, source_states; intros He Hs.
  inv_bind He. rename a into start.
  fold (empty_rows (start :: states h)) in He.
  inv_bind He. rename a into cnts. inv_bind He. inversion He; subst; clear He.
  assert (Hs' : In s (start :: states h)).
  { unfold getitem in Ha. destruct (end_states h) as [|e es]; [discriminate|].
    simpl in Ha; inversion Ha; subst. exact Hs. }
  pose proof (transition_loop_keys h _ _ _ Ha0) as Hk.
  pose proof (transition_loop_cell h _ _ _ Ha0 s) as Hc.
  pose proof (transition_loop_total h _ _ _ Ha0 s) as Ht.
  pose proof (transition_loop_mem h _ _ _ Ha0 s) as Hm.
  pose proof (empty_rows_get _ s Hs') as H0.
  unfold cell in Hc; unfold row_total in Ht; unfold row_mem in Hm.
  rewrite H0 in Hc, Ht, Hm.
  assert (Hin : In s (dkeys cnts)).
  { rewrite Hk. eapply dget_Some_keys; eauto. }
  apply dmem_keys in Hin; unfold dmem in Hin.
  destruct (dget cnts s) as [counts|] eqn:Eg; [|discriminate].
  pose proof (dict_mapM_get _ _ _ s Ha1) as Hg. rewrite Eg in Hg.
  destruct Hg as [row [Hrow Hr]].
  apply transition_row_Ok in Hr as [-> Hnz].
  exists counts. split; [assumption|]. split; [assumption|].
  split; [|split].
  - intros t; rewrite Hc. unfold dget_default; simpl; lia.
  - rewrite Ht. unfold sum_values; simpl; lia.
  - intros t; rewrite Hm. unfold dmem; cbn [dget orb]. unfold trans_count.
    destruct (existsb _ (List.concat (map adjacent obs))) eqn:Ex.
    + symmetry; apply negb_true_iff, Z.eqb_neq. intros Hz.
      apply count_if_zero_existsb in Hz. congruence.
    + apply count_if_zero_existsb in Ex. rewrite Ex. reflexivity.
Qed.

Lemma get_transition_probability_row h s t row :
  dget (transition_probs h) s = Some row ->
  get_transition_probability h s t = Ok (dget_default row t 0%Q).
Proof.
  intros Hr; unfold get_transition_probability, dindex. now rewrite Hr.
Qed.

(** ** Transition estimates (claim C3) *)

(** C3.  In a trained model every source state [s] (START or interior) has
    a row in the transition table whose keys are exactly the successors
    observed after [s] in the corpus.  Writing C for the number of
    transitions out of [s], the lookup for a successor observed n > 0 times
    returns n / C, the lookup for a successor never observed returns exactly
    0, and when [s] has at least one observed transition the entries of the
    row sum to 1 over rational arithmetic: the quotients here are exact.
    The rounded quotients of the program need not sum to 1, see
    [transition_row_sum_binary64]. *)
Theorem transition_mle_unsmoothed h obs h' s :
  train h obs = Ok h' ->
  In s (source_states h) ->
  exists row,
    dget (transition_probs h') s = Some row /\
    (forall t, dmem row t = negb (trans_count obs s t =? 0)) /\
    (forall t, 0 < trans_count obs s t ->
       get_transition_probability h' s t
       = Ok (inject_Z (trans_count obs s t) / inject_Z (out_count obs s))%Q) /\
    (forall t, trans_count obs s t = 0 ->
       get_transition_probability h' s t = Ok 0%Q) /\
    (0 < out_count obs s -> (Qsum (dvalues row) == 1)%Q).
Proof.
  intros Ht Hs.
  destruct (train_fields _ _ _ Ht) as (h1 & h3 & He & Htr & _ & _ & _).
  destruct (estimate_emission_object _ _ _ _ _ He) as [tw ->].
  destruct (estimate_transition_row _ _ _ _ s Htr Hs)
    as (counts & Hrow & Hnz & Hc & Hsum & Hm).
  exists (ratio_row counts). split; [assumption|].
  assert (Hmem : forall t, dmem (ratio_row counts) t = dmem counts t).
  { intros t; unfold dmem, ratio_row. rewrite dget_map.
    now destruct (dget counts t). }
  split; [intros t; now rewrite Hmem|]. split; [|split].
  - intros t Hpos. rewrite (get_transition_probability_row _ _ _ _ Hrow).
    unfold dget_default, ratio_row. rewrite dget_map.
    specialize (Hm t). specialize (Hc t). unfold dmem, dget_default in *.
    destruct (dget counts t) as [n|]; simpl.
    + now rewrite Hc, Hsum.
    + destruct (Z.eqb_spec (trans_count obs s t) 0); [lia | discriminate].
  - intros t Hz. rewrite (get_transition_probability_row _ _ _ _ Hrow).
    unfold dget_default, ratio_row. rewrite dget_map.
    specialize (Hm t). rewrite Hz in Hm. unfold dmem in Hm.
    destruct (dget counts t); [discriminate | reflexivity].
  - intros Hpos. apply ratio_row_sum. lia.
Qed.

(** The statement at the model of [Example], for the source state A. *)
Lemma transition_mle_unsmoothed_witness :
  exists h' row,
    train Example.hmm0 Example.corpus = Ok h' /\
    dget (transition_probs h') "A"%string = Some row /\
    get_transition_probability h' "A" "B" = Ok (inject_Z 2 / inject_Z 2)%Q /\
    get_transition_probability h' "A" "STOP" = Ok 0%Q /\
    (Qsum (dvalues row) == 1)%Q.
Proof.
  eexists.
  match goal with
  | |- exists row, train ?h ?obs = Ok ?h' /\ _ =>
      assert (Ht : train h obs = Ok h') by (vm_compute; reflexivity);
      destruct (transition_mle_unsmoothed h obs h' "A"%string Ht)
        as (row & Hr & _ & Hpos & Hzero & Hsum); [simpl; auto|];
      exists row
  end.
  split; [assumption|]. split; [assumption|].
  split; [apply Hpos; reflexivity|].
  split; [apply Hzero; reflexivity|].
  apply Hsum; reflexivity.
Defined.

(** C3 as stated fails in the arithmetic of the program.  With START
    followed once by A, four times by B and once by C, the row of START
    holds the binary64 values of 1/6, 4/6 and 1/6.  As real numbers they
    sum to 1 - 2^-54, whatever the order; added from left to right in
    binary64, in the order of the row, they give 0.99999999999999989. *)
Lemma transition_row_sum_binary64 :
  let h := Binary64.HMM_init ["START"; "STOP"; "A"; "B"; "C"]%string in
  let one_token (s : state) : sequence :=
    [(""%string, "START"%string); ("x"%string, s); (""%string, "STOP"%string)]
  in
  let obs := map one_token ["A"; "B"; "B"; "B"; "B"; "C"]%string in
  let sixth := (6004799503160661 # 36028797018963968)%Q in
  let two_thirds := (6004799503160661 # 9007199254740992)%Q in
  exists h' row,
    Binary64.train h obs = Ok h' /\
    dget (Binary64.transition_probs h') "START"%string = Some row /\
    dkeys row = ["A"; "B"; "C"]%string /\
    trans_count obs "START" "A" = 1 /\
    trans_count obs "START" "B" = 4 /\
    trans_count obs "START" "C" = 1 /\
    out_count obs "START" = 6 /\
    map exact_value (dvalues row)
    = [Some sixth; Some two_thirds; Some sixth] /\
    (sixth + two_thirds + sixth == 1 - 1 / inject_Z (2 ^ 54))%Q /\
    ~ (sixth + two_thirds + sixth == 1)%Q /\
    PrimFloat.eqb (Binary64.sum_floats (dvalues row)) Binary64.one = false.
Proof.
  cbv zeta. eexists; eexists. split; [vm_compute; reflexivity|].
  split; [reflexivity|]. split; [reflexivity|].
  split; [reflexivity|]. split; [reflexivity|]. split; [reflexivity|].
  split; [reflexivity|]. split; [vm_compute; reflexivity|].
  split; [vm_compute; reflexivity|].
  split; [intros Hq; vm_compute in Hq; discriminate|].
  vm_compute; reflexivity.
Qed.

(** ** Retraining (claim C8) *)

(** The tables returned by the estimators depend on the object only through
    its lists of states. *)
Lemma foldM_snd_indep {T A B : Type} (f : T * A -> B -> result (T * A)) :
  (forall a1 a2 b, snd a1 = snd a2 ->
     result_map snd (f a1 b) = result_map snd (f a2 b)) ->
  forall l a1 a2, snd a1 = snd a2 ->
    result_map snd (foldM f l a1) = result_map snd (foldM f l a2).
Proof.
  intros Hf l; induction l as [|b l IH]; intros a1 a2 Ha; simpl.
  - now rewrite Ha.
  - specialize (Hf a1 a2 b Ha).
    destruct (f a1 b), (f a2 b); simpl in *; try discriminate.
    + inversion Hf. now apply IH.
    + assumption.
Qed.

Lemma emission_count_step_indep h (a1 a2 : emission_acc) ws :
  snd a1 = snd a2 ->
  result_map snd (emission_count_step h a1 ws)
  = result_map snd (emission_count_step h a2 ws).
Proof.
  destruct a1 as [tw1 c1], a2 as [tw2 c2], ws as [w st]; simpl.
  intros ->. unfold emission_count_step.
  destruct (list_mem st (end_states h)); [reflexivity|].
  destruct (list_mem st (states h)); cbn [negb]; [|reflexivity].
  rewrite !count_one_eq; cbn [bind].
  destruct (dindex c2 st); cbn [bind]; [|reflexivity].
  rewrite count_one_eq; reflexivity.
Qed.

Lemma emission_count_deque_indep h (a1 a2 : emission_acc) sq :
  snd a1 = snd a2 ->
  result_map snd (emission_count_deque h a1 sq)
  = result_map snd (emission_count_deque h a2 sq).
Proof.
  intros Ha. unfold emission_count_deque.
  destruct (_check_end_states h sq); cbn [bind]; [|reflexivity].
  apply foldM_snd_indep; [|assumption].
  intros; now apply emission_count_step_indep.
Qed.

Lemma estimate_emission_table_indep h1 h2 obs k :
  states h1 = states h2 -> end_states h1 = end_states h2 ->
  result_map snd (estimate_emission h1 obs k)
  = result_map snd (estimate_emission h2 obs k).
Proof.
  intros Hs He. unfold estimate_emission. rewrite Hs.
  assert (Hstep : emission_count_deque h1 = emission_count_deque h2).
  { unfold emission_count_deque, emission_count_step, _check_end_states.
    now rewrite Hs, He. }
  rewrite Hstep.
  match goal with
  | |- result_map snd (bind ?m1 _) = result_map snd (bind ?m2 _) =>
      assert (Hloop : result_map snd m1 = result_map snd m2)
        by (apply foldM_snd_indep;
            [apply emission_count_deque_indep | reflexivity]);
      destruct m1 as [[tw1 c1]|e1], m2 as [[tw2 c2]|e2]
  end;
    simpl in Hloop; try discriminate.
  - inversion Hloop; subst. cbn [bind].
    destruct (dict_mapM (emission_row k) c2); reflexivity.
  - inversion Hloop; reflexivity.
Qed.

Lemma estimate_transition_table_indep h1 h2 obs :
  states h1 = states h2 -> end_states h1 = end_states h2 ->
  result_map snd (estimate_transition h1 obs)
  = result_map snd (estimate_transition h2 obs).
Proof.
  intros Hs He. unfold estimate_transition. rewrite Hs, He.
  assert (Hstep : transition_count_deque h1 = transition_count_deque h2).
  { unfold transition_count_deque, _check_end_states. now rewrite He. }
  rewrite Hstep.
  destruct (getitem (end_states h2) 0); cbn [bind]; [|reflexivity].
  destruct (foldM (transition_count_deque h2) obs _); cbn [bind]; [|reflexivity].
  destruct (dict_mapM transition_row a0); reflexivity.
Qed.

Lemma result_map_snd_Ok {A B : Type} (m : result (A * B)) (b : B) :
  result_map snd m = Ok b -> exists a, m = Ok (a, b).
Proof.
  destruct m as [[a b']|e]; simpl; intros Hm; inversion Hm; eauto.
Qed.

(** C8.  Training an already trained model again on the same corpus
    succeeds and leaves the emission table and the transition table as the
    first training made them: both are recomputed from the corpus alone. *)
Theorem train_twice_same_tables h obs h1 :
  train h obs = Ok h1 ->
  exists h2,
    train h1 obs = Ok h2 /\
    emission_probs h2 = emission_probs h1 /\
    transition_probs h2 = transition_probs h1.
Proof.
  intros Ht.
  destruct (train_fields _ _ _ Ht) as (ha & hb & He & Htr & _ & Hs & Hes).
  destruct (estimate_emission_object _ _ _ _ _ He) as [twa ->].
  pose proof (estimate_emission_table_indep h1 h obs default_smooth_k Hs Hes)
    as Hie.
  rewrite He in Hie; cbn [result_map snd] in Hie.
  apply result_map_snd_Ok in Hie as [hc Hc].
  destruct (estimate_emission_object _ _ _ _ _ Hc) as [twc ->].
  pose proof (estimate_transition_table_indep
                (set_emission_probs (set_training_words h1 twc)
                   (emission_probs h1))
                (set_emission_probs (set_training_words h twa)
                   (emission_probs h1)) obs Hs Hes) as Hit.
  rewrite Htr in Hit; cbn [result_map snd] in Hit.
  apply result_map_snd_Ok in Hit as [hd Hd].
  exists (set_transition_probs hd (transition_probs h1)).
  unfold train. rewrite Hc; cbn [bind]. rewrite Hd; cbn [bind].
  destruct (estimate_transition_object _ _ _ _ Hd) as [cnts ->].
  repeat split.
Qed.

(** The statement at the model of [Example]. *)
Lemma train_twice_same_tables_witness :
  exists h1 h2,
    train Example.hmm0 Example.corpus = Ok h1 /\
    train h1 Example.corpus = Ok h2 /\
    emission_probs h2 = emission_probs h1 /\
    transition_probs h2 = transition_probs h1.
Proof.
  eexists.
  match goal with
  | |- exists h2, train ?h ?obs = Ok ?h1 /\ _ =>
      assert (Ht : train h obs = Ok h1) by (vm_compute; reflexivity);
      destruct (train_twice_same_tables h obs h1 Ht) as (h2 & H2 & He & Htr);
      exists h2
  end.
  repeat split; assumption.
Defined.

(** ** The boundary check (claim C7) *)

Lemma getitem_last {A : Type} (l : list A) (d : A) :
  l <> [] -> getitem l (List.length l - 1) = Ok (last l d).
Proof.
  induction l as [|a l IH]; [congruence|]. intros _.
  destruct l as [|b l]; [reflexivity|].
  specialize (IH ltac:(discriminate)).
  change (last (a :: b :: l) d) with (last (b :: l) d).
  rewrite <- IH. unfold getitem. cbn [List.length].
  replace (S (S (List.length l)) - 1)%nat with (S (S (List.length l) - 1))%nat
    by lia.
  reflexivity.
Qed.

(** The check rejects a sequence whose first state is not START or whose
    last state is not STOP. *)
Lemma check_end_states_rejects h sq start stop first :
  getitem (end_states h) 0 = Ok start ->
  getitem (end_states h) 1 = Ok stop ->
  hd_error sq = Some first ->
  snd first <> start \/ snd (last sq first) <> stop ->
  exists e, _check_end_states h sq = Raise e /\ boundary_error e.
Proof.
  intros Hstart Hstop Hfirst Hbad. unfold _check_end_states.
  destruct sq as [|x rest]; [discriminate|]. simpl in Hfirst.
  inversion Hfirst; subst x; clear Hfirst.
  change (getitem (first :: rest) 0) with (Ok first); cbn [bind].
  rewrite Hstart; cbn [bind].
  destruct (keqb_spec (snd first) start) as [Heq|Hne]; cbn [negb].
  - assert (Hl : getitem (first :: rest) (List.length (first :: rest) - 1)
                 = Ok (last (first :: rest) first)).
    { apply getitem_last; discriminate. }
    rewrite Hl; cbn [bind]. rewrite Hstop; cbn [bind].
    destruct (keqb_spec (snd (last (first :: rest) first)) stop) as [Heq'|Hne'];
      cbn [negb].
    + exfalso; destruct Hbad; contradiction.
    + exists InvalidStoppingState; split; [reflexivity | now right].
  - exists InvalidStartingState; split; [reflexivity | now left].
Qed.

(** The estimators run the check on each sequence before counting it, and
    the Viterbi decoder runs it before building the graph. *)
Lemma estimators_and_viterbi_check h sq e :
  _check_end_states h sq = Raise e ->
  (forall obs k, estimate_emission h (sq :: obs) k = Raise e) /\
  (forall obs start, getitem (end_states h) 0 = Ok start ->
                     estimate_transition h (sq :: obs) = Raise e) /\
  (forall C, viterbi h sq C = Raise e) /\
  (forall C, viterbi_label_sequence h sq C = Raise e).
Proof.
  intros Hc. repeat split.
  - intros obs k. unfold estimate_emission; cbn [foldM].
    unfold emission_count_deque at 1. now rewrite Hc.
  - intros obs start Hs. unfold estimate_transition. rewrite Hs; cbn [bind foldM].
    unfold transition_count_deque at 1. now rewrite Hc.
  - intros C. unfold viterbi. now rewrite Hc.
  - intros C. unfold viterbi_label_sequence, viterbi. now rewrite Hc.
Qed.

(** C7 (the code departs from the claim).  On the one-token sequence
    x without its START and STOP sentinels, both estimators and the Viterbi
    decoder signal the boundary error raised by the shared check, but the
    naive decoder does not run the check: it labels the sequence and
    returns. *)
Theorem naive_decoder_skips_boundary_check :
  let sq : sequence := [("x", "")]%string in
  exists h,
    train Example.hmm0 Example.corpus = Ok h /\
    _check_end_states h sq = Raise InvalidStartingState /\
    estimate_emission h [sq] 1 = Raise InvalidStartingState /\
    estimate_transition h [sq] = Raise InvalidStartingState /\
    viterbi h sq default_scaling_constant = Raise InvalidStartingState /\
    naive_label_sequence h sq
    = Ok [("", "START"); ("x", "A"); ("", "STOP")]%string.
Proof.
  simpl. eexists. split; [vm_compute; reflexivity|].
  repeat split; vm_compute; reflexivity.
Qed.

(** ** Argument checks of the Viterbi step (claim C5) *)

Lemma lookup_not_invalid e : lookup_error e -> ~ invalid_argument e.
Proof.
  intros Hl Hi. destruct Hl as [Hl|[Hl|Hl]]; destruct Hi as [Hi|Hi]; congruence.
Qed.

Lemma raises_only_Ok {A : Type} (P : error -> Prop) (a : A) : raises_only P (Ok a).
Proof. intros e He; discriminate. Qed.

Lemma raises_only_bind {A B : Type} (P : error -> Prop) (m : result A)
    (f : A -> result B) :
  raises_only P m -> (forall a, raises_only P (f a)) -> raises_only P (bind m f).
Proof.
  intros Hm Hf e He. destruct m as [a|e']; simpl in He.
  - exact (Hf a e He).
  - apply Hm. congruence.
Qed.

Lemma raises_only_mapM {A B : Type} (P : error -> Prop) (f : A -> result B)
    (l : list A) :
  (forall a, raises_only P (f a)) -> raises_only P (mapM f l).
Proof.
  intros Hf; induction l as [|a l IH]; simpl; [apply raises_only_Ok|].
  apply raises_only_bind; [apply Hf|]. intros b.
  apply raises_only_bind; [apply IH|]. intros bs. apply raises_only_Ok.
Qed.

Lemma raises_only_getitem {A : Type} (l : list A) i :
  raises_only lookup_error (getitem l i).
Proof.
  unfold getitem; intros e He. destruct (nth_error l i); inversion He.
  now left.
Qed.

Lemma raises_only_dindex {K V : Type} `{EqKey K} (d : dict K V) k :
  raises_only lookup_error (dindex d k).
Proof.
  unfold dindex; intros e He. destruct (dget d k); inversion He.
  right; now left.
Qed.

Lemma raises_only_max_by_snd {A : Type} (l : list (A * Q)) :
  raises_only lookup_error (max_by_snd l).
Proof.
  unfold max_by_snd; intros e He. destruct l; inversion He.
  right; now right.
Qed.

Lemma raises_only_get_transition h s t :
  raises_only lookup_error (get_transition_probability h s t).
Proof.
  unfold get_transition_probability.
  apply raises_only_bind; [apply raises_only_dindex|].
  intros; apply raises_only_Ok.
Qed.

Lemma raises_only_get_emission h s w :
  raises_only lookup_error (get_emission_probability h s w).
Proof.
  unfold get_emission_probability.
  destruct (negb (dmem (training_words h) w));
    (apply raises_only_bind; [apply raises_only_dindex|]); intros row;
    [apply raises_only_dindex | apply raises_only_Ok].
Qed.

Lemma raises_only_graph_set g i s nd :
  raises_only lookup_error (graph_set g i s nd).
Proof.
  unfold graph_set.
  apply raises_only_bind; [apply raises_only_dindex|].
  intros; apply raises_only_Ok.
Qed.

(** C5, as amended.  The Viterbi step raises one of its two argument
    exceptions exactly when the time step is outside [1, L) for a sequence
    of length L (so the last position L-1 is accepted) or the target state
    is neither an interior state nor STOP. *)
Theorem dp_helper_invalid_argument h iteration curr_state sq g C stop :
  getitem (end_states h) 1 = Ok stop ->
  (exists e, _dp_helper h iteration curr_state sq g C = Raise e /\
             invalid_argument e)
  <->
  (iteration < 1 \/ Z.of_nat (List.length sq) <= iteration \/
   ~ In curr_state (states h ++ [stop])).
Proof.
  intros Hstop. unfold _dp_helper. rewrite Hstop; cbn [bind].
  destruct (Z.ltb_spec iteration 1) as [Hlt|Hge]; cbn [orb].
  { split; [intros _; now left|].
    intros _; exists InvalidIteration; split; [reflexivity | now left]. }
  destruct (Z.geb_spec iteration (Z.of_nat (List.length sq))) as [Hlen|Hlen].
  { split; [intros _; right; left; lia|].
    intros _; exists InvalidIteration; split; [reflexivity | now left]. }
  destruct (list_mem curr_state (states h ++ [stop])) eqn:Hmem; cbn [negb].
  - apply list_mem_In in Hmem. split; [|intros [?|[?|?]]; [lia|lia|contradiction]].
    intros [e [He Hinv]]. exfalso.
    refine (lookup_not_invalid e _ Hinv). revert e He Hinv. intros e He _.
    revert e He.
    match goal with
    | |- forall e, ?r = Raise e -> _ => change (raises_only lookup_error r)
    end.
    apply raises_only_bind; [apply raises_only_getitem|]. intros ws.
    destruct (iteration =? 1).
    + apply raises_only_bind; [apply raises_only_getitem|]. intros start.
      apply raises_only_bind; [apply raises_only_get_transition|]. intros alpha.
      apply raises_only_bind; [apply raises_only_get_emission|]. intros beta.
      apply raises_only_graph_set.
    + apply raises_only_bind.
      * apply raises_only_mapM. intros prev_state.
        apply raises_only_bind; [apply raises_only_dindex|]. intros row.
        apply raises_only_bind; [apply raises_only_dindex|]. intros prev.
        apply raises_only_bind; [apply raises_only_get_transition|]. intros alpha.
        apply raises_only_bind.
        { destruct (iteration =? Z.of_nat (List.length sq) - 1);
            [apply raises_only_Ok | apply raises_only_get_emission]. }
        intros beta. apply raises_only_Ok.
      * intros temp_nodes.
        apply raises_only_bind; [apply raises_only_max_by_snd|]. intros best.
        apply raises_only_graph_set.
  - split.
    + intros _. right; right. intros Hin. apply list_mem_In in Hin. congruence.
    + intros _. exists InvalidState; split; [reflexivity | now right].
Qed.

(** The statement at the model of [Example]: time step 4 of a sequence of
    length 4 is rejected. *)
Lemma dp_helper_invalid_argument_witness :
  exists h e,
    train Example.hmm0 Example.corpus = Ok h /\
    _dp_helper h 4 "A" Example.sentence [] default_scaling_constant = Raise e /\
    invalid_argument e.
Proof.
  eexists.
  match goal with
  | |- exists e, train ?h0 ?obs = Ok ?h /\ _ =>
      assert (Ht : train h0 obs = Ok h) by (vm_compute; reflexivity);
      destruct (proj2 (dp_helper_invalid_argument h 4 "A"%string
                         Example.sentence [] default_scaling_constant
                         "STOP"%string eq_refl)) as (e & He & Hinv);
        [right; left; simpl; lia|];
      exists e
  end.
  repeat split; assumption.
Defined.

(** C5 as stated fails at the last position: for a sequence of length 3 the
    time step 2 is outside [1, L-1) = [1, 2), yet the step with target STOP
    raises nothing and fills the cell. *)
Lemma dp_helper_accepts_last_step :
  let sq : sequence := [("", "START"); ("x", ""); ("", "STOP")]%string in
  exists h g g',
    train Example.hmm0 Example.corpus = Ok h /\
    foldM (fun g st => _dp_helper h 1 st sq g default_scaling_constant)
          (states h) [(1, []); (2, [])] = Ok g /\
    _dp_helper h 2 "STOP" sq g default_scaling_constant = Ok g' /\
    ~ (1 <= 2 < Z.of_nat (List.length sq) - 1) /\
    In "STOP"%string (states h ++ ["STOP"%string]).
Proof.
  simpl. eexists; eexists; eexists.
  split; [vm_compute; reflexivity|].
  split; [vm_compute; reflexivity|].
  split; [vm_compute; reflexivity|].
  split; [lia|]. simpl; auto.
Qed.

(** ** The naive decoder (claim C6) *)

Lemma Qlt_bool_iff (x y : Q) : Qlt_bool x y = true <-> (x < y)%Q.
Proof.
  unfold Qlt_bool. rewrite negb_true_iff. split.
  - intros Hb. apply Qnot_le_lt. intros Hle.
    apply Qle_bool_iff in Hle. congruence.
  - intros Hlt. destruct (Qle_bool y x) eqn:E; [|reflexivity].
    apply Qle_bool_iff in E. exfalso. exact (Qlt_not_le _ _ Hlt E).
Qed.

Lemma Qlt_bool_false_iff (x y : Q) : Qlt_bool x y = false <-> (y <= x)%Q.
Proof.
  unfold Qlt_bool. rewrite negb_false_iff. apply Qle_bool_iff.
Qed.

Lemma fold_keep_best {A : Type} (l pre post : list (A * Q)) (x : A * Q) :
  (forall y, In y pre -> (snd y < snd x)%Q) ->
  (forall y, In y post -> (snd y <= snd x)%Q) ->
  first_max (pre ++ x :: post ++ l) (fold_left keep_best l x).
Proof.
  revert pre post x; induction l as [|y l IH]; intros pre post x Hpre Hpost.
  - rewrite app_nil_r. exists pre, post; auto.
  - cbn [fold_left]. unfold keep_best at 2.
    destruct (Qlt_bool (snd x) (snd y)) eqn:E.
    + apply Qlt_bool_iff in E.
      replace (pre ++ x :: post ++ y :: l)
        with ((pre ++ x :: post) ++ y :: [] ++ l)
        by (rewrite <- app_assoc; reflexivity).
      apply IH; [|intros z []].
      intros z Hz. apply in_app_or in Hz. destruct Hz as [Hz|[<-|Hz]].
      * eapply Qlt_trans; eauto.
      * assumption.
      * eapply Qle_lt_trans; eauto.
    + apply Qlt_bool_false_iff in E.
      replace (pre ++ x :: post ++ y :: l)
        with (pre ++ x :: (post ++ [y]) ++ l)
        by (rewrite <- app_assoc; reflexivity).
      apply IH; [assumption|].
      intros z Hz. apply in_app_or in Hz. destruct Hz as [Hz|[<-|[]]]; auto.
Qed.

Lemma max_by_snd_first_max {A : Type} (l : list (A * Q)) :
  l <> [] -> exists x, max_by_snd l = Ok x /\ first_max l x.
Proof.
  destruct l as [|x l]; [congruence|]. intros _.
  eexists; split; [reflexivity|].
  apply (fold_keep_best l [] [] x); intros y [].
Qed.

Lemma argmax_emission_first h w :
  emission_probs h <> [] ->
  exists s, _argmax_emission h w = Ok s /\ first_argmax h w s.
Proof.
  intros Hne. unfold _argmax_emission.
  destruct (emission_probs h) as [|e0 tbl] eqn:Et; [congruence|].
  cbn [is_empty]. rewrite <- Et.
  set (scores := map (fun sp : state * dict word Q =>
                        (fst sp, dget_default (snd sp) w 0%Q))
                     (emission_probs h)).
  destruct (max_by_snd_first_max scores) as (x & Hx & pre & post & Hl & Hp & Hq).
  { unfold scores; rewrite Et; discriminate. }
  rewrite Hx; cbn [bind]. exists (fst x); split; [reflexivity|].
  unfold first_argmax, scores in *.
  apply map_eq_app in Hl as (pre' & rest & -> & <- & Hrest).
  apply map_eq_cons in Hrest as ([s row] & post' & -> & <- & <-).
  exists pre', row, post'. split; [reflexivity|]. split.
  - intros e He. apply (Hp (fst e, dget_default (snd e) w 0%Q)).
    apply in_map_iff. eauto.
  - intros e He. apply (Hq (fst e, dget_default (snd e) w 0%Q)).
    apply in_map_iff. eauto.
Qed.

(** The loop of [naive_label_sequence] over the sequence. *)
Lemma naive_loop_labels h sq (acc : sequence) :
  emission_probs h <> [] ->
  exists labels,
    foldM (fun prediction (ws : word * state) =>
             if list_mem (snd ws) (end_states h) then Ok prediction
             else st <- _argmax_emission h (fst ws) ;;
                  Ok (prediction ++ [(fst ws, st)]))
          sq acc = Ok (acc ++ labels) /\
    Forall2 (fun ws lab => fst lab = fst ws /\ first_argmax h (fst ws) (snd lab))
            (filter (emitting h) sq) labels.
Proof.
  intros Hne. revert acc; induction sq as [|ws sq IH]; intros acc.
  - exists []. rewrite app_nil_r. split; [reflexivity | constructor].
  - cbn [foldM filter]. unfold emitting at 1.
    destruct (list_mem (snd ws) (end_states h)); cbn [negb bind].
    + apply IH.
    + destruct (argmax_emission_first h (fst ws) Hne) as (s & Hs & Hfirst).
      rewrite Hs; cbn [bind].
      destruct (IH (acc ++ [(fst ws, s)])) as (labels & Hl & Hall).
      exists ((fst ws, s) :: labels). rewrite Hl, <- app_assoc.
      split; [reflexivity|]. constructor; auto.
Qed.

(** C6.  With a non-empty emission table, the naive decoder returns START,
    one label per position whose state is not an end state, and STOP.  The
    label of a token is the first state, in the order of the emission
    table, whose raw entry for that exact token ([row.get(token, 0)], not
    the UNKNOWN-rerouted lookup) is greatest: earlier states score strictly
    less and later states score no more.  A row without the token scores 0.
    The result depends neither on the transition table nor on the training
    vocabulary. *)
Theorem naive_decoder_first_argmax h sq start stop :
  emission_probs h <> [] ->
  getitem (end_states h) 0 = Ok start ->
  getitem (end_states h) 1 = Ok stop ->
  (exists labels,
     naive_label_sequence h sq
     = Ok ((EmptyString, start) :: labels ++ [(EmptyString, stop)]) /\
     Forall2 (fun ws lab =>
                fst lab = fst ws /\ first_argmax h (fst ws) (snd lab))
             (filter (emitting h) sq) labels) /\
  (forall row w, dget row w = None -> raw_emission row w = 0%Q) /\
  (forall t tw,
     naive_label_sequence (set_training_words (set_transition_probs h t) tw) sq
     = naive_label_sequence h sq).
Proof.
  intros Hne Hstart Hstop. split; [|split].
  - unfold naive_label_sequence.
    destruct (emission_probs h) as [|e0 tbl] eqn:Et; [congruence|].
    cbn [is_empty]. rewrite Hstart; cbn [bind].
    destruct (naive_loop_labels h sq [(EmptyString, start)]) as (labels & Hl & Hall);
      [congruence|].
    exists labels. rewrite Hl; cbn [bind]. rewrite Hstop; cbn [bind].
    split; [reflexivity | assumption].
  - intros row w Hg. unfold raw_emission, dget_default. now rewrite Hg.
  - intros t tw. reflexivity.
Qed.

(** The statement at the model of [Example] and the sentence x x. *)
Lemma naive_decoder_first_argmax_witness :
  exists h labels,
    train Example.hmm0 Example.corpus = Ok h /\
    naive_label_sequence h Example.sentence
    = Ok ((EmptyString, "START"%string) :: labels
          ++ [(EmptyString, "STOP"%string)]) /\
    Forall2 (fun ws lab =>
               fst lab = fst ws /\ first_argmax h (fst ws) (snd lab))
            (filter (emitting h) Example.sentence) labels.
Proof.
  eexists.
  match goal with
  | |- exists labels, train ?h0 ?obs = Ok ?h /\ _ =>
      assert (Ht : train h0 obs = Ok h) by (vm_compute; reflexivity);
      destruct (naive_decoder_first_argmax h Example.sentence
                  "START"%string "STOP"%string)
        as ((labels & Hl & Hall) & _ & _);
        [simpl; discriminate | reflexivity | reflexivity |];
      exists labels
  end.
  repeat split; assumption.
Defined.

(** ** Viterbi on a sequence without tokens (claim C9) *)

Lemma get_emission_probability_no_row h s w :
  dmem (emission_probs h) s = false ->
  get_emission_probability h s w = Raise KeyError.
Proof.
  unfold dmem, get_emission_probability, dindex; intros Hs.
  destruct (dget (emission_probs h) s); [discriminate|].
  destruct (negb (dmem (training_words h) w)); reflexivity.
Qed.

Lemma list_mem_app_last (s : state) (l : list state) :
  list_mem s (l ++ [s]) = true.
Proof. apply list_mem_In, in_or_app. right; now left. Qed.

(** C9.  In a trained model whose interior states do not include STOP, the
    sequence made of the two sentinels only is not decoded: its single time
    step 1 is also the last one, so the step runs its base case with target
    STOP; the transition lookup START -> STOP returns, the emission lookup
    for STOP finds no row and raises [KeyError], and so do [viterbi] and the
    labelling built on it. *)
Theorem viterbi_no_tokens_fails h0 obs h start stop C :
  train h0 obs = Ok h ->
  getitem (end_states h0) 0 = Ok start ->
  getitem (end_states h0) 1 = Ok stop ->
  ~ In stop (states h0) ->
  let sq : sequence := [(EmptyString, start); (EmptyString, stop)] in
  (exists alpha, get_transition_probability h start stop = Ok alpha) /\
  (forall w, get_emission_probability h stop w = Raise KeyError) /\
  _dp_helper h 1 stop sq [(1, [])] C = Raise KeyError /\
  viterbi h sq C = Raise KeyError /\
  viterbi_label_sequence h sq C = Raise KeyError.
Proof.
  intros Ht Hstart Hstop Hnot sq.
  destruct (train_fields _ _ _ Ht) as (h1 & h3 & He & Htr & _ & Hs & Hes).
  assert (Hrow : dmem (emission_probs h) stop = false).
  { rewrite (estimate_emission_keys _ _ _ _ _ He).
    destruct (list_mem stop (states h0)) eqn:E; [|reflexivity].
    apply list_mem_In in E. contradiction. }
  assert (Hem : forall w, get_emission_probability h stop w = Raise KeyError).
  { intros w; now apply get_emission_probability_no_row. }
  assert (Hal : exists alpha, get_transition_probability h start stop = Ok alpha).
  { destruct (estimate_emission_object _ _ _ _ _ He) as [tw ->].
    destruct (estimate_transition_row _ _ _ _ start Htr) as (counts & Hr & _).
    - unfold source_states; simpl. unfold getitem in Hstart.
      destruct (end_states h0); [discriminate|].
      simpl in Hstart; inversion Hstart; now left.
    - rewrite (get_transition_probability_row _ _ _ _ Hr). eauto. }
  assert (Hdp : _dp_helper h 1 stop sq [(1, [])] C = Raise KeyError).
  { unfold _dp_helper. rewrite Hs, Hes, Hstop, Hstart.
    cbn [bind sq List.length Z.ltb Z.geb orb Z.of_nat Z.compare
         Pos.of_succ_nat Pos.succ Pos.compare Pos.compare_cont].
    rewrite list_mem_app_last. cbn [negb].
    change (getitem sq (Z.to_nat 1)) with (Ok (EmptyString, stop) : result (word * state)).
    cbn [bind Z.eqb Pos.eqb].
    destruct Hal as [alpha ->]; cbn [bind]. now rewrite Hem. }
  split; [assumption|]. split; [assumption|]. split; [assumption|].
  assert (Hv : viterbi h sq C = Raise KeyError).
  { unfold viterbi, _check_end_states. rewrite Hes, Hstart, Hstop.
    change (getitem sq 0) with (Ok (EmptyString, start) : result (word * state)).
    change (getitem sq (List.length sq - 1))
      with (Ok (EmptyString, stop) : result (word * state)).
    cbn [bind snd]. rewrite !keqb_refl. cbn [negb bind].
    change (range1 (List.length sq)) with [1].
    cbn [map foldM]. change (1 =? Z.of_nat (List.length sq) - 1) with true.
    cbn [bind]. rewrite Hdp. reflexivity. }
  split; [assumption|].
  unfold viterbi_label_sequence. now rewrite Hv.
Qed.

(** The statement at the model of [Example]. *)
Lemma viterbi_no_tokens_fails_witness :
  exists h,
    train Example.hmm0 Example.corpus = Ok h /\
    viterbi_label_sequence h [(EmptyString, "START"%string);
                              (EmptyString, "STOP"%string)]
      default_scaling_constant = Raise KeyError.
Proof.
  eexists.
  match goal with
  | |- train ?h0 ?obs = Ok ?h /\ _ =>
      assert (Ht : train h0 obs = Ok h) by (vm_compute; reflexivity);
      destruct (viterbi_no_tokens_fails h0 obs h "START"%string "STOP"%string
                  default_scaling_constant Ht eq_refl eq_refl)
        as (_ & _ & _ & _ & Hl)
  end.
  - simpl. intros [H|[H|[]]]; discriminate.
  - split; assumption.
Defined.

(** ** Two runs related step by step *)

Lemma result_rel_refl {A : Type} (r : result A) : result_rel eq r r.
Proof. destruct r; reflexivity. Qed.

Lemma result_rel_bind {A1 A2 B1 B2 : Type} (R : A1 -> A2 -> Prop)
    (S : B1 -> B2 -> Prop) m1 m2 (f1 : A1 -> result B1) (f2 : A2 -> result B2) :
  result_rel R m1 m2 ->
  (forall a1 a2, R a1 a2 -> result_rel S (f1 a1) (f2 a2)) ->
  result_rel S (bind m1 f1) (bind m2 f2).
Proof.
  destruct m1, m2; simpl; intros Hm Hf; try contradiction; auto.
Qed.

(** Binding the same computation on both sides. *)
Lemma result_rel_bind_same {A B1 B2 : Type} (S : B1 -> B2 -> Prop)
    (m : result A) (f1 : A -> result B1) (f2 : A -> result B2) :
  (forall a, result_rel S (f1 a) (f2 a)) ->
  result_rel S (bind m f1) (bind m f2).
Proof.
  intros Hf. apply (result_rel_bind eq); [apply result_rel_refl|].
  intros a1 a2 <-. apply Hf.
Qed.

Lemma result_rel_foldM {A1 A2 B : Type} (R : A1 -> A2 -> Prop)
    (f1 : A1 -> B -> result A1) (f2 : A2 -> B -> result A2) (l : list B) :
  (forall a1 a2 b, R a1 a2 -> result_rel R (f1 a1 b) (f2 a2 b)) ->
  forall a1 a2, R a1 a2 -> result_rel R (foldM f1 l a1) (foldM f2 l a2).
Proof.
  intros Hf; induction l as [|b l IH]; intros a1 a2 Ha; simpl; [assumption|].
  apply (result_rel_bind R); auto.
Qed.

Lemma result_rel_mapM {A B1 B2 : Type} (R : B1 -> B2 -> Prop)
    (f1 : A -> result B1) (f2 : A -> result B2) (l : list A) :
  (forall a, result_rel R (f1 a) (f2 a)) ->
  result_rel (Forall2 R) (mapM f1 l) (mapM f2 l).
Proof.
  intros Hf; induction l as [|a l IH]; simpl; [constructor|].
  apply (result_rel_bind R); [apply Hf|]. intros b1 b2 Hb.
  apply (result_rel_bind (Forall2 R)); [apply IH|]. intros l1 l2 Hl.
  simpl. constructor; assumption.
Qed.

Section DictRel.
Context {K : Type} `{EqKey K} {V1 V2 : Type}.
Variable R : K -> V1 -> V2 -> Prop.

Lemma dict_rel_dindex d1 d2 k :
  dict_rel R d1 d2 -> result_rel (R k) (dindex d1 k) (dindex d2 k).
Proof.
  unfold dindex; induction 1 as [|[k1 v1] [k2 v2] d1 d2 [Hk Hv] _ IH]; simpl.
  - reflexivity.
  - simpl in Hk, Hv; subst k2.
    destruct (keqb_spec k k1) as [->|Hne]; [exact Hv | exact IH].
Qed.

Lemma dict_rel_dset d1 d2 k v1 v2 :
  dict_rel R d1 d2 -> R k v1 v2 -> dict_rel R (dset d1 k v1) (dset d2 k v2).
Proof.
  intros Hd Hv; induction Hd as [|[k1 w1] [k2 w2] d1 d2 [Hk Hw] Hd IH]; simpl.
  - constructor; [split; [reflexivity | exact Hv] | constructor].
  - simpl in Hk, Hw; subst k2.
    destruct (keqb_spec k k1) as [->|Hne].
    + constructor; [split; [reflexivity | exact Hv] | exact Hd].
    + constructor; [split; [reflexivity | exact Hw] | exact IH].
Qed.
End DictRel.

(** ** Scaling the scores (claim C2) *)

Lemma Qlt_bool_scale (r x1 y1 x2 y2 : Q) :
  (0 < r)%Q -> (x2 == r * x1)%Q -> (y2 == r * y1)%Q ->
  Qlt_bool x2 y2 = Qlt_bool x1 y1.
Proof.
  intros Hr Hx Hy. apply eq_true_iff_eq. rewrite !Qlt_bool_iff.
  rewrite Hx, Hy. apply Qmult_lt_l; assumption.
Qed.

Lemma fold_keep_best_scale (r : Q) (l1 l2 : list node) (x1 x2 : node) :
  (0 < r)%Q -> node_rel r x1 x2 -> Forall2 (node_rel r) l1 l2 ->
  node_rel r (fold_left keep_best l1 x1) (fold_left keep_best l2 x2).
Proof.
  intros Hr Hx Hl; revert x1 x2 Hx.
  induction Hl as [|y1 y2 l1 l2 Hy _ IH]; intros x1 x2 Hx; simpl; [assumption|].
  apply IH. unfold keep_best.
  rewrite (Qlt_bool_scale r (snd x1) (snd y1) (snd x2) (snd y2) Hr
             (proj2 Hx) (proj2 Hy)).
  destruct (Qlt_bool (snd x1) (snd y1)); assumption.
Qed.

Lemma max_by_snd_scale (r : Q) (l1 l2 : list node) :
  (0 < r)%Q -> Forall2 (node_rel r) l1 l2 ->
  result_rel (node_rel r) (max_by_snd l1) (max_by_snd l2).
Proof.
  intros Hr Hl; destruct Hl as [|x1 x2 l1 l2 Hx Hl]; simpl; [reflexivity|].
  now apply fold_keep_best_scale.
Qed.

Section Scaling.
Variables (h : HMM) (C1 C2 : Q).
Hypothesis HC1 : (0 < C1)%Q.
Hypothesis HC2 : (0 < C2)%Q.

Local Abbreviation rho := (scale_ratio C1 C2).

Lemma C1_nonzero : ~ (C1 == 0)%Q.
Proof. intros Hz. rewrite Hz in HC1. exact (Qlt_irrefl 0 HC1). Qed.

Lemma rho_pos : (0 < rho)%Q.
Proof.
  unfold scale_ratio, Qdiv. apply Qmult_lt_0_compat; [assumption|].
  now apply Qinv_lt_0_compat.
Qed.

Lemma rho_nonzero : ~ (rho == 0)%Q.
Proof.
  intros Hz. pose proof rho_pos as Hp. rewrite Hz in Hp.
  exact (Qlt_irrefl 0 Hp).
Qed.

Lemma rho_power_pos i : (0 < rho ^ i)%Q.
Proof. apply Qpower_0_lt, rho_pos. Qed.

Lemma rho_power_step i : (rho ^ i == rho ^ (i - 1) * rho)%Q.
Proof.
  replace i with ((i - 1) + 1) at 1 by lia.
  rewrite Qpower_plus by exact rho_nonzero. now rewrite Qpower_1_r.
Qed.

Lemma scale_base (alpha beta : Q) :
  (alpha * beta * C2 == rho ^ 1 * (alpha * beta * C1))%Q.
Proof.
  rewrite Qpower_1_r. unfold scale_ratio. field. exact C1_nonzero.
Qed.

Lemma scale_step i (prev1 prev2 alpha beta : Q) :
  (prev2 == rho ^ (i - 1) * prev1)%Q ->
  (prev2 * alpha * beta * C2 == rho ^ i * (prev1 * alpha * beta * C1))%Q.
Proof.
  intros ->. rewrite (rho_power_step i).
  generalize (rho ^ (i - 1))%Q; intros r.
  unfold scale_ratio. field. exact C1_nonzero.
Qed.

Lemma graph_set_scale g1 g2 i s n1 n2 :
  graph_rel rho g1 g2 -> node_rel (rho ^ i) n1 n2 ->
  result_rel (graph_rel rho) (graph_set g1 i s n1) (graph_set g2 i s n2).
Proof.
  intros Hg Hn. unfold graph_set.
  apply (result_rel_bind (row_rel rho i)); [now apply dict_rel_dindex|].
  intros row1 row2 Hrow. simpl.
  apply dict_rel_dset; [assumption|].
  unfold row_rel. now apply dict_rel_dset.
Qed.

(** One call of the step on related graphs gives related graphs, or the
    same exception. *)
Lemma dp_helper_scale iteration curr_state sq g1 g2 :
  graph_rel rho g1 g2 ->
  result_rel (graph_rel rho) (_dp_helper h iteration curr_state sq g1 C1)
                       (_dp_helper h iteration curr_state sq g2 C2).
Proof.
  intros Hg. unfold _dp_helper.
  destruct ((iteration <? 1) || (iteration >=? Z.of_nat (List.length sq)));
    [reflexivity|].
  apply result_rel_bind_same; intros stop.
  destruct (negb (list_mem curr_state (states h ++ [stop]))); [reflexivity|].
  apply result_rel_bind_same; intros ws.
  destruct (Z.eqb_spec iteration 1) as [->|Hne].
  - apply result_rel_bind_same; intros start.
    apply result_rel_bind_same; intros alpha.
    apply result_rel_bind_same; intros beta.
    apply graph_set_scale; [assumption|]. split; [reflexivity|].
    cbn [snd]. apply scale_base.
  - apply (result_rel_bind (Forall2 (node_rel (rho ^ iteration)))).
    + apply result_rel_mapM. intros prev_state.
      apply (result_rel_bind (row_rel rho (iteration - 1)));
        [now apply dict_rel_dindex|].
      intros row1 row2 Hrow.
      apply (result_rel_bind (node_rel (rho ^ (iteration - 1))));
        [exact (dict_rel_dindex _ _ _ prev_state Hrow)|].
      intros prev1 prev2 [_ Hprev].
      apply result_rel_bind_same; intros alpha.
      apply result_rel_bind_same; intros beta.
      split; [reflexivity|]. cbn [snd].
      now apply scale_step.
    + intros l1 l2 Hl.
      apply (result_rel_bind (node_rel (rho ^ iteration))).
      * apply max_by_snd_scale; [apply rho_power_pos | assumption].
      * intros best1 best2 Hbest. now apply graph_set_scale.
Qed.

Lemma graph_rel_init (keys : list Z) :
  graph_rel rho (map (fun i => (i, [])) keys) (map (fun i => (i, [])) keys).
Proof.
  induction keys as [|i keys IH]; simpl; constructor; [|exact IH].
  split; [reflexivity | constructor].
Qed.

Lemma viterbi_scale sq :
  result_rel (graph_rel rho) (viterbi h sq C1) (viterbi h sq C2).
Proof.
  unfold viterbi. apply result_rel_bind_same; intros _.
  apply result_rel_foldM; [|apply graph_rel_init].
  intros g1 g2 iteration Hg.
  destruct (iteration =? Z.of_nat (List.length sq) - 1).
  - apply result_rel_bind_same; intros stop. now apply dp_helper_scale.
  - apply result_rel_foldM; [|assumption].
    intros g1' g2' st Hg'. now apply dp_helper_scale.
Qed.

(** The backtrace reads predecessors only. *)
Lemma backtrace_step_scale sq g1 g2 labelled i :
  graph_rel rho g1 g2 ->
  backtrace_step sq g1 labelled i = backtrace_step sq g2 labelled i.
Proof.
  intros Hg. unfold backtrace_step.
  destruct (getitem sq i) as [ws|]; cbn [bind]; [|reflexivity].
  destruct (getitem labelled 0) as [child|]; cbn [bind]; [|reflexivity].
  pose proof (dict_rel_dindex _ _ _ (Z.of_nat i + 1) Hg) as Hrow.
  destruct (dindex g1 (Z.of_nat i + 1)) as [row1|e1],
           (dindex g2 (Z.of_nat i + 1)) as [row2|e2];
    simpl in Hrow; try contradiction; cbn [bind]; [|now subst].
  pose proof (dict_rel_dindex _ _ _ (snd child) Hrow) as Hn.
  destruct (dindex row1 (snd child)) as [n1|e1],
           (dindex row2 (snd child)) as [n2|e2];
    simpl in Hn; try contradiction; cbn [bind]; [|now subst].
  destruct Hn as [-> _]. reflexivity.
Qed.

Lemma backtrace_scale sq g1 g2 (steps : list nat) labelled :
  graph_rel rho g1 g2 ->
  foldM (backtrace_step sq g1) steps labelled
  = foldM (backtrace_step sq g2) steps labelled.
Proof.
  intros Hg; revert labelled; induction steps as [|i steps IH];
    intros labelled; simpl; [reflexivity|].
  rewrite (backtrace_step_scale sq g1 g2 labelled i Hg).
  destruct (backtrace_step sq g2 labelled i); cbn [bind]; auto.
Qed.

Lemma viterbi_label_sequence_scale sq :
  viterbi_label_sequence h sq C1 = viterbi_label_sequence h sq C2.
Proof.
  unfold viterbi_label_sequence. pose proof (viterbi_scale sq) as Hv.
  destruct (viterbi h sq C1) as [g1|e1], (viterbi h sq C2) as [g2|e2];
    simpl in Hv; try contradiction; cbn [bind]; [|now subst].
  destruct (getitem (end_states h) 1); cbn [bind]; [|reflexivity].
  now apply backtrace_scale.
Qed.
End Scaling.

Lemma dict_map_cons {K V V' : Type} (g : V -> V') (k : K) (v : V) (d : dict K V) :
  dict_map g ((k, v) :: d) = (k, g v) :: dict_map g d.
Proof. reflexivity. Qed.

Lemma row_rel_backpointers rho i (row1 row2 : dict state node) :
  row_rel rho i row1 row2 -> dict_map fst row1 = dict_map fst row2.
Proof.
  unfold row_rel, dict_rel.
  induction 1 as [|[s1 n1] [s2 n2] row1 row2 [Hk [Hn _]] _ IH];
    [reflexivity|].
  simpl in Hk, Hn. rewrite !dict_map_cons. now rewrite Hk, Hn, IH.
Qed.

Lemma graph_rel_backpointers rho (g1 g2 : graph) :
  graph_rel rho g1 g2 -> backpointers g1 = backpointers g2.
Proof.
  unfold graph_rel, dict_rel, backpointers.
  induction 1 as [|[i1 row1] [i2 row2] g1 g2 [Hk Hrow] _ IH];
    [reflexivity|].
  simpl in Hk, Hrow. rewrite !dict_map_cons, Hk, IH.
  now rewrite (row_rel_backpointers _ _ _ _ Hrow).
Qed.




(** * Further properties of the code *)

(** ** Loops that return *)

Lemma foldM_Ok_intro {A B : Type} (f : A -> B -> result A) (I : A -> Prop)
    (G : B -> Prop) :
  (forall a b, I a -> G b -> exists a', f a b = Ok a' /\ I a') ->
  forall l a, I a -> Forall G l -> exists a', foldM f l a = Ok a' /\ I a'.
Proof.
  intros Hstep l; induction l as [|b l IH]; intros a Ha Hl; simpl.
  - eauto.
  - inversion Hl; subst.
    destruct (Hstep a b Ha) as (a1 & Hfb & Ha1); [assumption|].
    rewrite Hfb; cbn [bind]. now apply IH.
Qed.

Lemma foldM_Ok_elim {A B : Type} (f : A -> B -> result A) (I : A -> Prop)
    (G : B -> Prop) :
  (forall a b a', I a -> f a b = Ok a' -> G b /\ I a') ->
  forall l a a', I a -> foldM f l a = Ok a' -> Forall G l /\ I a'.
Proof.
  intros Hstep l; induction l as [|b l IH]; intros a a' Ha Hf; simpl in Hf.
  - inversion Hf; subst. split; [constructor | assumption].
  - inv_bind Hf. destruct (Hstep _ _ _ Ha Ha0) as [Hb Ha1].
    destruct (IH _ _ Ha1 Hf) as [Hl Ha']. split; [constructor|]; assumption.
Qed.

(** ** The boundary check, exactly *)

(** With START and STOP configured, [_check_end_states] returns [True]
    exactly on the sequences that start with a START pair and end with a
    STOP pair; it raises [IndexError] on the empty sequence and never
    returns [False]. *)
Theorem check_end_states_exact h sq start stop :
  getitem (end_states h) 0 = Ok start ->
  getitem (end_states h) 1 = Ok stop ->
  (_check_end_states h sq = Ok true <-> bounded_by start stop sq) /\
  (sq = [] -> _check_end_states h sq = Raise IndexError) /\
  _check_end_states h sq <> Ok false.
Proof.
  intros Hstart Hstop. unfold _check_end_states, bounded_by.
  destruct sq as [|first rest].
  - split; [|split]; [|reflexivity|discriminate].
    split; [discriminate|]. intros (f & Hf & _); discriminate.
  - change (getitem (first :: rest) 0) with (Ok first); cbn [bind].
    rewrite Hstart; cbn [bind].
    rewrite (getitem_last (first :: rest) first) by discriminate.
    destruct (keqb_spec (snd first) start) as [Heq|Hne]; cbn [negb bind].
    + rewrite Hstop; cbn [bind].
      destruct (keqb_spec (snd (last (first :: rest) first)) stop)
        as [Heq'|Hne']; cbn [negb].
      * split; [|split]; [|discriminate|discriminate].
        split; [intros _; exists first; auto | reflexivity].
      * split; [|split]; [|discriminate|discriminate].
        split; [discriminate|].
        intros (f & Hf & _ & Hl). simpl in Hf; inversion Hf; subst f.
        contradiction.
    + split; [|split]; [|discriminate|discriminate].
      split; [discriminate|].
      intros (f & Hf & Hs & _). simpl in Hf; inversion Hf; subst f.
      contradiction.
Qed.

(** The statement at the model of [Example] and its test sentence. *)
Lemma check_end_states_exact_witness :
  _check_end_states Example.hmm0 Example.sentence = Ok true /\
  bounded_by "START" "STOP" Example.sentence.
Proof.
  destruct (check_end_states_exact Example.hmm0 Example.sentence
              "START"%string "STOP"%string eq_refl eq_refl) as [Hiff _].
  split; [reflexivity|]. apply Hiff. reflexivity.
Defined.

(** ** The keys of the trained tables *)

Section KeyOrder.
Context {V : Type}.
Implicit Types (d : dict state V).

Lemma dmem_list_mem d k : dmem d k = list_mem k (dkeys d).
Proof.
  apply eq_true_iff_eq. now rewrite dmem_keys, list_mem_In.
Qed.

Lemma dkeys_dset d k (v : V) :
  dkeys (dset d k v) = if list_mem k (dkeys d) then dkeys d else dkeys d ++ [k].
Proof.
  rewrite <- dmem_list_mem. destruct (dmem d k) eqn:E.
  - now apply dkeys_dset_present.
  - rewrite dset_absent by assumption. unfold dkeys. now rewrite map_app.
Qed.

Lemma In_dget d k (v : V) :
  NoDup (dkeys d) -> In (k, v) d -> dget d k = Some v.
Proof.
  induction d as [|[k0 v0] d IH]; intros Hnd Hin; [destruct Hin|].
  simpl in Hnd; inversion Hnd as [|? ? Hnot Hnd']; subst.
  cbn [dget]. destruct Hin as [Heq|Hin].
  - inversion Heq; subst. now rewrite keqb_refl.
  - destruct (keqb_spec k k0) as [->|Hne]; [|now apply IH].
    exfalso; apply Hnot. change k0 with (fst (k0, v)). now apply in_map.
Qed.

Lemma dget_In d k (v : V) : dget d k = Some v -> In (k, v) d.
Proof.
  induction d as [|[k0 v0] d IH]; cbn [dget]; [discriminate|].
  destruct (keqb_spec k k0) as [->|Hne].
  - intros Hv; inversion Hv; now left.
  - intros Hv; right; now apply IH.
Qed.
End KeyOrder.

Lemma dedup_fold_In (l acc : list state) x :
  In x (fold_left dedup_step l acc) <-> In x acc \/ In x l.
Proof.
  revert acc; induction l as [|y l IH]; intros acc; simpl; [tauto|].
  rewrite IH. unfold dedup_step.
  destruct (list_mem y acc) eqn:E.
  - apply list_mem_In in E. split; [tauto|].
    intros [H|[<-|H]]; tauto.
  - rewrite in_app_iff; simpl. tauto.
Qed.

Lemma dedup_fold_NoDup (l acc : list state) :
  NoDup acc -> NoDup (fold_left dedup_step l acc).
Proof.
  revert acc; induction l as [|y l IH]; intros acc Hnd; simpl; [assumption|].
  apply IH. unfold dedup_step. destruct (list_mem y acc) eqn:E; [assumption|].
  apply NoDup_app; [assumption | constructor; [intros [] | constructor] |].
  intros x Hx [<-|[]]. apply list_mem_In in Hx. congruence.
Qed.

Lemma dedup_fold_id (l acc : list state) :
  NoDup (acc ++ l) -> fold_left dedup_step l acc = acc ++ l.
Proof.
  revert acc; induction l as [|y l IH]; intros acc Hnd; simpl.
  - now rewrite app_nil_r.
  - unfold dedup_step. destruct (list_mem y acc) eqn:E.
    + apply list_mem_In in E. apply NoDup_remove_2 in Hnd.
      exfalso; apply Hnd. apply in_or_app; now left.
    + rewrite IH; rewrite <- app_assoc; [reflexivity | assumption].
Qed.

Lemma In_dedup (l : list state) x : In x (dedup l) <-> In x l.
Proof. unfold dedup. rewrite dedup_fold_In. simpl; tauto. Qed.

Lemma NoDup_dedup (l : list state) : NoDup (dedup l).
Proof. apply dedup_fold_NoDup; constructor. Qed.

Lemma dedup_NoDup (l : list state) : NoDup l -> dedup l = l.
Proof. intros Hnd. unfold dedup. now rewrite dedup_fold_id. Qed.

Lemma dkeys_fill {V : Type} (sts : list state) (d : dict state (dict string V)) :
  dkeys (fold_left (fun d st => dset d st []) sts d)
  = fold_left dedup_step sts (dkeys d).
Proof.
  revert d; induction sts as [|st sts IH]; intros d; simpl; [reflexivity|].
  rewrite IH, dkeys_dset. reflexivity.
Qed.

Lemma dkeys_empty_rows (sts : list state) : dkeys (empty_rows sts) = dedup sts.
Proof. exact (dkeys_fill (V := Z) sts []). Qed.

Lemma estimate_emission_dkeys h obs k h' tbl :
  estimate_emission h obs k = Ok (h', tbl) -> dkeys tbl = dedup (states h).
Proof.
  unfold estimate_emission; intros He.
  fold (empty_rows (states h)) in He.
  inv_bind He. destruct a as [tw cnts]. inv_bind He. inversion He; subst; clear He.
  pose proof (emission_loop_keys h _ _ _ Ha) as Hk; cbn [snd] in Hk.
  apply dict_mapM_keys in Ha0. now rewrite Ha0, Hk, dkeys_empty_rows.
Qed.

Lemma estimate_transition_dkeys h obs h' tbl :
  estimate_transition h obs = Ok (h', tbl) ->
  exists start, getitem (end_states h) 0 = Ok start /\
                dkeys tbl = dedup (start :: states h) /\
                dkeys (_transition_cnts h') = dedup (start :: states h).
Proof.
  unfold estimate_transition; intros He.
  inv_bind He. rename a into start.
  fold (empty_rows (start :: states h)) in He.
  inv_bind He. inv_bind He. inversion He; subst; clear He.
  pose proof (transition_loop_keys h _ _ _ Ha0) as Hk.
  apply dict_mapM_keys in Ha1. exists start.
  split; [assumption|]. cbn [_transition_cnts set_transition_cnts].
  now rewrite Ha1, Hk, dkeys_empty_rows.
Qed.

(** The rows of the trained tables are keyed by the states in the order of
    their first occurrence in the list given at construction: the interior
    states for the emission table, START followed by the interior states for
    the transition table.  No key occurs twice, and when the configured
    states are pairwise distinct the keys are exactly those lists. *)
Theorem trained_tables_keys h obs h' :
  train h obs = Ok h' ->
  exists start,
    getitem (end_states h) 0 = Ok start /\
    dkeys (emission_probs h') = dedup (states h) /\
    dkeys (transition_probs h') = dedup (start :: states h) /\
    NoDup (dkeys (emission_probs h')) /\
    NoDup (dkeys (transition_probs h')) /\
    (NoDup (start :: states h) ->
     dkeys (emission_probs h') = states h /\
     dkeys (transition_probs h') = start :: states h).
Proof.
  intros Ht.
  destruct (train_fields _ _ _ Ht) as (h1 & h3 & He & Htr & _ & _ & _).
  destruct (estimate_emission_object _ _ _ _ _ He) as [tw ->].
  apply estimate_emission_dkeys in He.
  destruct (estimate_transition_dkeys _ _ _ _ Htr) as (start & Hs & Hk & _).
  cbn [end_states states set_emission_probs set_training_words] in Hs, Hk.
  exists start. rewrite He, Hk.
  split; [assumption|]. split; [reflexivity|]. split; [reflexivity|].
  split; [apply NoDup_dedup|]. split; [apply NoDup_dedup|].
  intros Hnd. split; apply dedup_NoDup; [|assumption].
  now inversion Hnd.
Qed.

(** The statement at the model of [Example]. *)
Lemma trained_tables_keys_witness :
  exists h',
    train Example.hmm0 Example.corpus = Ok h' /\
    dkeys (emission_probs h') = ["A"; "B"]%string /\
    dkeys (transition_probs h') = ["START"; "A"; "B"]%string.
Proof.
  eexists.
  match goal with
  | |- train ?h ?obs = Ok ?h' /\ _ =>
      assert (Ht : train h obs = Ok h') by (vm_compute; reflexivity);
      destruct (trained_tables_keys h obs h' Ht)
        as (start & Hs & _ & _ & _ & _ & Hexact)
  end.
  split; [assumption|].
  vm_compute in Hs. inversion Hs; subst start.
  apply Hexact.
  repeat constructor; simpl; intuition discriminate.
Defined.

(** ** When the emission estimator returns *)

Lemma check_end_states_true h sq b : _check_end_states h sq = Ok b -> b = true.
Proof.
  unfold _check_end_states; intros Hc.
  inv_bind Hc. inv_bind Hc.
  destruct (negb (keqb (snd a) a0)); [discriminate|].
  inv_bind Hc. inv_bind Hc.
  destruct (negb (keqb (snd a1) a2)); [discriminate|].
  now inversion Hc.
Qed.

Lemma emission_step_valid h (a : emission_acc) ws :
  rows_for h a -> valid_label h ws = true ->
  exists a', emission_count_step h a ws = Ok a' /\ rows_for h a'.
Proof.
  intros Hrows Hv. destruct a as [tw cnts], ws as [w st].
  unfold valid_label in Hv; cbn [snd] in Hv.
  unfold emission_count_step.
  destruct (list_mem st (end_states h)) eqn:Ee; [eauto|].
  cbn [orb] in Hv. rewrite Hv; cbn [negb].
  rewrite count_one_eq; cbn [bind].
  pose proof (Hrows st Hv) as Hm; cbn [snd] in Hm.
  unfold dindex. unfold dmem in Hm.
  destruct (dget cnts st) as [row|] eqn:Eg; [|discriminate]. cbn [bind].
  rewrite count_one_eq; cbn [bind]. eexists; split; [reflexivity|].
  intros s Hs; cbn [snd]. rewrite dmem_dset.
  specialize (Hrows s Hs); cbn [snd] in Hrows. now rewrite Hrows.
Qed.

Lemma emission_step_Ok_valid h (a : emission_acc) ws (a' : emission_acc) :
  rows_for h a -> emission_count_step h a ws = Ok a' ->
  valid_label h ws = true /\ rows_for h a'.
Proof.
  intros Hrows Hs. split.
  - destruct a as [tw cnts], ws as [w st].
    unfold emission_count_step in Hs. unfold valid_label; cbn [snd].
    destruct (list_mem st (end_states h)); [reflexivity|].
    destruct (list_mem st (states h)); [reflexivity | discriminate].
  - intros s Hin. apply dmem_keys.
    rewrite (emission_step_keys h _ _ _ Hs). apply dmem_keys. now apply Hrows.
Qed.

Lemma emission_deque_countable h (a : emission_acc) sq :
  rows_for h a -> countable h sq ->
  exists a', emission_count_deque h a sq = Ok a' /\ rows_for h a'.
Proof.
  intros Hrows [Hc Hv]. unfold emission_count_deque. rewrite Hc; cbn [bind].
  apply (foldM_Ok_intro (emission_count_step h) (rows_for h)
           (fun ws => valid_label h ws = true)); try assumption.
  intros; now apply emission_step_valid.
Qed.

Lemma emission_deque_Ok_countable h (a : emission_acc) sq (a' : emission_acc) :
  rows_for h a -> emission_count_deque h a sq = Ok a' ->
  countable h sq /\ rows_for h a'.
Proof.
  intros Hrows Hd. unfold emission_count_deque in Hd. inv_bind Hd.
  apply check_end_states_true in Ha as Hb; subst a0.
  destruct (foldM_Ok_elim (emission_count_step h) (rows_for h)
              (fun ws => valid_label h ws = true)
              (emission_step_Ok_valid h) sq a a' Hrows Hd) as [Hv Hr].
  split; [split|]; assumption.
Qed.

Lemma rows_for_empty h (tw : dict word Z) :
  rows_for h (tw, empty_rows (states h)).
Proof.
  intros s Hs; cbn [snd]. now rewrite empty_rows_mem.
Qed.

Lemma dict_mapM_defined {K V V' : Type} (f : V -> result V') (d : dict K V) :
  (forall v, In v (dvalues d) -> exists v', f v = Ok v') ->
  exists d', dict_mapM f d = Ok d'.
Proof.
  unfold dict_mapM; induction d as [|[k v] d IH]; intros Hf; simpl; [eauto|].
  destruct (Hf v) as [v' Hv]; [now left|]. rewrite Hv; cbn [bind].
  destruct IH as [d' Hd]; [intros u Hu; apply Hf; now right|].
  rewrite Hd; cbn [bind]. eauto.
Qed.

Lemma emission_row_defined k counts :
  sum_values counts + k <> 0 -> emission_row k counts = Ok (mle_row k counts).
Proof.
  intros Hnz; unfold emission_row, mle_row.
  rewrite (dict_mapM_total _
             (fun c => (inject_Z c / inject_Z (sum_values counts + k))%Q)).
  - cbn [bind]. unfold _calculate_emission_mle.
    destruct (Z.eqb_spec (sum_values counts + k) 0); [contradiction | reflexivity].
  - intros v _. unfold _calculate_emission_mle.
    destruct (Z.eqb_spec (sum_values counts + k) 0); [contradiction | reflexivity].
Qed.

(** The rows of the counts table after the loops of [estimate_emission]:
    one per interior state, holding as many counts as the state emits. *)
Lemma emission_loop_rows h obs tw tw' cnts s row :
  foldM (emission_count_deque h) obs (tw, empty_rows (states h))
    = Ok (tw', cnts) ->
  In (s, row) cnts ->
  In s (states h) /\ sum_values row = state_count h obs s.
Proof.
  intros Hloop Hin.
  pose proof (emission_loop_keys h _ _ _ Hloop) as Hk; cbn [snd] in Hk.
  rewrite dkeys_empty_rows in Hk.
  assert (Hs : In s (states h)).
  { apply In_dedup. rewrite <- Hk. change s with (fst (s, row)).
    now apply in_map. }
  split; [assumption|].
  assert (Hg : dget cnts s = Some row).
  { apply In_dget; [|assumption]. rewrite Hk. apply NoDup_dedup. }
  pose proof (emission_loop_total h _ _ _ Hloop s) as Ht; cbn [snd] in Ht.
  unfold row_total in Ht. rewrite Hg, (empty_rows_get _ _ Hs) in Ht.
  rewrite Ht. unfold sum_values; simpl; lia.
Qed.

Lemma estimate_emission_eq h obs k :
  estimate_emission h obs k
  = (a <- foldM (emission_count_deque h) obs
            (training_words h, empty_rows (states h)) ;;
     tbl <- dict_mapM (emission_row k) (snd a) ;;
     Ok (set_training_words h (fst a), tbl)).
Proof.
  unfold estimate_emission, empty_rows.
  destruct (foldM _ obs _) as [[tw cnts]|e]; reflexivity.
Qed.

Lemma estimate_emission_Ok_iff h obs k :
  ((exists r, estimate_emission h obs k = Ok r) <->
   (Forall (countable h) obs /\
    forall s, In s (states h) -> state_count h obs s + k <> 0)) /\
  (0 < k ->
   ((exists r, estimate_emission h obs k = Ok r) <-> Forall (countable h) obs)).
Proof.
  assert (Hiff : (exists r, estimate_emission h obs k = Ok r) <->
                 (Forall (countable h) obs /\
                  forall s, In s (states h) -> state_count h obs s + k <> 0)).
  { split.
    - intros [[h' tbl] He]. split.
      + rewrite estimate_emission_eq in He. inv_bind He.
        apply (foldM_Ok_elim (emission_count_deque h) (rows_for h)
                 (countable h) (emission_deque_Ok_countable h) obs _ _
                 (rows_for_empty h _) Ha).
      + intros s Hs.
        destruct (estimate_emission_row _ _ _ _ _ _ He Hs)
          as (counts & _ & Hnz & _ & Hsum & _).
        now rewrite <- Hsum.
    - intros [Hall Hnz]. rewrite estimate_emission_eq.
      destruct (foldM_Ok_intro (emission_count_deque h) (rows_for h)
                  (countable h) (emission_deque_countable h) obs
                  (training_words h, empty_rows (states h))
                  (rows_for_empty h _) Hall) as ([tw cnts] & Hloop & _).
      rewrite Hloop; cbn [bind snd fst].
      destruct (dict_mapM_defined (emission_row k) cnts) as [tbl Htbl].
      + intros row Hrow. apply in_map_iff in Hrow as ([s row'] & <- & Hin).
        destruct (emission_loop_rows _ _ _ _ _ _ _ Hloop Hin) as [Hs Hsum].
        exists (mle_row k row'). apply emission_row_defined.
        cbn [snd]. rewrite Hsum. now apply Hnz.
      + rewrite Htbl; cbn [bind]. eauto. }
  split; [exact Hiff|].
  intros Hk. rewrite Hiff. split; [tauto|].
  intros Hall; split; [assumption|].
  intros s _. pose proof (count_if_nonneg
    (fun ws => emitting h ws && keqb (snd ws) s) (List.concat obs)).
  unfold state_count. lia.
Qed.

(** [estimate_emission] returns exactly when every sequence of the corpus
    passes the boundary check and carries only end states and interior
    states, and no interior state has a zero denominator C + k.  With a
    positive smoothing constant the second condition always holds. *)
Theorem estimate_emission_returns_iff h obs k :
  ((exists r, estimate_emission h obs k = Ok r) <->
   (Forall (countable h) obs /\
    forall s, In s (states h) -> state_count h obs s + k <> 0)) /\
  (0 < k ->
   ((exists r, estimate_emission h obs k = Ok r) <-> Forall (countable h) obs)).
Proof. exact (estimate_emission_Ok_iff h obs k). Qed.

(** The statement at the model of [Example], with the default constant. *)
Lemma estimate_emission_returns_iff_witness :
  (exists r, estimate_emission Example.hmm0 Example.corpus 1 = Ok r) /\
  Forall (countable Example.hmm0) Example.corpus.
Proof.
  destruct (estimate_emission_returns_iff Example.hmm0 Example.corpus 1)
    as [_ Hiff].
  specialize (Hiff eq_refl).
  assert (He : exists r, estimate_emission Example.hmm0 Example.corpus 1 = Ok r)
    by (eexists; vm_compute; reflexivity).
  split; [assumption | now apply Hiff].
Defined.

(** ** When the transition estimator returns *)

Lemma transition_count_deque_eq h cnts sq :
  transition_count_deque h cnts sq
  = (_ <- _check_end_states h sq ;; foldM bump_pair (adjacent sq) cnts).
Proof.
  unfold transition_count_deque.
  destruct (_check_end_states h sq); cbn [bind]; [|reflexivity].
  destruct sq as [|first rest]; [reflexivity|].
  apply transition_count_from_adjacent.
Qed.

Lemma bump_defined cnts s t :
  dmem cnts s = true -> exists cnts', bump cnts s t = Ok cnts'.
Proof.
  unfold bump, dindex, dmem; intros Hm.
  destruct (dget cnts s) as [row|]; [|discriminate]. cbn [bind].
  rewrite count_one_eq; cbn [bind]. eauto.
Qed.

Lemma bump_Ok_mem cnts s t cnts' :
  bump cnts s t = Ok cnts' -> dmem cnts s = true.
Proof.
  unfold bump, dindex, dmem; intros Hb.
  destruct (dget cnts s); [reflexivity | discriminate].
Qed.

Lemma keyed_by_bump sts cnts s t cnts' :
  keyed_by sts cnts -> bump cnts s t = Ok cnts' -> keyed_by sts cnts'.
Proof.
  intros Hk Hb u. rewrite <- Hk. apply eq_true_iff_eq.
  rewrite !dmem_keys. now rewrite (bump_keys _ _ _ _ Hb).
Qed.

Lemma bump_pair_valid sts cnts p :
  keyed_by sts cnts -> list_mem (fst p) sts = true ->
  exists cnts', bump_pair cnts p = Ok cnts' /\ keyed_by sts cnts'.
Proof.
  intros Hk Hp. unfold bump_pair.
  destruct (bump_defined cnts (fst p) (snd p)) as [cnts' Hb];
    [now rewrite Hk|].
  exists cnts'; split; [assumption|]. eapply keyed_by_bump; eauto.
Qed.

Lemma bump_pair_Ok_valid sts cnts p cnts' :
  keyed_by sts cnts -> bump_pair cnts p = Ok cnts' ->
  list_mem (fst p) sts = true /\ keyed_by sts cnts'.
Proof.
  intros Hk Hb. unfold bump_pair in Hb. split.
  - rewrite <- Hk. eapply bump_Ok_mem; eauto.
  - eapply keyed_by_bump; eauto.
Qed.

Lemma transition_deque_chainable h start cnts sq :
  keyed_by (start :: states h) cnts -> chainable h start sq ->
  exists cnts', transition_count_deque h cnts sq = Ok cnts' /\
                keyed_by (start :: states h) cnts'.
Proof.
  intros Hk [Hc Hv]. rewrite transition_count_deque_eq, Hc; cbn [bind].
  apply (foldM_Ok_intro bump_pair (keyed_by (start :: states h))
           (fun p => list_mem (fst p) (start :: states h) = true));
    try assumption.
  intros; now apply bump_pair_valid.
Qed.

Lemma transition_deque_Ok_chainable h start cnts sq cnts' :
  keyed_by (start :: states h) cnts ->
  transition_count_deque h cnts sq = Ok cnts' ->
  chainable h start sq /\ keyed_by (start :: states h) cnts'.
Proof.
  intros Hk Hd. rewrite transition_count_deque_eq in Hd. inv_bind Hd.
  apply check_end_states_true in Ha as Hb; subst a.
  destruct (foldM_Ok_elim bump_pair (keyed_by (start :: states h))
              (fun p => list_mem (fst p) (start :: states h) = true)
              (bump_pair_Ok_valid (start :: states h))
              (adjacent sq) cnts cnts' Hk Hd) as [Hv Hr].
  split; [split|]; assumption.
Qed.

Lemma keyed_by_empty sts : keyed_by sts (empty_rows sts).
Proof. intros s. apply empty_rows_mem. Qed.

Lemma transition_row_defined counts :
  counts = [] \/ sum_values counts <> 0 ->
  transition_row counts = Ok (ratio_row counts).
Proof.
  intros Hc. unfold transition_row, ratio_row.
  destruct Hc as [->|Hnz]; [reflexivity|].
  apply (dict_mapM_total _
           (fun n => (inject_Z n / inject_Z (sum_values counts))%Q)).
  intros v _. unfold _calculate_transition_mle.
  destruct (Z.eqb_spec (sum_values counts) 0); [contradiction | reflexivity].
Qed.

(** The rows of the counts table after the loop of [estimate_transition]:
    a row that is not empty has a positive total. *)
Lemma transition_loop_rows h obs start cnts s row :
  foldM (transition_count_deque h) obs (empty_rows (start :: states h))
    = Ok cnts ->
  In (s, row) cnts ->
  row = [] \/ sum_values row <> 0.
Proof.
  intros Hloop Hin.
  pose proof (transition_loop_keys h _ _ _ Hloop) as Hk.
  rewrite dkeys_empty_rows in Hk.
  assert (Hs : In s (start :: states h)).
  { apply In_dedup. rewrite <- Hk. change s with (fst (s, row)).
    now apply in_map. }
  assert (Hg : dget cnts s = Some row).
  { apply In_dget; [|assumption]. rewrite Hk. apply NoDup_dedup. }
  destruct row as [|[t n] row]; [now left|]. right.
  pose proof (transition_loop_total h _ _ _ Hloop s) as Ht.
  pose proof (transition_loop_mem h _ _ _ Hloop s t) as Hm.
  unfold row_total in Ht. unfold row_mem in Hm.
  rewrite Hg, (empty_rows_get _ _ Hs) in Ht, Hm.
  unfold dmem in Hm at 1. cbn [dget] in Hm. rewrite keqb_refl in Hm.
  cbn [dmem dget orb] in Hm. unfold dmem in Hm; cbn [dget orb] in Hm.
  rewrite Ht. change (sum_values []) with 0.
  assert (Hpos : 0 < count_if (fun p => keqb (fst p) s && keqb (snd p) t)
                        (List.concat (map adjacent obs))).
  { pose proof (count_if_nonneg
                  (fun p => keqb (fst p) s && keqb (snd p) t)
                  (List.concat (map adjacent obs))) as Hn.
    destruct (Z.eq_dec (count_if
                (fun p => keqb (fst p) s && keqb (snd p) t)
                (List.concat (map adjacent obs))) 0) as [Hz|Hz]; [|lia].
    apply count_if_zero_existsb in Hz. congruence. }
  assert (Hle : count_if (fun p => keqb (fst p) s && keqb (snd p) t)
                  (List.concat (map adjacent obs)) <= out_count obs s).
  { apply count_if_le. intros p Hp. apply andb_true_iff in Hp; tauto. }
  lia.
Qed.

Lemma raises_only_foldM {A B : Type} (P : error -> Prop)
    (f : A -> B -> result A) (l : list B) (a : A) :
  (forall a b, raises_only P (f a b)) -> raises_only P (foldM f l a).
Proof.
  intros Hf; revert a; induction l as [|b l IH]; intros a; simpl.
  - apply raises_only_Ok.
  - apply raises_only_bind; [apply Hf | intros a'; apply IH].
Qed.

Lemma raises_only_weaken {A : Type} (P Q : error -> Prop) (r : result A) :
  (forall e, P e -> Q e) -> raises_only P r -> raises_only Q r.
Proof. intros HPQ Hr e He. apply HPQ, Hr, He. Qed.

Lemma raises_only_check h sq :
  raises_only (fun e => boundary_error e \/ e = IndexError)
              (_check_end_states h sq).
Proof.
  unfold _check_end_states.
  apply raises_only_bind.
  { intros e He. unfold getitem in He. destruct (nth_error sq 0); inversion He.
    now right. }
  intros first. apply raises_only_bind.
  { intros e He. unfold getitem in He.
    destruct (nth_error (end_states h) 0); inversion He. now right. }
  intros start. destruct (negb (keqb (snd first) start)).
  { intros e He; inversion He. left; now left. }
  apply raises_only_bind.
  { intros e He. unfold getitem in He.
    destruct (nth_error sq (List.length sq - 1)); inversion He. now right. }
  intros lst. apply raises_only_bind.
  { intros e He. unfold getitem in He.
    destruct (nth_error (end_states h) 1); inversion He. now right. }
  intros stop. destruct (negb (keqb (snd lst) stop)).
  { intros e He; inversion He. left; now right. }
  apply raises_only_Ok.
Qed.

Lemma raises_only_bump cnts s t :
  raises_only (fun e => e = KeyError) (bump cnts s t).
Proof.
  unfold bump. apply raises_only_bind.
  { intros e He. unfold dindex in He. destruct (dget cnts s); now inversion He. }
  intros row. rewrite count_one_eq; cbn [bind]. apply raises_only_Ok.
Qed.

Lemma estimate_transition_eq h obs :
  estimate_transition h obs
  = (start <- getitem (end_states h) 0 ;;
     cnts <- foldM (transition_count_deque h) obs
               (empty_rows (start :: states h)) ;;
     tbl <- dict_mapM transition_row cnts ;;
     Ok (set_transition_cnts h cnts, tbl)).
Proof. reflexivity. Qed.

Lemma estimate_transition_Ok_iff h obs :
  ((exists r, estimate_transition h obs = Ok r) <->
   (exists start, getitem (end_states h) 0 = Ok start /\
                  Forall (chainable h start) obs)) /\
  raises_only transition_error (estimate_transition h obs).
Proof.
  rewrite estimate_transition_eq. split; [split|].
  - intros [[h' tbl] He]. inv_bind He. rename a into start. inv_bind He.
    exists start. split; [assumption|].
    apply (foldM_Ok_elim (transition_count_deque h)
             (keyed_by (start :: states h)) (chainable h start)
             (fun c sq c' => transition_deque_Ok_chainable h start c sq c')
             obs _ _ (keyed_by_empty _) Ha0).
  - intros (start & Hs & Hall). rewrite Hs; cbn [bind].
    destruct (foldM_Ok_intro (transition_count_deque h)
                (keyed_by (start :: states h)) (chainable h start)
                (transition_deque_chainable h start) obs
                (empty_rows (start :: states h))
                (keyed_by_empty _) Hall) as (cnts & Hloop & _).
    rewrite Hloop; cbn [bind].
    destruct (dict_mapM_defined transition_row cnts) as [tbl Htbl].
    + intros row Hrow. apply in_map_iff in Hrow as ([s row'] & <- & Hin).
      exists (ratio_row row'). apply transition_row_defined.
      exact (transition_loop_rows _ _ _ _ _ _ Hloop Hin).
    + rewrite Htbl; cbn [bind]. eauto.
  - apply raises_only_bind.
    { intros e He. unfold getitem in He.
      destruct (nth_error (end_states h) 0); inversion He. right; now left. }
    intros start.
    destruct (foldM (transition_count_deque h) obs
                (empty_rows (start :: states h))) as [cnts|e] eqn:Hloop.
    + cbn [bind].
      destruct (dict_mapM_defined transition_row cnts) as [tbl Htbl].
      * intros row Hrow. apply in_map_iff in Hrow as ([s row'] & <- & Hin).
        exists (ratio_row row'). apply transition_row_defined.
        exact (transition_loop_rows _ _ _ _ _ _ Hloop Hin).
      * rewrite Htbl; cbn [bind]. apply raises_only_Ok.
    + cbn [bind]. intros e' He'; inversion He'; subst e'.
      assert (Hr : raises_only transition_error
                     (foldM (transition_count_deque h) obs
                        (empty_rows (start :: states h))));
        [|exact (Hr e Hloop)].
      apply raises_only_foldM. intros c sq.
      rewrite transition_count_deque_eq.
      apply raises_only_bind.
      { eapply raises_only_weaken; [|apply raises_only_check].
        intros e1 [H|H]; [now left | right; now left]. }
      intros _. apply raises_only_foldM. intros c' p.
      eapply raises_only_weaken; [|apply raises_only_bump].
      intros e1 ->. right; now right.
Qed.

(** [estimate_transition] returns exactly when START is configured, every
    sequence of the corpus passes the boundary check and every state that
    is followed by another one is START or an interior state.  When it
    raises, the exception is one of the boundary check, [IndexError] or
    [KeyError]: the division by the row total never fails. *)
Theorem estimate_transition_returns_iff h obs :
  ((exists r, estimate_transition h obs = Ok r) <->
   (exists start, getitem (end_states h) 0 = Ok start /\
                  Forall (chainable h start) obs)) /\
  raises_only transition_error (estimate_transition h obs).
Proof. exact (estimate_transition_Ok_iff h obs). Qed.

(** ** When training returns *)

(** [train] returns exactly when START is configured and every sequence of
    the corpus passes the boundary check, carries only end states and
    interior states, and has START or an interior state wherever a state is
    followed by another one. *)
Theorem train_returns_iff h obs :
  (exists h', train h obs = Ok h') <->
  (exists start, getitem (end_states h) 0 = Ok start /\
                 Forall (countable h) obs /\
                 Forall (chainable h start) obs).
Proof.
  destruct (estimate_emission_Ok_iff h obs default_smooth_k) as [_ He].
  specialize (He eq_refl). split.
  - intros [h' Ht].
    destruct (train_fields _ _ _ Ht) as (h1 & h3 & Hem & Htr & _ & _ & _).
    destruct (estimate_emission_object _ _ _ _ _ Hem) as [tw ->].
    destruct (proj1 (proj1 (estimate_transition_Ok_iff _ obs))
                (ex_intro _ _ Htr)) as (start & Hs & Hall).
    exists start. split; [exact Hs|]. split; [|exact Hall].
    apply He. eauto.
  - intros (start & Hs & Hc & Hall).
    destruct (proj2 He Hc) as [[h1 e] Hem].
    destruct (estimate_emission_object _ _ _ _ _ Hem) as [tw ->].
    destruct (proj2 (proj1 (estimate_transition_Ok_iff
                              (set_emission_probs (set_training_words h tw) e)
                              obs))) as [[h3 t] Htr].
    { exists start. split; [exact Hs | exact Hall]. }
    exists (set_transition_probs h3 t). unfold train.
    rewrite Hem; cbn [bind]. rewrite Htr; reflexivity.
Qed.

(** ** The vocabulary *)

Lemma emission_step_vocab_count h (a a' : emission_acc) ws w :
  emission_count_step h a ws = Ok a' ->
  dget_default (fst a') w 0
  = dget_default (fst a) w 0 +
    (if emitting h ws && keqb (fst ws) w then 1 else 0).
Proof.
  destruct a as [tw cnts], a' as [tw' cnts']; intros Hs; cbn [fst].
  apply emission_count_step_cases in Hs.
  destruct Hs as [(He & -> & ->)|(He & Hc & _)]; rewrite He; cbn [andb]; [lia|].
  exact (count_one_get _ _ _ _ Hc).
Qed.

Lemma emission_loop_vocab_count h obs (a a' : emission_acc) w :
  foldM (emission_count_deque h) obs a = Ok a' ->
  dget_default (fst a') w 0 = dget_default (fst a) w 0 + word_count h obs w.
Proof.
  intros Hloop. unfold word_count; rewrite count_if_concat.
  apply (foldM_measure (emission_count_deque h)
           (fun x => dget_default (fst x) w 0) _) with (l := obs);
    [|exact Hloop].
  intros x b x' Hd; apply emission_deque_body in Hd.
  rewrite count_if_sumZ.
  apply (foldM_measure (emission_count_step h)
           (fun x => dget_default (fst x) w 0) _) with (l := b); [|exact Hd].
  intros; now apply emission_step_vocab_count.
Qed.

Lemma train_vocab_count h obs h' w :
  train h obs = Ok h' ->
  dget_default (training_words h') w 0
  = dget_default (training_words h) w 0 + word_count h obs w.
Proof.
  intros Ht.
  destruct (train_fields _ _ _ Ht) as (h1 & h3 & He & _ & Htw & _ & _).
  rewrite Htw. rewrite estimate_emission_eq in He. inv_bind He. inv_bind He.
  inversion He; subst h1. cbn [training_words set_training_words].
  exact (emission_loop_vocab_count h obs _ _ w Ha).
Qed.

Lemma word_count_same_end_states h1 h2 obs w :
  end_states h1 = end_states h2 -> word_count h1 obs w = word_count h2 obs w.
Proof.
  intros He. unfold word_count, emitting. now rewrite He.
Qed.

(** Training never resets the vocabulary: each call adds to the count of
    every word the number of its emissions in the corpus, so a second
    training on the same corpus adds them once more. *)
Theorem vocabulary_accumulates h obs h1 :
  train h obs = Ok h1 ->
  (forall w, dget_default (training_words h1) w 0
             = dget_default (training_words h) w 0 + word_count h obs w) /\
  (forall h2 w, train h1 obs = Ok h2 ->
     dget_default (training_words h2) w 0
     = dget_default (training_words h) w 0 + 2 * word_count h obs w).
Proof.
  intros Ht. split; [intros w; now apply train_vocab_count|].
  intros h2 w Ht2.
  rewrite (train_vocab_count _ _ _ w Ht2), (train_vocab_count _ _ _ w Ht).
  destruct (train_fields _ _ _ Ht) as (_ & _ & _ & _ & _ & _ & Hes).
  rewrite (word_count_same_end_states h1 h obs w Hes). lia.
Qed.

(** The statement at the model of [Example]: x counts 3, then 6. *)
Lemma vocabulary_accumulates_witness :
  exists h1 h2,
    train Example.hmm0 Example.corpus = Ok h1 /\
    train h1 Example.corpus = Ok h2 /\
    dget_default (training_words h1) "x"%string 0 = 3 /\
    dget_default (training_words h2) "x"%string 0 = 6.
Proof.
  eexists; eexists.
  split; [vm_compute; reflexivity|].
  split; [vm_compute; reflexivity|].
  match goal with
  | |- dget_default (training_words ?h1) _ _ = _ /\
       dget_default (training_words ?h2) _ _ = _ =>
      destruct (vocabulary_accumulates Example.hmm0 Example.corpus h1)
        as [Hone Htwo]; [vm_compute; reflexivity|];
      split; [rewrite Hone | rewrite (Htwo h2) by (vm_compute; reflexivity)]
  end; reflexivity.
Defined.

Lemma in_corpus_false_emit_count h obs s w :
  in_corpus h obs w = false -> emit_count h obs s w = 0.
Proof.
  intros Hin. unfold emit_count. apply count_if_zero_existsb.
  unfold in_corpus in Hin.
  destruct (existsb (fun ws => emitting h ws && keqb (snd ws) s
                               && keqb (fst ws) w) (List.concat obs)) eqn:E;
    [|reflexivity].
  apply existsb_exists in E as (ws & Hws & Hp).
  rewrite <- Hin. symmetry. apply existsb_exists. exists ws.
  split; [assumption|].
  apply andb_true_iff in Hp as [Hp Hw]. apply andb_true_iff in Hp as [He _].
  now rewrite He, Hw.
Qed.

(** A word other than the UNKNOWN token, known from an earlier training,
    that the present corpus does not contain stays in the vocabulary:
    [_process_unknown_word] leaves it as it is, and the emission lookup
    returns 0 for it under every interior state instead of the UNKNOWN
    probability.  (The UNKNOWN token itself is looked up in the smoothing
    entry, which is never 0.) *)
Theorem stale_word_scores_zero h obs h' w :
  train h obs = Ok h' ->
  dmem (training_words h) w = true ->
  in_corpus h obs w = false ->
  w <> UNKNOWN_TOKEN ->
  _process_unknown_word h' w = w /\
  forall s, In s (states h) -> get_emission_probability h' s w = Ok 0%Q.
Proof.
  intros Ht Hold Hnew Hw.
  destruct (train_fields _ _ _ Ht) as (h1 & h3 & He & _ & Htw & _ & _).
  pose proof (estimate_emission_vocab _ _ _ _ _ w He) as Hv.
  rewrite <- Htw, Hold in Hv; cbn [orb] in Hv.
  split; [unfold _process_unknown_word; now rewrite Hv|].
  intros s Hs.
  destruct (estimate_emission_row _ _ _ _ _ _ He Hs)
    as (counts & Hrow & _ & _ & _ & Hm).
  rewrite (get_emission_probability_known h' s w _ Hv Hrow).
  unfold dget_default. rewrite mle_row_word by assumption.
  specialize (Hm w). rewrite (in_corpus_false_emit_count _ _ _ _ Hnew) in Hm.
  unfold dmem in Hm. destruct (dget counts w); [discriminate | reflexivity].
Qed.

(** The statement for the model of [Example] trained a second time, on a
    corpus without the word y. *)
Lemma stale_word_scores_zero_witness :
  exists h1 h2,
    train Example.hmm0 Example.corpus = Ok h1 /\
    train h1 [[("", "START"); ("x", "A"); ("", "STOP")]]%string = Ok h2 /\
    get_emission_probability h2 "B" "y" = Ok 0%Q.
Proof.
  eexists; eexists.
  split; [vm_compute; reflexivity|].
  match goal with
  | |- train ?h1 ?obs2 = Ok ?h2 /\ _ =>
      assert (Ht2 : train h1 obs2 = Ok h2) by (vm_compute; reflexivity);
      split; [exact Ht2|];
      destruct (stale_word_scores_zero h1 obs2 h2 "y"%string Ht2)
        as [_ Hzero]; [reflexivity | reflexivity | discriminate |]
  end.
  apply Hzero. simpl; auto.
Defined.

(** ** The stored probabilities *)

Lemma Forall_dset {K V : Type} `{EqKey K} (Q : V -> Prop) (d : dict K V) k v :
  Forall (fun e => Q (snd e)) d -> Q v ->
  Forall (fun e => Q (snd e)) (dset d k v).
Proof.
  intros Hd Hv; induction Hd as [|[k0 v0] d H0 Hd IH]; cbn [dset].
  - constructor; [assumption | constructor].
  - destruct (keqb k k0); constructor; assumption.
Qed.

Lemma In_dset_cases {K V : Type} `{EqKey K} (d : dict K V) k v k' v' :
  In (k', v') (dset d k v) -> (k' = k /\ v' = v) \/ In (k', v') d.
Proof.
  induction d as [|[k0 v0] d IH]; cbn [dset].
  - intros [Heq|[]]. inversion Heq; auto.
  - destruct (keqb_spec k k0) as [->|Hne].
    + intros [Heq|Hin]; [inversion Heq; auto | right; now right].
    + intros [Heq|Hin]; [right; now left|].
      destruct (IH Hin) as [?|?]; [now left | right; now right].
Qed.

Lemma In_dict_map {K V V' : Type} (g : V -> V') (d : dict K V) k v' :
  In (k, v') (dict_map g d) -> exists v, In (k, v) d /\ v' = g v.
Proof.
  unfold dict_map. intros Hin. apply in_map_iff in Hin as ([k0 v] & Heq & Hin).
  inversion Heq; subst. eauto.
Qed.

Lemma dict_mapM_In {K V V' : Type} (f : V -> result V') (d : dict K V)
    (d' : dict K V') k v' :
  dict_mapM f d = Ok d' -> In (k, v') d' ->
  exists v, In (k, v) d /\ f v = Ok v'.
Proof.
  unfold dict_mapM; revert d'; induction d as [|[k0 v0] d IH]; intros d' Hm Hin.
  - simpl in Hm; inversion Hm; subst. destruct Hin.
  - simpl in Hm. apply bind_Ok in Hm as (x & Hx & Hm).
    apply bind_Ok in Hx as (y & Hy & Hx). inversion Hx; subst x; clear Hx.
    apply bind_Ok in Hm as (rest & Hrest & Hm).
    inversion Hm; subst d'; clear Hm.
    destruct Hin as [Heq|Hin].
    + inversion Heq; subst. exists v0; split; [now left | assumption].
    + destruct (IH _ Hrest Hin) as (v & Hv & Hf).
      exists v; split; [now right | assumption].
Qed.

Lemma counts_positive_bump cnts s t cnts' :
  counts_positive cnts -> bump cnts s t = Ok cnts' -> counts_positive cnts'.
Proof.
  unfold counts_positive, bump, dindex; intros Hp Hb.
  destruct (dget cnts s) as [row|] eqn:Eg; [|discriminate]. cbn [bind] in Hb.
  rewrite count_one_eq in Hb; cbn [bind] in Hb. inversion Hb; subst cnts'.
  assert (Hrow : Forall (fun kv => 1 <= snd kv) row).
  { apply dget_In in Eg. rewrite Forall_forall in Hp. exact (Hp _ Eg). }
  apply (Forall_dset (fun r => Forall (fun kv => 1 <= snd kv) r));
    [assumption|].
  apply (Forall_dset (fun c => 1 <= c)); [assumption|].
  unfold dget_default. destruct (dget row t) as [c|] eqn:Ec; [|lia].
  apply dget_In in Ec. rewrite Forall_forall in Hrow.
  specialize (Hrow _ Ec); cbn [snd] in Hrow. lia.
Qed.

Lemma counts_positive_empty sts : counts_positive (empty_rows sts).
Proof.
  unfold counts_positive. apply Forall_forall. intros [s row] Hin.
  assert (Hg : dget (empty_rows sts) s = Some row).
  { apply In_dget; [|assumption]. rewrite dkeys_empty_rows. apply NoDup_dedup. }
  assert (Hs : In s sts).
  { apply dget_Some_keys in Hg. rewrite dkeys_empty_rows in Hg.
    now apply In_dedup. }
  rewrite (empty_rows_get _ _ Hs) in Hg. inversion Hg. constructor.
Qed.

Lemma emission_loop_positive h obs (a a' : emission_acc) :
  foldM (emission_count_deque h) obs a = Ok a' ->
  counts_positive (snd a) -> counts_positive (snd a').
Proof.
  apply (foldM_inv (emission_count_deque h)
           (fun x => counts_positive (snd x))).
  intros x sq x' Hd. apply emission_deque_body in Hd. revert Hd.
  apply (foldM_inv (emission_count_step h)
           (fun x => counts_positive (snd x))).
  intros [tw c] ws [tw' c'] Hs Hp. cbn [snd] in *.
  apply emission_count_step_cases in Hs.
  destruct Hs as [(_ & _ & ->)|(_ & _ & Hb)]; [assumption|].
  eapply counts_positive_bump; eauto.
Qed.

Lemma transition_loop_positive h obs c c' :
  foldM (transition_count_deque h) obs c = Ok c' ->
  counts_positive c -> counts_positive c'.
Proof.
  apply (foldM_inv (transition_count_deque h) counts_positive).
  intros x sq x' Hd. apply transition_deque_body in Hd. revert Hd.
  apply (foldM_inv bump_pair counts_positive).
  intros y p y' Hb Hp. eapply counts_positive_bump; eauto.
Qed.

Lemma sumZ_bound (l : list Z) c :
  Forall (fun v => 1 <= v) l -> In c l -> 1 <= c <= sumZ l.
Proof.
  induction 1 as [|v l Hv Hl IH]; intros Hin; [destruct Hin|].
  assert (Hs : 0 <= sumZ l).
  { clear -Hl. induction Hl; simpl; lia. }
  simpl. destruct Hin as [->|Hin]; [lia|]. specialize (IH Hin). lia.
Qed.

Lemma row_count_bound (row : dict string Z) w c :
  Forall (fun kv => 1 <= snd kv) row -> In (w, c) row ->
  1 <= c <= sum_values row.
Proof.
  intros Hrow Hin. rewrite sum_values_sumZ. apply sumZ_bound.
  - unfold dvalues. apply Forall_forall. intros v Hv.
    apply in_map_iff in Hv as (e & <- & He).
    rewrite Forall_forall in Hrow. now apply Hrow.
  - unfold dvalues. change c with (snd (w, c)). now apply in_map.
Qed.

Lemma ratio_bounds (n q : Z) :
  0 < n -> n <= q -> (0 < inject_Z n / inject_Z q /\ inject_Z n / inject_Z q <= 1)%Q.
Proof.
  intros Hn Hq. unfold Qlt, Qle, Qdiv, Qmult, Qinv, inject_Z; simpl.
  destruct q as [|q|q]; try lia. simpl. split; lia.
Qed.

Lemma trained_emission_entries h obs h' s row w p :
  train h obs = Ok h' ->
  In (s, row) (emission_probs h') -> In (w, p) row ->
  (0 < p /\ p <= 1)%Q.
Proof.
  intros Ht Hrow Hp.
  destruct (train_fields _ _ _ Ht) as (h1 & h3 & He & Htr & _ & _ & _).
  rewrite estimate_emission_eq in He. inv_bind He. inv_bind He.
  inversion He; subst; clear He. destruct a as [tw cnts]; cbn [snd fst] in *.
  destruct (dict_mapM_In _ _ _ _ _ Ha0 Hrow) as (counts & Hc & Hr).
  apply emission_row_Ok in Hr as [Hnz ->].
  pose proof (emission_loop_positive h obs _ _ Ha
                (counts_positive_empty _)) as Hpos; cbn [snd] in Hpos.
  unfold counts_positive in Hpos. rewrite Forall_forall in Hpos.
  specialize (Hpos _ Hc); cbn [snd] in Hpos.
  assert (Hsum : 0 <= sum_values counts).
  { rewrite sum_values_sumZ. unfold dvalues. clear -Hpos.
    induction Hpos as [|e l He Hl IH]; simpl; lia. }
  unfold mle_row in Hp. apply In_dset_cases in Hp as [[_ ->]|Hp].
  - apply ratio_bounds; unfold default_smooth_k; lia.
  - apply In_dict_map in Hp as (c & Hc' & ->).
    pose proof (row_count_bound _ _ _ Hpos Hc').
    apply ratio_bounds; unfold default_smooth_k; lia.
Qed.

Lemma trained_transition_entries h obs h' s row t p :
  train h obs = Ok h' ->
  In (s, row) (transition_probs h') -> In (t, p) row ->
  (0 < p /\ p <= 1)%Q.
Proof.
  intros Ht Hrow Hp.
  destruct (train_fields _ _ _ Ht) as (h1 & h3 & He & Htr & _ & _ & _).
  rewrite estimate_transition_eq in Htr. inv_bind Htr. inv_bind Htr.
  inv_bind Htr. inversion Htr; subst; clear Htr.
  destruct (dict_mapM_In _ _ _ _ _ Ha1 Hrow) as (counts & Hc & Hr).
  apply transition_row_Ok in Hr as [-> _].
  pose proof (transition_loop_positive _ obs _ _ Ha0
                (counts_positive_empty _)) as Hpos.
  unfold counts_positive in Hpos. rewrite Forall_forall in Hpos.
  specialize (Hpos _ Hc); cbn [snd] in Hpos.
  unfold ratio_row in Hp. apply In_dict_map in Hp as (c & Hc' & ->).
  pose proof (row_count_bound _ _ _ Hpos Hc').
  apply ratio_bounds; lia.
Qed.

(** Every probability stored by training lies in (0, 1]: the entries of
    the emission table, smoothing entries included, and the entries of the
    transition table. *)
Theorem trained_probabilities_bounded h obs h' :
  train h obs = Ok h' ->
  (forall s row w p,
     In (s, row) (emission_probs h') -> In (w, p) row ->
     (0 < p /\ p <= 1)%Q) /\
  (forall s row t p,
     In (s, row) (transition_probs h') -> In (t, p) row ->
     (0 < p /\ p <= 1)%Q).
Proof.
  intros Ht. split.
  - intros s row w p. now apply trained_emission_entries with (obs := obs) (h := h).
  - intros s row t p. now apply trained_transition_entries with (obs := obs) (h := h).
Qed.

(** The statement at the model of [Example], for the entry of x under A. *)
Lemma trained_probabilities_bounded_witness :
  exists h' row p,
    train Example.hmm0 Example.corpus = Ok h' /\
    In ("A"%string, row) (emission_probs h') /\
    In ("x"%string, p) row /\ (0 < p /\ p <= 1)%Q.
Proof.
  eexists; eexists; eexists.
  match goal with
  | |- train ?h ?obs = Ok ?h' /\ _ =>
      assert (Ht : train h obs = Ok h') by (vm_compute; reflexivity);
      split; [exact Ht|];
      destruct (trained_probabilities_bounded h obs h' Ht) as [Hem _]
  end.
  assert (Hrow : In ("A"%string, [("x"%string, 2 # 3); (UNKNOWN_TOKEN, 1 # 3)])
                    [("A"%string, [("x"%string, 2 # 3); (UNKNOWN_TOKEN, 1 # 3)]);
                     ("B"%string, [("y"%string, 1 # 3); ("x"%string, 1 # 3);
                                   (UNKNOWN_TOKEN, 1 # 3)])]) by (now left).
  assert (Hp : In ("x"%string, 2 # 3)
                  [("x"%string, 2 # 3); (UNKNOWN_TOKEN, 1 # 3)]) by (now left).
  split; [exact Hrow|]. split; [exact Hp|].
  exact (Hem _ _ _ _ Hrow Hp).
Defined.

(** ** Lookups in a trained model *)

Lemma source_states_start h start :
  getitem (end_states h) 0 = Ok start -> source_states h = start :: states h.
Proof.
  unfold getitem, source_states. destruct (end_states h) as [|e es]; [discriminate|].
  simpl. intros He; now inversion He.
Qed.

Lemma trained_emission_row h obs h' s :
  train h obs = Ok h' -> In s (states h) ->
  exists counts,
    dget (emission_probs h') s = Some (mle_row default_smooth_k counts) /\
    forall w, dmem counts w = negb (emit_count h obs s w =? 0).
Proof.
  intros Ht Hs.
  destruct (train_fields _ _ _ Ht) as (h1 & h3 & He & _ & _ & _ & _).
  destruct (estimate_emission_row _ _ _ _ _ _ He Hs)
    as (counts & Hrow & _ & _ & _ & Hm).
  eauto.
Qed.

Lemma trained_emission_defined h obs h' s w :
  train h obs = Ok h' -> In s (states h) ->
  exists p, get_emission_probability h' s w = Ok p.
Proof.
  intros Ht Hs. destruct (trained_emission_row _ _ _ _ Ht Hs) as (counts & Hrow & _).
  unfold get_emission_probability, dindex. rewrite Hrow; cbn [bind].
  rewrite mle_row_unknown.
  destruct (negb (dmem (training_words h') w)); eauto.
Qed.

Lemma trained_emission_missing h obs h' s w :
  train h obs = Ok h' -> ~ In s (states h) ->
  get_emission_probability h' s w = Raise KeyError.
Proof.
  intros Ht Hs. apply get_emission_probability_no_row.
  destruct (train_fields _ _ _ Ht) as (h1 & h3 & He & _ & _ & _ & _).
  rewrite (estimate_emission_keys _ _ _ _ _ He).
  destruct (list_mem s (states h)) eqn:E; [|reflexivity].
  apply list_mem_In in E. contradiction.
Qed.

Lemma trained_transition_defined h obs h' s t :
  train h obs = Ok h' -> In s (source_states h) ->
  exists p, get_transition_probability h' s t = Ok p.
Proof.
  intros Ht Hs.
  destruct (train_fields _ _ _ Ht) as (h1 & h3 & He & Htr & _ & _ & _).
  destruct (estimate_emission_object _ _ _ _ _ He) as [tw ->].
  destruct (estimate_transition_row _ _ _ _ s Htr Hs) as (counts & Hrow & _).
  rewrite (get_transition_probability_row _ _ _ _ Hrow). eauto.
Qed.

Lemma trained_transition_missing h obs h' s t :
  train h obs = Ok h' -> ~ In s (source_states h) ->
  get_transition_probability h' s t = Raise KeyError.
Proof.
  intros Ht Hs.
  destruct (train_fields _ _ _ Ht) as (h1 & h3 & He & Htr & _ & _ & _).
  destruct (estimate_emission_object _ _ _ _ _ He) as [tw ->].
  destruct (estimate_transition_dkeys _ _ _ _ Htr) as (start & Hst & Hk & _).
  cbn [end_states states set_emission_probs set_training_words] in Hst, Hk.
  rewrite (source_states_start _ _ Hst) in Hs.
  unfold get_transition_probability, dindex.
  destruct (dget (transition_probs h') s) eqn:Eg; [|reflexivity].
  exfalso; apply Hs. apply In_dedup. rewrite <- Hk.
  eapply dget_Some_keys; eauto.
Qed.

(** In a trained model the emission lookup returns a probability for every
    interior state and every word, and raises [KeyError] for every other
    state; the transition lookup returns a probability from START and from
    every interior state to any state, and raises [KeyError] from every
    other state. *)
Theorem trained_lookups_defined h obs h' :
  train h obs = Ok h' ->
  (forall s w,
     (In s (states h) -> exists p, get_emission_probability h' s w = Ok p) /\
     (~ In s (states h) -> get_emission_probability h' s w = Raise KeyError)) /\
  (forall s t,
     (In s (source_states h) ->
      exists p, get_transition_probability h' s t = Ok p) /\
     (~ In s (source_states h) ->
      get_transition_probability h' s t = Raise KeyError)).
Proof.
  intros Ht. split; intros s x; split; intros Hs.
  - eapply trained_emission_defined; eauto.
  - eapply trained_emission_missing; eauto.
  - eapply trained_transition_defined; eauto.
  - eapply trained_transition_missing; eauto.
Qed.

(** The statement at the model of [Example]: no row for STOP in either
    table. *)
Lemma trained_lookups_defined_witness :
  exists h',
    train Example.hmm0 Example.corpus = Ok h' /\
    get_emission_probability h' "STOP" "x" = Raise KeyError /\
    get_transition_probability h' "STOP" "A" = Raise KeyError.
Proof.
  eexists.
  match goal with
  | |- train ?h ?obs = Ok ?h' /\ _ =>
      assert (Ht : train h obs = Ok h') by (vm_compute; reflexivity);
      split; [exact Ht|];
      destruct (trained_lookups_defined h obs h' Ht) as [Hem Htr]
  end.
  split.
  - apply Hem. simpl. intros [H|[H|[]]]; discriminate.
  - apply Htr. simpl. intros [H|[H|[H|[]]]]; discriminate.
Defined.

(** In a trained model, replacing a word by the UNKNOWN token when it is
    outside the vocabulary, as the Viterbi step does before its lookup,
    does not change what the emission lookup returns: the lookup makes the
    same replacement itself. *)
Theorem unknown_substitution_redundant h obs h' s w :
  train h obs = Ok h' ->
  get_emission_probability h' s (_process_unknown_word h' w)
  = get_emission_probability h' s w.
Proof.
  intros Ht. unfold _process_unknown_word.
  destruct (dmem (training_words h') w) eqn:Ew; [reflexivity|].
  destruct (in_dec string_dec s (states h)) as [Hs|Hs].
  - destruct (trained_emission_row _ _ _ _ Ht Hs) as (counts & Hrow & _).
    unfold get_emission_probability, dindex. rewrite Hrow, Ew; cbn [negb bind].
    rewrite mle_row_unknown.
    destruct (dmem (training_words h') UNKNOWN_TOKEN); cbn [negb];
      [|reflexivity].
    unfold dget_default. now rewrite mle_row_unknown.
  - now rewrite !(trained_emission_missing _ _ _ _ _ Ht Hs).
Qed.

(** The statement at the model of [Example] and the unseen word zzz. *)
Lemma unknown_substitution_redundant_witness :
  exists h',
    train Example.hmm0 Example.corpus = Ok h' /\
    _process_unknown_word h' "zzz" = UNKNOWN_TOKEN /\
    get_emission_probability h' "A" (_process_unknown_word h' "zzz")
    = get_emission_probability h' "A" "zzz".
Proof.
  eexists.
  match goal with
  | |- train ?h ?obs = Ok ?h' /\ _ =>
      assert (Ht : train h obs = Ok h') by (vm_compute; reflexivity);
      split; [exact Ht|]; split; [reflexivity|];
      exact (unknown_substitution_redundant h obs h' "A"%string "zzz"%string Ht)
  end.
Defined.

(** ** The naive decoder on unknown tokens *)

Lemma dedup_fold_hd (l acc : list state) a :
  exists tl, fold_left dedup_step l (a :: acc) = a :: tl.
Proof.
  revert acc; induction l as [|y l IH]; intros acc; simpl; [eauto|].
  unfold dedup_step. destruct (list_mem y (a :: acc)); [apply IH|].
  change ((a :: acc) ++ [y]) with (a :: (acc ++ [y])). apply IH.
Qed.

Lemma dedup_cons_hd (l : list state) a : exists tl, dedup (a :: l) = a :: tl.
Proof.
  change (dedup (a :: l)) with (fold_left dedup_step l [a]).
  apply dedup_fold_hd.
Qed.

Lemma fold_keep_best_all_zero {A : Type} (l : list (A * Q)) (x : A * Q) :
  snd x = 0%Q -> Forall (fun y => snd y = 0%Q) l ->
  fold_left keep_best l x = x.
Proof.
  intros Hx Hl; induction Hl as [|y l Hy _ IH]; simpl; [reflexivity|].
  unfold keep_best at 2. rewrite Hx, Hy.
  change (Qlt_bool 0 0) with false. exact IH.
Qed.

(** The naive decoder does not use the UNKNOWN entries: a token that the
    corpus never emits and that is not the UNKNOWN token itself scores 0 in
    every row, so it is labelled with the first interior state of the
    model, whatever the smoothing entries are. *)
Theorem naive_unknown_token_first_state h obs h' w s0 rest :
  train h obs = Ok h' ->
  states h = s0 :: rest ->
  in_corpus h obs w = false ->
  w <> UNKNOWN_TOKEN ->
  _argmax_emission h' w = Ok s0.
Proof.
  intros Ht Hst Hin Hw.
  destruct (train_fields _ _ _ Ht) as (h1 & h3 & He & _ & _ & _ & _).
  pose proof (estimate_emission_dkeys _ _ _ _ _ He) as Hk.
  assert (Hzero : Forall (fun e => dget_default (snd e) w 0%Q = 0%Q)
                         (emission_probs h')).
  { apply Forall_forall. intros [s row] Hrow. cbn [snd].
    assert (Hg : dget (emission_probs h') s = Some row).
    { apply In_dget; [|assumption]. rewrite Hk. apply NoDup_dedup. }
    assert (Hs : In s (states h)).
    { apply In_dedup. rewrite <- Hk. eapply dget_Some_keys; eauto. }
    destruct (trained_emission_row _ _ _ _ Ht Hs) as (counts & Hrow' & Hm).
    rewrite Hrow' in Hg. inversion Hg; subst row.
    unfold dget_default. rewrite mle_row_word by assumption.
    specialize (Hm w). rewrite (in_corpus_false_emit_count _ _ _ _ Hin) in Hm.
    unfold dmem in Hm. destruct (dget counts w); [discriminate | reflexivity]. }
  unfold _argmax_emission.
  destruct (emission_probs h') as [|[s row] tbl] eqn:Et.
  { rewrite Hst in Hk. destruct (dedup_cons_hd rest s0) as [tl Htl].
    rewrite Htl in Hk. discriminate. }
  cbn [is_empty map max_by_snd bind fst snd].
  inversion Hzero as [|? ? Hz0 Hzs]; subst. cbn [snd] in Hz0.
  change (fold_left _ ?l ?x) with (fold_left keep_best l x).
  rewrite fold_keep_best_all_zero.
  - cbn [fst]. f_equal.
    rewrite Hst in Hk. destruct (dedup_cons_hd rest s0) as [tl Htl].
    rewrite Htl in Hk. cbn [dkeys map fst] in Hk. now inversion Hk.
  - exact Hz0.
  - apply Forall_forall. intros y Hy. apply in_map_iff in Hy as (e & <- & Hin').
    cbn [snd]. rewrite Forall_forall in Hzs. now apply Hzs.
Qed.

(** The statement at the model of [Example]: the unseen word zzz is
    labelled A. *)
Lemma naive_unknown_token_first_state_witness :
  exists h',
    train Example.hmm0 Example.corpus = Ok h' /\
    _argmax_emission h' "zzz" = Ok "A"%string.
Proof.
  eexists.
  match goal with
  | |- train ?h ?obs = Ok ?h' /\ _ =>
      assert (Ht : train h obs = Ok h') by (vm_compute; reflexivity);
      split; [exact Ht|];
      apply (naive_unknown_token_first_state h obs h' "zzz"%string
               "A"%string ["B"%string] Ht)
  end; [reflexivity | reflexivity | discriminate].
Defined.

(** ** Viterbi decoding returns *)

Lemma mapM_defined_rel {A B : Type} (f : A -> result B) (R : A -> B -> Prop)
    (l : list A) :
  (forall a, In a l -> exists b, f a = Ok b /\ R a b) ->
  exists bs, mapM f l = Ok bs /\ Forall2 R l bs.
Proof.
  induction l as [|a l IH]; intros Hf; simpl; [eauto|].
  destruct (Hf a) as (b & Hb & Hr); [now left|]. rewrite Hb; cbn [bind].
  destruct IH as (bs & Hbs & Hall); [intros x Hx; apply Hf; now right|].
  rewrite Hbs; cbn [bind]. exists (b :: bs). split; [reflexivity|].
  now constructor.
Qed.

Lemma gcell_Some g i s nd :
  gcell g i s = Some nd ->
  exists row, dget g i = Some row /\ dget row s = Some nd.
Proof.
  unfold gcell. destruct (dget g i) as [row|]; [eauto | discriminate].
Qed.

(** Assigning a cell of an existing row changes that cell only. *)
Lemma graph_set_gcell g i s nd :
  dmem g i = true ->
  exists g', graph_set g i s nd = Ok g' /\
             gcell g' i s = Some nd /\
             (forall i' s', i' <> i \/ s' <> s -> gcell g' i' s' = gcell g i' s') /\
             (forall i', dmem g' i' = dmem g i').
Proof.
  unfold graph_set, dindex, dmem. intros Hm.
  destruct (dget g i) as [row|] eqn:Eg; [|discriminate]. cbn [bind].
  eexists; split; [reflexivity|]. split; [|split].
  - unfold gcell. now rewrite !dget_dset_same.
  - intros i' s' Hne. unfold gcell.
    destruct (Z.eq_dec i i') as [<-|Hi].
    + rewrite dget_dset_same, Eg.
      destruct Hne as [Hne|Hne]; [congruence|].
      apply dget_dset_other. congruence.
    + now rewrite dget_dset_other.
  - intros i'. destruct (Z.eq_dec i i') as [<-|Hi].
    + now rewrite dget_dset_same, Eg.
    + now rewrite dget_dset_other.
Qed.

Lemma getitem_nth {A : Type} (l : list A) (n : nat) (a d : A) :
  getitem l n = Ok a -> nth n l d = a.
Proof.
  unfold getitem. destruct (nth_error l n) eqn:En; [|discriminate].
  intros Ha; inversion Ha; subst. now apply nth_error_nth.
Qed.

Lemma bind_eq_Ok {A B : Type} (m : result A) (f : A -> result B) (a : A) :
  m = Ok a -> bind m f = f a.
Proof. now intros ->. Qed.

(** A cell and the row before it decide whether the cell is what the step
    computes. *)
Lemma cell_filled_same h start sq C g g' i s :
  gcell g' i s = gcell g i s ->
  (forall p, gcell g' (i - 1) p = gcell g (i - 1) p) ->
  cell_filled h start sq C g i s -> cell_filled h start sq C g' i s.
Proof.
  intros Hcell Hrow (nd & Hnd & Hbp & Hrec). exists nd.
  split; [now rewrite Hcell|]. split; [assumption|].
  unfold recurrence in *. destruct (i =? 1); [assumption|].
  destruct Hrec as (nodes & Hall & Hmax). exists nodes. split; [|assumption].
  eapply Forall2_impl; [|exact Hall].
  intros p cand (prev & alpha & beta & Hp & Ha & Hb & Hn).
  exists prev, alpha, beta. now rewrite Hrow.
Qed.

Lemma Forall2_In_l {A B : Type} (R : A -> B -> Prop) l l' a :
  Forall2 R l l' -> In a l -> exists b, In b l' /\ R a b.
Proof.
  induction 1 as [|x y l l' Hxy _ IH]; intros Hin; [contradiction|].
  destruct Hin as [ <- | Hin]; [exists y; split; [now left | assumption]|].
  destruct (IH Hin) as (b & Hb & Hr). exists b. split; [now right | assumption].
Qed.

Lemma Forall2_In_r {A B : Type} (R : A -> B -> Prop) l l' b :
  Forall2 R l l' -> In b l' -> exists a, In a l /\ R a b.
Proof.
  induction 1 as [|x y l l' Hxy _ IH]; intros Hin; [contradiction|].
  destruct Hin as [ <- | Hin]; [exists x; split; [now left | assumption]|].
  destruct (IH Hin) as (a & Ha & Hr). exists a. split; [now right | assumption].
Qed.

Lemma last_cons_default {A : Type} (l : list A) :
  forall x d : A, last (x :: l) d = last l x.
Proof.
  induction l as [|y l IH]; intros x d; [reflexivity|].
  change (last (x :: y :: l) d) with (last (y :: l) d).
  now rewrite !IH.
Qed.

(** The score of a run extended by one state. *)
Lemma path_score_snoc h sq C path :
  forall i p s,
    (path_score h sq C i p (path ++ [s]) ==
     path_score h sq C i p path *
     (or_zero (get_transition_probability h (last path p) s) *
      or_zero (step_emission h sq (i + Z.of_nat (List.length path)) s) * C))%Q.
Proof.
  induction path as [|x path IH]; intros i p s.
  - cbn [app path_score List.length last].
    replace (i + Z.of_nat 0) with i by lia. ring.
  - cbn [app path_score]. rewrite IH, last_cons_default.
    replace (i + 1 + Z.of_nat (List.length path))
      with (i + Z.of_nat (List.length (x :: path)))
      by (cbn [List.length]; lia).
    ring.
Qed.

Lemma first_max_upper {A : Type} (l : list (A * Q)) (x y : A * Q) :
  first_max l x -> In y l -> (snd y <= snd x)%Q.
Proof.
  intros (pre & post & -> & Hpre & Hpost) Hin.
  apply in_app_or in Hin as [Hin | [ <- | Hin]].
  - now apply Qlt_le_weak, Hpre.
  - apply Qle_refl.
  - now apply Hpost.
Qed.

Section ViterbiReturns.
Variables (h : HMM) (start stop : state) (sq : sequence) (C : Q).
Hypothesis Hstart : getitem (end_states h) 0 = Ok start.
Hypothesis Hstop : getitem (end_states h) 1 = Ok stop.
Hypothesis Htrans :
  forall s t, In s (start :: states h) ->
              exists p, get_transition_probability h s t = Ok p.
Hypothesis Hemit :
  forall s w, In s (states h) -> exists p, get_emission_probability h s w = Ok p.
Hypothesis Hne : states h <> [].

Local Abbreviation L := (Z.of_nat (List.length sq)).

Hypothesis HL : 3 <= L.

(** One call of the step, at a time step and for a target that [viterbi]
    uses, on a graph whose previous row is filled. *)
Lemma dp_helper_fills g it st :
  1 <= it <= L - 1 ->
  dmem g it = true ->
  (it < L - 1 /\ In st (states h)) \/ (it = L - 1 /\ st = stop) ->
  (1 < it ->
   forall p, In p (states h) -> cell_filled h start sq C g (it - 1) p) ->
  exists g',
    _dp_helper h it st sq g C = Ok g' /\
    cell_filled h start sq C g' it st /\
    (forall i s, i <> it \/ s <> st -> gcell g' i s = gcell g i s) /\
    (forall i, dmem g' i = dmem g i).
Proof.
  intros Hit Hrow Hst Hprev. unfold _dp_helper.
  destruct (Z.ltb_spec it 1) as [?|_]; [lia|].
  destruct (Z.geb_spec it L) as [?|_]; [lia|]. cbn [orb].
  rewrite Hstop; cbn [bind].
  assert (Hmem : list_mem st (states h ++ [stop]) = true).
  { apply list_mem_In, in_or_app.
    destruct Hst as [[_ Hs]|[_ ->]]; [now left | right; now left]. }
  rewrite Hmem; cbn [negb].
  assert (Hws : exists ws, getitem sq (Z.to_nat it) = Ok ws).
  { unfold getitem. destruct (nth_error sq (Z.to_nat it)) eqn:En; [eauto|].
    apply nth_error_None in En. lia. }
  destruct Hws as [ws Hws]. rewrite Hws; cbn [bind].
  assert (Hword : _process_unknown_word h (fst ws) = step_word h sq it).
  { unfold step_word.
    now rewrite (getitem_nth _ _ _ (EmptyString, EmptyString) Hws). }
  rewrite Hword.
  destruct (Z.eqb_spec it 1) as [->|Hne1].
  - rewrite Hstart; cbn [bind].
    destruct Hst as [[_ Hs]|[Hl _]]; [|lia].
    destruct (Htrans start st) as [alpha Ha]; [now left|].
    rewrite Ha; cbn [bind].
    destruct (Hemit st (step_word h sq 1) Hs) as [beta Hb].
    rewrite Hb; cbn [bind].
    destruct (graph_set_gcell g 1 st (start, (alpha * beta * C)%Q) Hrow)
      as (g' & Hg' & Hcell & Hother & Hkeys).
    exists g'. split; [assumption|]. split; [|split; assumption].
    exists (start, (alpha * beta * C)%Q).
    split; [assumption|]. split; [reflexivity|].
    unfold recurrence. cbn [Z.eqb Pos.eqb]. eauto.
  - assert (Hbeta : exists beta, step_emission h sq it st = Ok beta).
    { unfold step_emission.
      destruct (Z.eqb_spec it (L - 1)) as [_|Hnl]; [eauto|].
      destruct Hst as [[_ Hs]|[Hl _]]; [|lia]. now apply Hemit. }
    destruct Hbeta as [beta Hbeta].
    fold (step_emission h sq it st). rewrite Hbeta.
    match goal with
    | |- exists g', bind (mapM ?f _) _ = _ /\ _ =>
        destruct (mapM_defined_rel f
                    (fun p n => fst n = p /\ candidate h sq C g it st p n)
                    (states h)) as (nodes & Hnodes & Hall)
    end.
    { intros p Hp.
      destruct (Hprev ltac:(lia) p Hp) as (nd & Hnd & _).
      destruct (gcell_Some _ _ _ _ Hnd) as (row & Hr & Hc).
      unfold dindex. rewrite Hr; cbn [bind]. rewrite Hc; cbn [bind].
      destruct (Htrans p st) as [alpha Ha]; [now right|].
      rewrite Ha; cbn [bind].
      eexists; split; [reflexivity|]. split; [reflexivity|].
      exists nd, alpha, beta. auto. }
    rewrite Hnodes; cbn [bind].
    assert (Hfst : map fst nodes = states h).
    { clear -Hall. induction Hall as [|p nd l l' [Hp _] _ IH]; simpl;
        [reflexivity | now rewrite Hp, IH]. }
    destruct (max_by_snd_first_max nodes) as (best & Hbest & Hmax).
    { intros ->. simpl in Hfst. now apply Hne. }
    rewrite Hbest; cbn [bind].
    destruct (graph_set_gcell g it st best Hrow)
      as (g' & Hg' & Hcell & Hother & Hkeys).
    exists g'. split; [assumption|]. split; [|split; assumption].
    exists best. split; [assumption|]. split.
    + unfold backpointer_ok. destruct (Z.eqb_spec it 1); [contradiction|].
      destruct Hmax as (pre & post & Hl & _).
      rewrite <- Hfst. apply in_map. rewrite Hl. apply in_or_app.
      right; now left.
    + unfold recurrence. destruct (Z.eqb_spec it 1); [contradiction|].
      exists nodes. split; [|assumption].
      eapply Forall2_impl; [|exact Hall].
      intros p cand [_ (prev & alpha & beta' & Hp & Ha & Hb & Hn)].
      exists prev, alpha, beta'. rewrite Hother by (left; lia). auto.
Qed.

(** The loop over the interior states at one time step before the last. *)
Lemma inner_loop_fills it :
  1 <= it < L - 1 ->
  forall todo g,
    (forall s, In s todo -> In s (states h)) ->
    dmem g it = true ->
    (1 < it ->
     forall p, In p (states h) -> cell_filled h start sq C g (it - 1) p) ->
    exists g',
      foldM (fun g st => _dp_helper h it st sq g C) todo g = Ok g' /\
      (forall s, In s todo -> cell_filled h start sq C g' it s) /\
      (forall s, cell_filled h start sq C g it s ->
                 cell_filled h start sq C g' it s) /\
      (forall i s, i <> it -> gcell g' i s = gcell g i s) /\
      (forall i, dmem g' i = dmem g i).
Proof.
  intros Hit todo; induction todo as [|st todo IH]; intros g Hsub Hrow Hprev.
  - exists g. simpl. repeat split; auto. intros s [].
  - destruct (dp_helper_fills g it st) as (g1 & Hg1 & Hcell & Hother & Hkeys);
      [lia | assumption | left; split; [lia | apply Hsub; now left]
      | assumption |].
    cbn [foldM]. rewrite Hg1; cbn [bind].
    destruct (IH g1) as (g' & Hg' & Hnew & Hkeep & Hrows & Hkeys').
    { intros s Hs; apply Hsub; now right. }
    { now rewrite Hkeys. }
    { intros Hlt p Hp. apply (cell_filled_same _ _ _ _ g); [| |now apply Hprev].
      - apply Hother. left; lia.
      - intros q. apply Hother. left; lia. }
    exists g'. split; [assumption|].
    assert (Hstep : forall s, cell_filled h start sq C g it s \/ s = st ->
                              cell_filled h start sq C g1 it s).
    { intros s [Hs | ->]; [|assumption].
      destruct (string_dec s st) as [->|Hne']; [assumption|].
      apply (cell_filled_same _ _ _ _ g); [| |assumption].
      - apply Hother. now right.
      - intros q. apply Hother. left; lia. }
    split; [|split; [|split]].
    + intros s [ <- | Hs]; [apply Hkeep, Hstep; now right | now apply Hnew].
    + intros s Hs. apply Hkeep, Hstep. now left.
    + intros i s Hi. rewrite Hrows by assumption. apply Hother. now left.
    + intros i. now rewrite Hkeys', Hkeys.
Qed.

(** The loop of [viterbi] over the time steps from [t + 1] on. *)
Lemma outer_loop_fills n :
  forall (t : nat) g,
    (t + n = List.length sq - 1)%nat ->
    rows_filled h start stop sq C g (Z.of_nat t) ->
    exists g',
      foldM (fun g iteration =>
               if iteration =? L - 1 then
                 stop <- getitem (end_states h) 1 ;;
                 _dp_helper h iteration stop sq g C
               else
                 foldM (fun g st => _dp_helper h iteration st sq g C)
                       (states h) g)
            (map Z.of_nat (seq (S t) n)) g = Ok g' /\
      rows_filled h start stop sq C g' (L - 1).
Proof.
  induction n as [|n IH]; intros t g Htn (Hkeys & Hcells & Hlast).
  - exists g. split; [reflexivity|].
    replace (L - 1) with (Z.of_nat t) by lia.
    split; [|split]; assumption.
  - cbn [seq map foldM].
    assert (Hit : 1 <= Z.of_nat (S t) <= L - 1) by lia.
    assert (Hprev : 1 < Z.of_nat (S t) ->
                    forall p, In p (states h) ->
                      cell_filled h start sq C g (Z.of_nat (S t) - 1) p).
    { intros Hlt p Hp. apply Hcells; [lia | lia | assumption]. }
    destruct (Z.eqb_spec (Z.of_nat (S t)) (L - 1)) as [Heq|Hneq].
    + rewrite (bind_eq_Ok _ _ _ Hstop).
      destruct (dp_helper_fills g (Z.of_nat (S t)) stop)
        as (g1 & Hg1 & Hcell & Hother & Hkeys1);
        [assumption | now apply Hkeys | right; split; [assumption | reflexivity]
        | assumption |].
      rewrite Hg1; cbn [bind].
      apply (IH (S t) g1); [lia|].
      split; [|split].
      * intros i Hi. rewrite Hkeys1. now apply Hkeys.
      * intros i s Hi Hlt Hs. apply (cell_filled_same _ _ _ _ g).
        -- apply Hother. left; lia.
        -- intros q. apply Hother. left; lia.
        -- apply Hcells; [lia | assumption | assumption].
      * intros _. assumption.
    + destruct (inner_loop_fills (Z.of_nat (S t)) ltac:(lia) (states h) g)
        as (g1 & Hg1 & Hnew & Hkeep & Hrows & Hkeys1);
        [auto | now apply Hkeys | assumption |].
      rewrite Hg1; cbn [bind].
      apply (IH (S t) g1); [lia|].
      split; [|split].
      * intros i Hi. rewrite Hkeys1. now apply Hkeys.
      * intros i s Hi Hlt Hs.
        destruct (Z.eq_dec i (Z.of_nat (S t))) as [->|Hne'].
        -- now apply Hnew.
        -- apply (cell_filled_same _ _ _ _ g).
           ++ now apply Hrows.
           ++ intros q. apply Hrows. lia.
           ++ apply Hcells; [lia | assumption | assumption].
      * intros Heq. contradiction.
Qed.

Lemma dmem_init_graph (keys : list Z) i :
  In i keys -> dmem (map (fun i => (i, @nil (state * node))) keys) i = true.
Proof.
  intros Hin. apply dmem_keys. unfold dkeys. rewrite map_map. cbn [fst].
  now rewrite map_id.
Qed.

Lemma In_range1 (n : nat) i :
  1 <= i <= Z.of_nat n - 1 -> In i (range1 n).
Proof.
  intros Hi. unfold range1. apply in_map_iff. exists (Z.to_nat i).
  split; [lia|]. apply in_seq. lia.
Qed.

(** [viterbi] returns a graph with every row filled. *)
Lemma viterbi_fills :
  _check_end_states h sq = Ok true ->
  exists g, viterbi h sq C = Ok g /\
            rows_filled h start stop sq C g (L - 1).
Proof.
  intros Hcheck. unfold viterbi. rewrite Hcheck; cbn [bind].
  unfold range1 at 2.
  apply (outer_loop_fills (List.length sq - 1) 0); [lia|].
  split; [|split].
  - intros i Hi. apply dmem_init_graph. now apply In_range1.
  - intros i s Hi. lia.
  - intros Hz. lia.
Qed.

Lemma rev_seq_S (n : nat) : rev (seq 0 (S n)) = n :: rev (seq 0 n).
Proof. rewrite seq_S, rev_app_distr. reflexivity. Qed.

Lemma firstn_S_nth {A : Type} (l : list A) (n : nat) (a : A) :
  nth_error l n = Some a -> firstn (S n) l = firstn n l ++ [a].
Proof.
  revert n; induction l as [|x l IH]; intros [|n] Hn; simpl in *;
    try discriminate.
  - now inversion Hn.
  - f_equal. now apply IH.
Qed.

(** The backtrace of [viterbi_predict] over the positions below [n], on a
    filled graph: it prepends one pair per position, with the word of the
    position, START as the first state and interior states after it; the
    score of the cell it starts from is the score of the states it
    collects. *)
Lemma backtrace_defined g :
  rows_filled h start stop sq C g (L - 1) ->
  forall (n : nat) child rest,
    Z.of_nat n <= L - 1 ->
    (n = 0%nat \/ cell_filled h start sq C g (Z.of_nat n) (snd child)) ->
    exists new,
      foldM (backtrace_step sq g) (rev (seq 0 n)) (child :: rest)
      = Ok (new ++ child :: rest) /\
      map fst new = map fst (firstn n sq) /\
      (n <> 0%nat ->
       exists mids, map snd new = start :: mids /\
                    Forall (fun s => In s (states h)) mids /\
                    forall nd, gcell g (Z.of_nat n) (snd child) = Some nd ->
                      (snd nd ==
                       path_score h sq C 1 start (mids ++ [snd child]))%Q).
Proof.
  intros (Hkeys & Hcells & Hlast) n.
  induction n as [|m IH]; intros child rest Hn Hchild.
  - exists []. split; [reflexivity|]. split; [reflexivity | congruence].
  - rewrite rev_seq_S. cbn [foldM].
    destruct (nth_error sq m) as [ws|] eqn:Ews;
      [|apply nth_error_None in Ews; lia].
    destruct Hchild as [?|(nd & Hnd & Hbp & Hrec)]; [discriminate|].
    assert (Hstep : backtrace_step sq g (child :: rest) m
                    = Ok ((fst ws, fst nd) :: child :: rest)).
    { unfold backtrace_step, getitem. rewrite Ews; cbn [bind nth_error].
      replace (Z.of_nat m + 1) with (Z.of_nat (S m)) by lia.
      pose proof Hnd as Hnd'.
      apply gcell_Some in Hnd' as (row & Hrow & Hcell).
      unfold dindex. rewrite Hrow; cbn [bind]. now rewrite Hcell. }
    rewrite Hstep; cbn [bind].
    unfold backpointer_ok in Hbp. unfold recurrence in Hrec.
    destruct (IH (fst ws, fst nd) (child :: rest)) as (new & Hnew & Hfst & Hsnd).
    { lia. }
    { destruct m as [|m']; [now left|]. right. cbn [snd].
      destruct (Z.eqb_spec (Z.of_nat (S (S m'))) 1) as [?|_]; [lia|].
      apply Hcells; [lia | lia | assumption]. }
    exists (new ++ [(fst ws, fst nd)]). rewrite <- app_assoc. cbn [app].
    split; [assumption|]. split.
    + rewrite map_app, Hfst, (firstn_S_nth _ _ _ Ews), map_app. reflexivity.
    + intros _. destruct m as [|m'].
      * assert (new = []) as ->.
        { destruct new; [reflexivity | discriminate Hfst]. }
        exists []. cbn [app map snd].
        destruct (Z.eqb_spec (Z.of_nat 1) 1) as [_|?]; [|lia].
        split; [now rewrite Hbp|]. split; [constructor|].
        intros nd0 Hnd0. rewrite Hnd in Hnd0. inversion Hnd0; subst nd0.
        destruct Hrec as (alpha & beta & Ha & Hb & ->).
        cbn [path_score snd]. rewrite Ha. unfold step_emission.
        destruct (Z.eqb_spec 1 (L - 1)) as [?|_]; [lia|].
        rewrite Hb. cbn [or_zero]. ring.
      * destruct Hsnd as (mids & Hmids & Hall & Hscore); [discriminate|].
        destruct (Z.eqb_spec (Z.of_nat (S (S m'))) 1) as [?|_]; [lia|].
        exists (mids ++ [fst nd]). rewrite map_app, Hmids. cbn [map snd app].
        split; [reflexivity|]. split.
        { apply Forall_app; split; [assumption|].
          constructor; [assumption | constructor]. }
        intros nd0 Hnd0. rewrite Hnd in Hnd0. inversion Hnd0; subst nd0.
        destruct Hrec as (nodes & Hcand & pre & post & Hnodes & _).
        destruct (Forall2_In_r _ _ _ nd Hcand) as (p & _ & Hp).
        { rewrite Hnodes. apply in_or_app. right; now left. }
        destruct Hp as (prev & alpha & beta & Hprev & Ha & Hb & Hnd1).
        assert (Hlen : List.length mids = m').
        { assert (Hl : List.length new = S m').
          { rewrite <- (length_map fst new), Hfst, length_map, length_firstn.
            lia. }
          rewrite <- (length_map snd new), Hmids in Hl.
          cbn [List.length] in Hl. lia. }
        replace (Z.of_nat (S (S m')) - 1) with (Z.of_nat (S m')) in Hprev
          by lia.
        rewrite Hnd1 in *. cbn [fst snd] in *.
        rewrite path_score_snoc, last_last.
        replace (1 + Z.of_nat (List.length (mids ++ [p])))
          with (Z.of_nat (S (S m')))
          by (rewrite length_app; cbn [List.length]; lia).
        rewrite Ha, Hb. cbn [or_zero].
        rewrite <- (Hscore prev Hprev). ring.
Qed.

(** Decoding a sequence of at least three pairs that passes the boundary
    check returns: one pair per position, with the words of the sequence
    (the last one replaced by the empty word), START first, interior states
    in between and STOP last. *)
Lemma viterbi_label_sequence_defined :
  _check_end_states h sq = Ok true ->
  exists new mids,
    viterbi_label_sequence h sq C = Ok (new ++ [(EmptyString, stop)]) /\
    map fst new = map fst (removelast sq) /\
    map snd new = start :: mids /\
    Forall (fun s => In s (states h)) mids.
Proof.
  intros Hcheck. destruct (viterbi_fills Hcheck) as (g & Hg & Hfilled).
  unfold viterbi_label_sequence. rewrite Hg; cbn [bind].
  rewrite Hstop; cbn [bind].
  destruct (backtrace_defined g Hfilled (List.length sq - 1)
              (EmptyString, stop) []) as (new & Hnew & Hfst & Hsnd).
  { lia. }
  { right. cbn [snd]. destruct Hfilled as (_ & _ & Hlast).
    replace (Z.of_nat (List.length sq - 1)) with (L - 1) by lia.
    now apply Hlast. }
  destruct Hsnd as (mids & Hmids & Hall & _); [lia|].
  exists new, mids. rewrite Hnew.
  split; [reflexivity|]. split; [|split; assumption].
  rewrite Hfst. f_equal. symmetry.
  rewrite removelast_firstn_len. f_equal. lia.
Qed.

Hypothesis HC : (0 <= C)%Q.
Hypothesis Htrans_nonneg :
  forall s t p, get_transition_probability h s t = Ok p -> (0 <= p)%Q.
Hypothesis Hemit_nonneg :
  forall s w p, get_emission_probability h s w = Ok p -> (0 <= p)%Q.

Lemma step_emission_nonneg i s beta :
  step_emission h sq i s = Ok beta -> (0 <= beta)%Q.
Proof.
  unfold step_emission. destruct (i =? L - 1).
  - intros Hb; inversion Hb; subst. discriminate.
  - apply Hemit_nonneg.
Qed.

(** The score of a cell of a filled graph bounds the score of every run of
    interior states that ends in the state of the cell. *)
Lemma cell_upper_bound g :
  rows_filled h start stop sq C g (L - 1) ->
  forall (n : nat) s nd path,
    (1 <= n)%nat ->
    (Z.of_nat n < L - 1 /\ In s (states h)) \/
    (Z.of_nat n = L - 1 /\ s = stop) ->
    gcell g (Z.of_nat n) s = Some nd ->
    List.length path = (n - 1)%nat ->
    Forall (fun s => In s (states h)) path ->
    (path_score h sq C 1 start (path ++ [s]) <= snd nd)%Q.
Proof.
  intros (Hkeys & Hcells & Hlast) n.
  induction n as [|m IH]; intros s nd path Hn Hs Hnd Hlen Hall; [lia|].
  assert (Hfilled : cell_filled h start sq C g (Z.of_nat (S m)) s).
  { destruct Hs as [[Hlt Hin] | [Heq ->]].
    - apply Hcells; [lia | assumption | assumption].
    - rewrite Heq. now apply Hlast. }
  destruct Hfilled as (nd' & Hnd' & _ & Hrec).
  rewrite Hnd in Hnd'. inversion Hnd'; subst nd'. clear Hnd'.
  unfold recurrence in Hrec.
  destruct m as [|m'].
  - destruct path; [|discriminate].
    destruct (Z.eqb_spec (Z.of_nat 1) 1) as [_|?]; [|lia].
    destruct Hrec as (alpha & beta & Ha & Hb & ->).
    cbn [app path_score snd]. rewrite Ha. unfold step_emission.
    destruct (Z.eqb_spec 1 (L - 1)) as [?|_]; [lia|].
    rewrite Hb. cbn [or_zero]. apply Qle_lteq. right. ring.
  - destruct (Z.eqb_spec (Z.of_nat (S (S m'))) 1) as [?|_]; [lia|].
    destruct Hrec as (nodes & Hcand & Hmax).
    destruct (exists_last (l := path)) as (path' & p & ->).
    { intros ->; discriminate. }
    rewrite length_app in Hlen. cbn [List.length] in Hlen.
    apply Forall_app in Hall as [Hall' Hp].
    inversion Hp as [|? ? Hpin _]; subst.
    destruct (Forall2_In_l _ _ _ p Hcand Hpin)
      as (cand & Hin & prev & alpha & beta & Hprev & Ha & Hb & ->).
    replace (Z.of_nat (S (S m')) - 1) with (Z.of_nat (S m')) in Hprev by lia.
    assert (Hlt : Z.of_nat (S m') < L - 1)
      by (destruct Hs as [[? _]|[? _]]; lia).
    pose proof (IH p prev path' ltac:(lia) (or_introl (conj Hlt Hpin))
                  Hprev ltac:(lia) Hall') as Hle.
    apply Qle_trans with (snd (p, (snd prev * alpha * beta * C)%Q));
      [|now apply (first_max_upper nodes)].
    cbn [snd]. rewrite path_score_snoc, last_last.
    replace (1 + Z.of_nat (List.length (path' ++ [p])))
      with (Z.of_nat (S (S m')))
      by (rewrite length_app; cbn [List.length]; lia).
    rewrite Ha, Hb. cbn [or_zero].
    setoid_replace (snd prev * alpha * beta * C)%Q
      with (snd prev * (alpha * beta * C))%Q by ring.
    apply Qmult_le_compat_r; [exact Hle|].
    apply Qmult_le_0_compat; [apply Qmult_le_0_compat|assumption].
    + now apply (Htrans_nonneg p s).
    + now apply (step_emission_nonneg (Z.of_nat (S (S m'))) s).
Qed.

(** The states the backtrace returns score at least as much as every
    other run of interior states of the same length. *)
Lemma viterbi_label_sequence_optimal :
  _check_end_states h sq = Ok true ->
  exists new mids,
    viterbi_label_sequence h sq C = Ok (new ++ [(EmptyString, stop)]) /\
    map snd new = start :: mids /\
    List.length mids = (List.length sq - 2)%nat /\
    forall path,
      List.length path = List.length mids ->
      Forall (fun s => In s (states h)) path ->
      (path_score h sq C 1 start (path ++ [stop]) <=
       path_score h sq C 1 start (mids ++ [stop]))%Q.
Proof.
  intros Hcheck. destruct (viterbi_fills Hcheck) as (g & Hg & Hfilled).
  unfold viterbi_label_sequence. rewrite Hg; cbn [bind].
  rewrite Hstop; cbn [bind].
  assert (Hcell : cell_filled h start sq C g
                    (Z.of_nat (List.length sq - 1)) stop).
  { destruct Hfilled as (_ & _ & Hlast).
    replace (Z.of_nat (List.length sq - 1)) with (L - 1) by lia.
    now apply Hlast. }
  destruct (backtrace_defined g Hfilled (List.length sq - 1)
              (EmptyString, stop) []) as (new & Hnew & Hfst & Hsnd);
    [lia | now right |].
  destruct Hsnd as (mids & Hmids & Hall & Hscore); [lia|].
  cbn [snd] in Hscore.
  assert (Hlen : List.length mids = (List.length sq - 2)%nat).
  { assert (Hl : List.length new = (List.length sq - 1)%nat).
    { rewrite <- (length_map fst new), Hfst, length_map, length_firstn. lia. }
    rewrite <- (length_map snd new), Hmids in Hl. cbn [List.length] in Hl.
    lia. }
  exists new, mids. rewrite Hnew.
  split; [reflexivity|]. split; [assumption|]. split; [assumption|].
  intros path Hpl Hpath.
  destruct Hcell as (nd & Hnd & _).
  rewrite <- (Hscore nd Hnd).
  apply (cell_upper_bound g Hfilled (List.length sq - 1) stop nd path);
    [lia | right; split; [lia | reflexivity] | assumption | lia | assumption].
Qed.
End ViterbiReturns.

(** In a trained model with at least one interior state, Viterbi decoding
    of any sequence of at least three pairs that passes the boundary check
    returns, for every scaling constant: it never fails on a missing key or
    an empty maximum, even when every path has probability 0.  The result
    has one pair per position, with the words of the sequence (the last one
    replaced by the empty word), START as the first state, STOP as the last
    one and interior states in between. *)
Theorem viterbi_decodes_every_sentence h0 obs h sq C start stop :
  train h0 obs = Ok h ->
  states h0 <> [] ->
  getitem (end_states h0) 0 = Ok start ->
  getitem (end_states h0) 1 = Ok stop ->
  _check_end_states h sq = Ok true ->
  (3 <= List.length sq)%nat ->
  exists new mids,
    viterbi_label_sequence h sq C = Ok (new ++ [(EmptyString, stop)]) /\
    map fst new = map fst (removelast sq) /\
    map snd new = start :: mids /\
    Forall (fun s => In s (states h0)) mids /\
    List.length (new ++ [(EmptyString, stop)]) = List.length sq.
Proof.
  intros Ht Hne Hstart Hstop Hcheck HL.
  destruct (train_fields _ _ _ Ht) as (_ & _ & _ & _ & _ & Hs & Hes).
  destruct (viterbi_label_sequence_defined h start stop sq C)
    as (new & mids & Hv & Hfst & Hsnd & Hall);
    try (rewrite ?Hs, ?Hes; assumption).
  - intros s t Hin. eapply trained_transition_defined; eauto.
    rewrite (source_states_start _ _ Hstart). now rewrite <- Hs.
  - intros s w Hin. eapply trained_emission_defined; eauto. now rewrite <- Hs.
  - lia.
  - exists new, mids. rewrite Hs in Hall.
    repeat (split; [assumption|]).
    rewrite length_app. cbn [List.length].
    assert (Hlen : List.length new = List.length (removelast sq)).
    { now rewrite <- (length_map fst new), Hfst, length_map. }
    rewrite Hlen, removelast_firstn_len, length_firstn. lia.
Qed.

(** The statement at the model of [Example] and the sentence x x. *)
Lemma viterbi_decodes_every_sentence_witness :
  exists h new mids,
    train Example.hmm0 Example.corpus = Ok h /\
    viterbi_label_sequence h Example.sentence default_scaling_constant
    = Ok (new ++ [(EmptyString, "STOP"%string)]) /\
    map snd new = "START"%string :: mids /\
    Forall (fun s => In s (states Example.hmm0)) mids.
Proof.
  eexists.
  match goal with
  | |- exists new mids, train ?h0 ?obs = Ok ?h /\ _ =>
      assert (Ht : train h0 obs = Ok h) by (vm_compute; reflexivity);
      destruct (viterbi_decodes_every_sentence h0 obs h Example.sentence
                  default_scaling_constant "START"%string "STOP"%string Ht)
        as (new & mids & Hv & _ & Hsnd & Hall & _);
        [discriminate | reflexivity | reflexivity | reflexivity
        | simpl; lia |];
      exists new, mids
  end.
  repeat split; assumption.
Defined.

(** ** Viterbi decoding is optimal *)

Lemma trained_transition_nonneg h obs h' s t p :
  train h obs = Ok h' ->
  get_transition_probability h' s t = Ok p -> (0 <= p)%Q.
Proof.
  intros Ht. unfold get_transition_probability, dindex.
  destruct (dget (transition_probs h') s) as [row|] eqn:Erow; [|discriminate].
  cbn [bind]. intros Hp; inversion Hp; subst p. unfold dget_default.
  destruct (dget row t) as [q|] eqn:Eq; [|discriminate].
  apply Qlt_le_weak.
  apply (trained_transition_entries h obs h' s row t q Ht);
    now apply dget_In.
Qed.

Lemma trained_emission_nonneg h obs h' s w p :
  train h obs = Ok h' ->
  get_emission_probability h' s w = Ok p -> (0 <= p)%Q.
Proof.
  intros Ht. unfold get_emission_probability, dindex.
  destruct (dget (emission_probs h') s) as [row|] eqn:Erow;
    [|destruct (negb _); discriminate].
  destruct (negb (dmem (training_words h') w)); cbn [bind].
  - destruct (dget row UNKNOWN_TOKEN) as [q|] eqn:Eq; [|discriminate].
    intros Hp; inversion Hp; subst p. apply Qlt_le_weak.
    apply (trained_emission_entries h obs h' s row UNKNOWN_TOKEN q Ht);
      now apply dget_In.
  - intros Hp; inversion Hp; subst p. unfold dget_default.
    destruct (dget row w) as [q|] eqn:Eq; [|discriminate].
    apply Qlt_le_weak.
    apply (trained_emission_entries h obs h' s row w q Ht);
      now apply dget_In.
Qed.



(** The limit of the statement above.  In the arithmetic of the program
    the scores of a sentence of 108 unknown tokens underflow to 0 with the
    scaling constant 1: every candidate of the STOP cell is 0, the first
    state, A, is kept, and the path returned ends with the transition from
    A to STOP, which was never observed and has probability 0, although B
    is followed by STOP in the corpus. *)
Lemma viterbi_underflow_binary64 :
  let h := Binary64.HMM_init ["START"; "STOP"; "A"; "B"]%string in
  let obs : list sequence :=
    [ (""%string, "START"%string)
      :: repeat ("y"%string, "A"%string) 1000
      ++ repeat ("y"%string, "B"%string) 1000
      ++ [(""%string, "STOP"%string)] ] in
  let sq : sequence :=
    (""%string, "START"%string)
    :: repeat ("z"%string, ""%string) 108 ++ [(""%string, "STOP"%string)] in
  exists h' out p,
    Binary64.train h obs = Ok h' /\
    Binary64.viterbi_label_sequence h' sq (Binary64.float_of_Z 1) = Ok out /\
    map snd (skipn 108 out) = ["A"; "STOP"]%string /\
    Binary64.get_transition_probability h' "A" "STOP" = Ok Binary64.zero /\
    Binary64.get_transition_probability h' "B" "STOP" = Ok p /\
    PrimFloat.ltb Binary64.zero p = true.
Proof.
  cbv zeta. eexists; eexists; eexists.
  split; [vm_compute; reflexivity|].
  split; [vm_compute; reflexivity|].
  repeat split; vm_compute; reflexivity.
Qed.

(** ** Decoding before training *)

Lemma check_end_states_Ok_ends h sq b :
  _check_end_states h sq = Ok b ->
  exists start stop, getitem (end_states h) 0 = Ok start /\
                     getitem (end_states h) 1 = Ok stop.
Proof.
  unfold _check_end_states; intros Hc.
  apply bind_Ok in Hc as (first & _ & Hc).
  apply bind_Ok in Hc as (start & Hstart & Hc).
  destruct (negb (keqb (snd first) start)); [discriminate|].
  apply bind_Ok in Hc as (lst & _ & Hc).
  apply bind_Ok in Hc as (stop & Hstop & Hc). eauto.
Qed.

Lemma dp_helper_untrained h st sq g C stop :
  transition_probs h = [] ->
  getitem (end_states h) 1 = Ok stop ->
  (2 <= List.length sq)%nat ->
  In st (states h ++ [stop]) ->
  (exists start, getitem (end_states h) 0 = Ok start) ->
  _dp_helper h 1 st sq g C = Raise KeyError.
Proof.
  intros Htp Hstop HL Hst [start Hstart]. unfold _dp_helper.
  destruct (Z.geb_spec 1 (Z.of_nat (List.length sq))) as [?|_]; [lia|].
  cbn [Z.ltb Z.compare Pos.compare Pos.compare_cont orb].
  rewrite Hstop; cbn [bind].
  apply list_mem_In in Hst. rewrite Hst; cbn [negb].
  destruct (getitem sq (Z.to_nat 1)) as [ws|] eqn:Ews.
  - cbn [bind Z.eqb Pos.eqb]. rewrite Hstart; cbn [bind].
    unfold get_transition_probability. rewrite Htp. reflexivity.
  - unfold getitem in Ews.
    destruct (nth_error sq (Z.to_nat 1)) eqn:En; [discriminate|].
    apply nth_error_None in En. lia.
Qed.

(** Before training, the naive decoder raises its own exception on every
    sequence, while the Viterbi decoder has no such guard: on a sequence of
    at least two pairs that passes the boundary check, with at least one
    interior state configured, it fails with [KeyError] at its first
    transition lookup. *)
Theorem decoding_before_training sts sq C :
  let h := HMM_init sts in
  naive_label_sequence h sq = Raise EmissionEmpty /\
  (_check_end_states h sq = Ok true ->
   (2 <= List.length sq)%nat ->
   states h <> [] ->
   viterbi h sq C = Raise KeyError).
Proof.
  intros h. split; [reflexivity|].
  intros Hcheck HL Hne.
  destruct (check_end_states_Ok_ends _ _ _ Hcheck) as (start & stop & Hs & Hp).
  unfold viterbi. rewrite Hcheck; cbn [bind].
  unfold range1.
  destruct (List.length sq) as [|[|n]] eqn:El; try lia.
  replace (S (S n) - 1)%nat with (S n) by lia. cbn [seq map foldM].
  assert (Hdp : forall st g, In st (states h ++ [stop]) ->
                             _dp_helper h 1 st sq g C = Raise KeyError).
  { intros st g Hst. apply (dp_helper_untrained h st sq g C stop);
      [reflexivity | assumption | lia | assumption | eauto]. }
  change (Z.of_nat 1) with 1.
  destruct (1 =? Z.of_nat (S (S n)) - 1).
  - rewrite (bind_eq_Ok _ _ _ Hp).
    rewrite Hdp by (apply in_or_app; right; now left). reflexivity.
  - destruct (states h) as [|s0 rest] eqn:Es; [congruence|].
    cbn [foldM]. rewrite Hdp by (now left). reflexivity.
Qed.

(** The statement at the untrained model of [Example]. *)
Lemma decoding_before_training_witness :
  naive_label_sequence Example.hmm0 Example.sentence = Raise EmissionEmpty /\
  viterbi Example.hmm0 Example.sentence default_scaling_constant
  = Raise KeyError.
Proof.
  destruct (decoding_before_training ["START"; "STOP"; "A"; "B"]%string
              Example.sentence default_scaling_constant) as [Hn Hv].
  split; [exact Hn|].
  apply Hv; [reflexivity | simpl; lia | discriminate].
Defined.

(** ** Reading a test file *)

Lemma split_from_nonempty sep s :
  forall k cur, split_from sep s k cur <> [].
Proof.
  induction s as [|c s IH]; intros k cur; cbn [split_from]; [discriminate|].
  destruct k; [|apply IH].
  destruct (String.prefix sep (String c s)); [discriminate | apply IH].
Qed.

Lemma for_each_map {A B : Type} (f : A -> outcome B) (g : A -> B)
    (l : list A) :
  (forall a, f a = Returns (g a)) -> for_each f l = Returns (map g l).
Proof.
  intros Hf. induction l as [|a l IH]; [reflexivity|].
  cbn [for_each map]. rewrite Hf; cbn [and_then]. now rewrite IH.
Qed.

Lemma mapM_map {A B C : Type} (f : B -> result C) (g : A -> B) (k : A -> C)
    (l : list A) :
  (forall a, f (g a) = Ok (k a)) -> mapM f (map g l) = Ok (map k l).
Proof.
  intros Hf. induction l as [|a l IH]; [reflexivity|].
  cbn [mapM map]. rewrite Hf; cbn [bind]. now rewrite IH.
Qed.

Lemma line_tuple_test data_type line :
  lower data_type = "test"%string ->
  line_tuple data_type line = Returns [rstrip line; EmptyString].
Proof. intros Hdt. unfold line_tuple. rewrite Hdt. reflexivity. Qed.

(** The deques [process_file] builds in test mode. *)
Lemma process_file_test h text data_type start stop :
  lower data_type = "test"%string ->
  getitem (end_states h) 0 = Ok start ->
  getitem (end_states h) 1 = Ok stop ->
  process_file h text data_type
  = Returns (map (fun sentence =>
                    map (fun ws : word * state => [fst ws; snd ws])
                        (test_sequence start stop sentence))
                 (split (newline ++ newline) (rstrip text))).
Proof.
  intros Hdt Hstart Hstop. unfold process_file. rewrite Hdt. cbn [list_mem].
  change (negb (existsb (keqb "test"%string) ["train"%string; "test"%string]))
    with false. cbv iota.
  apply for_each_map. intros sentence. unfold sentence_deque.
  rewrite (for_each_map _ (fun line => [rstrip line; EmptyString]))
    by (intros line; now apply line_tuple_test).
  cbn [and_then]. rewrite Hstart, Hstop. cbn [lift and_then].
  unfold test_sequence. cbn [map fst snd]. rewrite map_app, map_map.
  reflexivity.
Qed.

Lemma unpack_pairs (sq : sequence) :
  mapM unpack (map (fun ws : word * state => [fst ws; snd ws]) sq) = Ok sq.
Proof.
  rewrite (mapM_map unpack _ (fun ws => ws)); [now rewrite map_id|].
  now intros [w st].
Qed.

Lemma test_sequence_checked h start stop sentence :
  getitem (end_states h) 0 = Ok start ->
  getitem (end_states h) 1 = Ok stop ->
  _check_end_states h (test_sequence start stop sentence) = Ok true /\
  (3 <= List.length (test_sequence start stop sentence))%nat.
Proof.
  intros Hstart Hstop. unfold test_sequence. split.
  - unfold _check_end_states.
    match goal with
    | |- context [getitem (?x :: ?l) 0] =>
        change (getitem (x :: l) 0) with (Ok x);
        rewrite (getitem_last (x :: l) x) by discriminate;
        rewrite app_comm_cons, last_last
    end.
    cbn [bind snd]. rewrite Hstart; cbn [bind].
    destruct (keqb_spec start start) as [_|?]; [|contradiction].
    cbn [negb]. rewrite Hstop; cbn [bind].
    destruct (keqb_spec stop stop) as [_|?]; [|contradiction]. reflexivity.
  - cbn [List.length]. rewrite length_app, length_map. cbn [List.length].
    assert (Hne : split newline sentence <> [])
      by apply split_from_nonempty.
    destruct (split newline sentence); [contradiction|].
    cbn [List.length]. lia.
Qed.

(** In test mode, on a model with START and STOP, [process_file] returns
    for every text and never raises its format exception.  The deques it
    returns hold pairs only: one sequence per sentence of the text, with
    one pair per line between a START pair and a STOP pair.  There is at
    least one sequence, even for an empty text, and every sequence has at
    least three pairs and passes the boundary check. *)
Theorem process_file_test_mode h text data_type start stop :
  lower data_type = "test"%string ->
  getitem (end_states h) 0 = Ok start ->
  getitem (end_states h) 1 = Ok stop ->
  exists data sequences,
    process_file h text data_type = Returns data /\
    mapM (mapM unpack) data = Ok sequences /\
    sequences = map (test_sequence start stop) (sentences_of text) /\
    sequences <> [] /\
    Forall (fun sq => _check_end_states h sq = Ok true /\
                      (3 <= List.length sq)%nat) sequences.
Proof.
  intros Hdt Hstart Hstop. eexists. eexists.
  split; [now apply process_file_test with (start := start) (stop := stop)|].
  split; [|split; [reflexivity|split]].
  - apply mapM_map. intros sentence. apply unpack_pairs.
  - unfold sentences_of, split.
    pose proof (split_from_nonempty (newline ++ newline) (rstrip text)
                  0 EmptyString) as Hne.
    destruct (split_from _ _ _ _); [contradiction | discriminate].
  - apply Forall_forall. intros sq Hin.
    apply in_map_iff in Hin as (sentence & <- & _).
    now apply test_sequence_checked.
Qed.

(** The statement for the model of [Example] and the empty text. *)
Lemma process_file_test_mode_witness :
  exists data sequences,
    process_file Example.hmm0 EmptyString "test" = Returns data /\
    mapM (mapM unpack) data = Ok sequences /\
    sequences <> [].
Proof.
  destruct (process_file_test_mode Example.hmm0 EmptyString "test"%string
              "START"%string "STOP"%string eq_refl eq_refl eq_refl)
    as (data & sequences & Hd & Hs & _ & Hne & _).
  exists data, sequences. repeat split; assumption.
Defined.

(** ** Predicting from a test file *)

Lemma trained_emission_nonempty h0 obs h :
  train h0 obs = Ok h -> states h0 <> [] -> emission_probs h <> [].
Proof.
  intros Ht Hne Hempty.
  destruct (train_fields _ _ _ Ht) as (h1 & h3 & He & _ & _ & _ & _).
  destruct (states h0) as [|s sts] eqn:Es; [congruence|].
  pose proof (estimate_emission_keys _ _ _ _ _ He s) as Hk.
  rewrite Hempty, Es in Hk. cbn [dmem dget list_mem existsb] in Hk.
  destruct (keqb_spec s s) as [_|?]; [discriminate | contradiction].
Qed.

Lemma trained_viterbi_returns h0 obs h sq C start stop :
  train h0 obs = Ok h ->
  states h0 <> [] ->
  getitem (end_states h0) 0 = Ok start ->
  getitem (end_states h0) 1 = Ok stop ->
  _check_end_states h sq = Ok true ->
  (3 <= List.length sq)%nat ->
  exists new mids,
    viterbi_label_sequence h sq C = Ok (new ++ [(EmptyString, stop)]) /\
    map fst new = map fst (removelast sq) /\
    map snd new = start :: mids /\
    Forall (fun s => In s (states h0)) mids.
Proof.
  intros Ht Hne Hstart Hstop Hcheck HL.
  destruct (train_fields _ _ _ Ht) as (_ & _ & _ & _ & _ & Hs & Hes).
  destruct (viterbi_label_sequence_defined h start stop sq C)
    as (new & mids & Hv & Hfst & Hsnd & Hall);
    try (rewrite ?Hs, ?Hes; assumption).
  - intros s t Hin. eapply trained_transition_defined; eauto.
    rewrite (source_states_start _ _ Hstart). now rewrite <- Hs.
  - intros s w Hin. eapply trained_emission_defined; eauto. now rewrite <- Hs.
  - lia.
  - exists new, mids. rewrite Hs in Hall. auto.
Qed.

Lemma naive_label_sequence_returns h sq start stop :
  emission_probs h <> [] ->
  getitem (end_states h) 0 = Ok start ->
  getitem (end_states h) 1 = Ok stop ->
  exists labels,
    naive_label_sequence h sq
    = Ok ((EmptyString, start) :: labels ++ [(EmptyString, stop)]) /\
    Forall2 (fun ws lab =>
               fst lab = fst ws /\ first_argmax h (fst ws) (snd lab))
            (filter (emitting h) sq) labels.
Proof.
  intros Hne Hstart Hstop. unfold naive_label_sequence.
  destruct (emission_probs h) as [|e0 tbl] eqn:Et; [congruence|].
  cbn [is_empty]. rewrite Hstart; cbn [bind].
  destruct (naive_loop_labels h sq [(EmptyString, start)])
    as (labels & Hl & Hall); [congruence|].
  exists labels. rewrite Hl; cbn [bind]. rewrite Hstop; cbn [bind].
  split; [reflexivity | assumption].
Qed.

Lemma predict_eq h text decoding_type start stop :
  getitem (end_states h) 0 = Ok start ->
  getitem (end_states h) 1 = Ok stop ->
  predict h text decoding_type
  = and_then
      (if String.eqb (lower decoding_type) "viterbi"
       then lift (viterbi_predict h
                    (map (test_sequence start stop) (sentences_of text)))
       else if String.eqb (lower decoding_type) "naive"
       then lift (naive_predict h
                    (map (test_sequence start stop) (sentences_of text)))
       else Fails WrongDecodingType)
      (fun predictions =>
         Returns (fold_left (write_prediction h) predictions EmptyString)).
Proof.
  intros Hstart Hstop. unfold predict.
  rewrite (process_file_test h text "test" start stop eq_refl Hstart Hstop).
  cbn [and_then].
  rewrite (mapM_map (mapM unpack) _ (test_sequence start stop))
    by (intros sentence; apply unpack_pairs).
  reflexivity.
Qed.

(** On a trained model with at least one interior state, [predict]
    returns for every text when the decoding type is "viterbi" or "naive"
    in any letter case, writing one prediction per sentence of the text;
    for every other decoding type it raises "Wrong decoding type".  No
    exception of the decoders is reachable through [predict]. *)
Theorem predict_decoding_types h0 obs h text decoding_type start stop :
  train h0 obs = Ok h ->
  states h0 <> [] ->
  getitem (end_states h0) 0 = Ok start ->
  getitem (end_states h0) 1 = Ok stop ->
  (lower decoding_type = "viterbi"%string \/
   lower decoding_type = "naive"%string ->
   exists predictions,
     predict h text decoding_type
     = Returns (fold_left (write_prediction h) predictions EmptyString) /\
     List.length predictions = List.length (sentences_of text)) /\
  (lower decoding_type <> "viterbi"%string ->
   lower decoding_type <> "naive"%string ->
   predict h text decoding_type = Fails WrongDecodingType).
Proof.
  intros Ht Hne Hstart Hstop.
  destruct (train_fields _ _ _ Ht) as (_ & _ & _ & _ & _ & Hs & Hes).
  assert (Hstart' : getitem (end_states h) 0 = Ok start) by now rewrite Hes.
  assert (Hstop' : getitem (end_states h) 1 = Ok stop) by now rewrite Hes.
  rewrite (predict_eq h text decoding_type start stop Hstart' Hstop').
  split.
  - intros Hdt.
    assert (Hdec :
      exists predictions,
        (if String.eqb (lower decoding_type) "viterbi"
         then lift (viterbi_predict h
                      (map (test_sequence start stop) (sentences_of text)))
         else if String.eqb (lower decoding_type) "naive"
         then lift (naive_predict h
                      (map (test_sequence start stop) (sentences_of text)))
         else Fails WrongDecodingType) = Returns predictions /\
        List.length predictions = List.length (sentences_of text)).
    { destruct (String.eqb_spec (lower decoding_type) "viterbi") as [_|Hv].
      - destruct (mapM_defined_rel
                    (fun sq => viterbi_label_sequence h sq
                                 default_scaling_constant)
                    (fun _ _ => True)
                    (map (test_sequence start stop) (sentences_of text)))
          as (predictions & Hp & Hall).
        { intros sq Hin. apply in_map_iff in Hin as (sentence & <- & _).
          destruct (test_sequence_checked h start stop sentence Hstart' Hstop')
            as [Hcheck Hlen].
          destruct (trained_viterbi_returns h0 obs h _
                      default_scaling_constant start stop
                      Ht Hne Hstart Hstop Hcheck Hlen) as (new & _ & Hv & _).
          eauto. }
        exists predictions. unfold viterbi_predict. rewrite Hp.
        split; [reflexivity|].
        apply Forall2_length in Hall. now rewrite <- Hall, length_map.
      - destruct Hdt as [?|Hn]; [contradiction|].
        destruct (String.eqb_spec (lower decoding_type) "naive") as [_|?];
          [|contradiction].
        destruct (mapM_defined_rel (naive_label_sequence h) (fun _ _ => True)
                    (map (test_sequence start stop) (sentences_of text)))
          as (predictions & Hp & Hall).
        { intros sq _.
          destruct (naive_label_sequence_returns h sq start stop)
            as (labels & Hl & _); eauto.
          eapply trained_emission_nonempty; eauto. }
        exists predictions. unfold naive_predict. rewrite Hp.
        split; [reflexivity|].
        apply Forall2_length in Hall. now rewrite <- Hall, length_map. }
    destruct Hdec as (predictions & -> & Hlen). cbn [and_then]. eauto.
  - intros Hv Hn.
    destruct (String.eqb_spec (lower decoding_type) "viterbi");
      [contradiction|].
    destruct (String.eqb_spec (lower decoding_type) "naive");
      [contradiction|].
    reflexivity.
Qed.

(** The statement for the model of [Example], a text of two sentences and
    the decoding type written Viterbi. *)
Lemma predict_decoding_types_witness :
  exists h predictions,
    train Example.hmm0 Example.corpus = Ok h /\
    predict h ("x" ++ newline ++ "y" ++ newline ++ newline ++ "zzz")
      "Viterbi"
    = Returns (fold_left (write_prediction h) predictions EmptyString) /\
    List.length predictions = 2%nat.
Proof.
  eexists.
  match goal with
  | |- exists predictions, train ?h0 ?obs = Ok ?h /\ _ =>
      assert (Ht : train h0 obs = Ok h) by (vm_compute; reflexivity);
      destruct (predict_decoding_types h0 obs h
                  ("x" ++ newline ++ "y" ++ newline ++ newline ++ "zzz")
                  "Viterbi" "START"%string "STOP"%string Ht)
        as [Hret _];
        [discriminate | reflexivity | reflexivity |];
      destruct (Hret (or_introl eq_refl)) as (predictions & Hp & Hlen);
      exists predictions
  end.
  repeat split; assumption.
Defined.

(** ** The text that is written *)

Lemma append_assoc (a b c : string) :
  ((a ++ b) ++ c = a ++ (b ++ c))%string.
Proof. induction a as [|x a IH]; [reflexivity|]. cbn. now rewrite IH. Qed.

Lemma append_empty_r (a : string) : (a ++ EmptyString)%string = a.
Proof. induction a as [|x a IH]; [reflexivity|]. cbn. now rewrite IH. Qed.

Lemma combine_fst_snd {A B : Type} (l : list (A * B)) :
  l = combine (map fst l) (map snd l).
Proof.
  induction l as [|[a b] l IH]; [reflexivity|]. cbn. now rewrite <- IH.
Qed.

Lemma mapM_map_defined_rel {A B C : Type} (f : B -> result C) (g : A -> B)
    (R : A -> C -> Prop) (l : list A) :
  (forall a, In a l -> exists c, f (g a) = Ok c /\ R a c) ->
  exists cs, mapM f (map g l) = Ok cs /\ Forall2 R l cs.
Proof.
  induction l as [|a l IH]; intros Hf; cbn [map mapM]; [eauto|].
  destruct (Hf a) as (c & Hc & Hr); [now left|]. rewrite Hc; cbn [bind].
  destruct IH as (cs & Hcs & Hall); [intros x Hx; apply Hf; now right|].
  rewrite Hcs; cbn [bind]. exists (c :: cs). split; [reflexivity|].
  now constructor.
Qed.

(** The output loop on pairs none of which carries an end state. *)
Lemma write_pairs h (l : sequence) :
  Forall (fun ws => list_mem (snd ws) (end_states h) = false) l ->
  forall out,
    fold_left (fun out (ws : word * state) =>
                 if list_mem (snd ws) (end_states h) then out
                 else (out ++ fst ws ++ blank ++ snd ws ++ newline)%string)
              l out
    = (out ++ join (map output_line l))%string.
Proof.
  induction 1 as [|ws l Hws _ IH]; intros out; cbn [fold_left map join].
  - now rewrite append_empty_r.
  - rewrite Hws, IH, append_assoc. reflexivity.
Qed.

(** The output loop on one prediction. *)
Lemma write_prediction_frame h out start stop body :
  list_mem start (end_states h) = true ->
  list_mem stop (end_states h) = true ->
  Forall (fun ws => list_mem (snd ws) (end_states h) = false) body ->
  write_prediction h out (frame start stop body)
  = (out ++ join (map output_line body) ++ newline)%string.
Proof.
  intros Hstart Hstop Hbody. unfold write_prediction, frame.
  cbn [fold_left snd]. rewrite Hstart, fold_left_app.
  rewrite (write_pairs h body Hbody).
  cbn [fold_left snd]. rewrite Hstop. now rewrite append_assoc.
Qed.

Lemma write_prediction_framed h out start stop sentence labels :
  list_mem start (end_states h) = true ->
  list_mem stop (end_states h) = true ->
  Forall (fun s => list_mem s (end_states h) = false) labels ->
  write_prediction h out (framed start stop sentence labels)
  = (out ++ output_block sentence labels)%string.
Proof.
  intros Hstart Hstop Hlabels.
  apply (write_prediction_frame h out start stop
           (combine (map rstrip (split newline sentence)) labels));
    try assumption.
  apply Forall_forall. intros [w s] Hin. apply in_combine_r in Hin.
  rewrite Forall_forall in Hlabels. now apply Hlabels.
Qed.

(** The output loop on predictions that are framed labellings. *)
Lemma write_predictions_framed h start stop
    (P : string -> list state -> Prop) :
  list_mem start (end_states h) = true ->
  list_mem stop (end_states h) = true ->
  (forall sentence labels,
     P sentence labels ->
     Forall (fun s => list_mem s (end_states h) = false) labels) ->
  forall sentences predictions,
    Forall2 (fun sentence pred =>
               exists labels,
                 P sentence labels /\ pred = framed start stop sentence labels)
            sentences predictions ->
    forall out,
    exists labelss,
      Forall2 P sentences labelss /\
      fold_left (write_prediction h) predictions out
      = (out ++ join (map (fun p => output_block (fst p) (snd p))
                        (combine sentences labelss)))%string.
Proof.
  intros Hstart Hstop HP sentences predictions Hall.
  induction Hall as [|sentence pred sentences predictions
                       (labels & Hl & ->) _ IH]; intros out.
  - exists []. split; [constructor|]. cbn. now rewrite append_empty_r.
  - cbn [fold_left].
    rewrite (write_prediction_framed h out start stop sentence labels)
      by eauto.
    destruct (IH (out ++ output_block sentence labels)%string)
      as (labelss & Hrel & Hout).
    exists (labels :: labelss). split; [now constructor|].
    cbn [combine map fst snd join].
    rewrite Hout. now rewrite append_assoc.
Qed.

Lemma getitem_mem (l : list state) (i : nat) (s : state) :
  getitem l i = Ok s -> list_mem s l = true.
Proof.
  unfold getitem. destruct (nth_error l i) as [x|] eqn:En; [|discriminate].
  intros Hx; inversion Hx; subst x. apply list_mem_In.
  eapply nth_error_In; eauto.
Qed.

Lemma not_In_list_mem (l : list state) (s : state) :
  ~ In s l -> list_mem s l = false.
Proof.
  intros Hn. destruct (list_mem s l) eqn:E; [|reflexivity].
  apply list_mem_In in E. contradiction.
Qed.

(** What Viterbi decoding returns for a sentence of a test file. *)
Lemma trained_viterbi_framed h0 obs h sentence C start stop :
  train h0 obs = Ok h ->
  states h0 <> [] ->
  getitem (end_states h0) 0 = Ok start ->
  getitem (end_states h0) 1 = Ok stop ->
  exists labels,
    labelling h0 sentence labels /\
    viterbi_label_sequence h (test_sequence start stop sentence) C
    = Ok (framed start stop sentence labels).
Proof.
  intros Ht Hne Hstart Hstop.
  destruct (train_fields _ _ _ Ht) as (_ & _ & _ & _ & _ & Hs & Hes).
  destruct (test_sequence_checked h start stop sentence)
    as [Hcheck Hlen]; [now rewrite Hes | now rewrite Hes |].
  destruct (trained_viterbi_returns h0 obs h _ C start stop
              Ht Hne Hstart Hstop Hcheck Hlen)
    as (new & mids & Hv & Hfst & Hsnd & Hall).
  unfold test_sequence in Hfst.
  rewrite app_comm_cons, removelast_last in Hfst.
  cbn [map fst] in Hfst. rewrite map_map in Hfst. cbn [fst] in Hfst.
  assert (Hnew : new = (EmptyString, start)
                       :: combine (map rstrip (split newline sentence)) mids).
  { rewrite (combine_fst_snd new), Hfst, Hsnd. reflexivity. }
  exists mids. split; [split; [|assumption]|].
  - assert (Hl : List.length (map fst new) = List.length (map snd new))
      by now rewrite !length_map.
    rewrite Hfst, Hsnd in Hl. cbn [List.length] in Hl.
    rewrite length_map in Hl. lia.
  - rewrite Hv, Hnew. reflexivity.
Qed.

Lemma first_argmax_state h0 obs h w s :
  train h0 obs = Ok h -> first_argmax h w s -> In s (states h0).
Proof.
  intros Ht (pre & row & post & Hrows & _).
  destruct (train_fields _ _ _ Ht) as (h1 & h3 & He & _ & _ & _ & _).
  apply list_mem_In. rewrite <- (estimate_emission_keys _ _ _ _ _ He s).
  apply dmem_keys. unfold dkeys. rewrite Hrows, map_app.
  apply in_or_app. right; now left.
Qed.

Lemma labels_of_lines (Q : state -> Prop) (lines : list string) :
  forall labelled : sequence,
    Forall2 (fun (ws lab : word * state) => fst lab = fst ws /\ Q (snd lab))
            (map (fun line => (rstrip line, EmptyString)) lines) labelled ->
    labelled = combine (map rstrip lines) (map snd labelled) /\
    List.length (map snd labelled) = List.length lines /\
    Forall Q (map snd labelled).
Proof.
  induction lines as [|line lines IH]; intros labelled Hall;
    inversion Hall as [|ws [w s] tokens rest [Hw Hq] Hrest]; subst.
  - repeat split. constructor.
  - destruct (IH rest Hrest) as (Hc & Hl & Hf). cbn [fst snd] in *. subst w.
    cbn [map combine snd List.length]. rewrite <- Hc, Hl.
    repeat split. now constructor.
Qed.

(** What the naive decoder returns for a sentence of a test file. *)
Lemma trained_naive_framed h0 obs h sentence start stop :
  train h0 obs = Ok h ->
  states h0 <> [] ->
  getitem (end_states h0) 0 = Ok start ->
  getitem (end_states h0) 1 = Ok stop ->
  ~ In EmptyString (end_states h0) ->
  exists labels,
    labelling h0 sentence labels /\
    naive_label_sequence h (test_sequence start stop sentence)
    = Ok (framed start stop sentence labels).
Proof.
  intros Ht Hne Hstart Hstop Hempty.
  destruct (train_fields _ _ _ Ht) as (_ & _ & _ & _ & _ & Hs & Hes).
  destruct (naive_label_sequence_returns h
              (test_sequence start stop sentence) start stop)
    as (labelled & Hl & Hall);
    [eapply trained_emission_nonempty; eauto | now rewrite Hes
    | now rewrite Hes |].
  assert (Hfilter : filter (emitting h) (test_sequence start stop sentence)
                    = map (fun line => (rstrip line, EmptyString))
                          (split newline sentence)).
  { unfold test_sequence. cbn [filter]. unfold emitting at 1. cbn [snd].
    rewrite Hes, (getitem_mem _ _ _ Hstart). cbn [negb].
    rewrite filter_app. cbn [filter]. unfold emitting at 2. cbn [snd].
    rewrite Hes, (getitem_mem _ _ _ Hstop). cbn [negb].
    rewrite app_nil_r.
    induction (split newline sentence) as [|line lines IH];
      [reflexivity|].
    cbn [map filter]. unfold emitting at 1. cbn [snd].
    rewrite Hes, (not_In_list_mem _ _ Hempty). cbn [negb].
    now rewrite IH. }
  rewrite Hfilter in Hall.
  destruct (labels_of_lines (fun s => In s (states h0))
              (split newline sentence) labelled)
    as (Hc & Hlen & Hin).
  { eapply Forall2_impl; [|exact Hall].
    intros ws lab [Hw Hq]. split; [assumption|].
    eapply first_argmax_state; eauto. }
  exists (map snd labelled). split; [split; assumption|].
  rewrite Hl. unfold framed. now rewrite <- Hc.
Qed.

(** The predictions [predict] writes on a trained model. *)
Lemma predict_predictions h0 obs h text decoding_type start stop :
  train h0 obs = Ok h ->
  states h0 <> [] ->
  getitem (end_states h0) 0 = Ok start ->
  getitem (end_states h0) 1 = Ok stop ->
  lower decoding_type = "viterbi"%string \/
  (lower decoding_type = "naive"%string /\
   ~ In EmptyString (end_states h0)) ->
  exists predictions,
    predict h text decoding_type
    = Returns (fold_left (write_prediction h) predictions EmptyString) /\
    Forall2 (fun sentence pred =>
               exists labels,
                 labelling h0 sentence labels /\
                 pred = framed start stop sentence labels)
            (sentences_of text) predictions.
Proof.
  intros Ht Hne Hstart Hstop Hdt.
  destruct (train_fields _ _ _ Ht) as (_ & _ & _ & _ & _ & Hs & Hes).
  assert (Hstart' : getitem (end_states h) 0 = Ok start) by now rewrite Hes.
  assert (Hstop' : getitem (end_states h) 1 = Ok stop) by now rewrite Hes.
  rewrite (predict_eq h text decoding_type start stop Hstart' Hstop').
  destruct (String.eqb_spec (lower decoding_type) "viterbi") as [_|Hv].
  - destruct (mapM_map_defined_rel
                (fun sq => viterbi_label_sequence h sq
                             default_scaling_constant)
                (test_sequence start stop)
                (fun sentence pred =>
                   exists labels,
                     labelling h0 sentence labels /\
                     pred = framed start stop sentence labels)
                (sentences_of text))
      as (predictions & Hp & Hall).
    { intros sentence _.
      destruct (trained_viterbi_framed h0 obs h sentence
                  default_scaling_constant start stop Ht Hne Hstart Hstop)
        as (labels & Hlab & Hdecoded).
      eauto. }
    exists predictions. unfold viterbi_predict. rewrite Hp.
    split; [reflexivity | assumption].
  - destruct Hdt as [?|[Hn Hempty]]; [contradiction|].
    destruct (String.eqb_spec (lower decoding_type) "naive") as [_|?];
      [|contradiction].
    destruct (mapM_map_defined_rel (naive_label_sequence h)
                (test_sequence start stop)
                (fun sentence pred =>
                   exists labels,
                     labelling h0 sentence labels /\
                     pred = framed start stop sentence labels)
                (sentences_of text))
      as (predictions & Hp & Hall).
    { intros sentence _.
      destruct (trained_naive_framed h0 obs h sentence start stop
                  Ht Hne Hstart Hstop Hempty)
        as (labels & Hlab & Hdecoded).
      eauto. }
    exists predictions. unfold naive_predict. rewrite Hp.
    split; [reflexivity | assumption].
Qed.

(** On a trained model whose interior states are not end states, the text
    [predict] writes has one block per sentence of the input, in order: one
    line per line of the sentence, made of the line without its trailing
    white space, a space and an interior state, and then an empty line.
    This holds for Viterbi decoding, and for naive decoding when the empty
    string is not an end state. *)
Theorem predict_output_layout h0 obs h text decoding_type start stop :
  train h0 obs = Ok h ->
  states h0 <> [] ->
  getitem (end_states h0) 0 = Ok start ->
  getitem (end_states h0) 1 = Ok stop ->
  (forall s, In s (states h0) -> ~ In s (end_states h0)) ->
  lower decoding_type = "viterbi"%string \/
  (lower decoding_type = "naive"%string /\
   ~ In EmptyString (end_states h0)) ->
  exists labelss,
    Forall2 (labelling h0) (sentences_of text) labelss /\
    predict h text decoding_type
    = Returns (join (map (fun p => output_block (fst p) (snd p))
                       (combine (sentences_of text) labelss))).
Proof.
  intros Ht Hne Hstart Hstop Hdisj Hdt.
  destruct (train_fields _ _ _ Ht) as (_ & _ & _ & _ & _ & Hs & Hes).
  destruct (predict_predictions h0 obs h text decoding_type start stop
              Ht Hne Hstart Hstop Hdt) as (predictions & -> & Hall).
  rewrite <- Hes in Hstart, Hstop.
  destruct (write_predictions_framed h start stop (labelling h0)
              (getitem_mem _ _ _ Hstart) (getitem_mem _ _ _ Hstop)
              ltac:(intros sentence labels [_ Hin];
                    eapply Forall_impl; [|exact Hin];
                    intros s Hin'; cbv beta in Hin'; rewrite Hes;
                    apply not_In_list_mem; now apply Hdisj)
              _ _ Hall EmptyString)
    as (labelss & Hrel & Hout).
  exists labelss. split; [assumption|]. now rewrite Hout.
Qed.

(** The statement for the model of [Example], a text of two sentences and
    naive decoding. *)
Lemma predict_output_layout_witness :
  exists h labelss,
    train Example.hmm0 Example.corpus = Ok h /\
    Forall2 (labelling Example.hmm0)
            (sentences_of
               ("x" ++ newline ++ "y" ++ newline ++ newline ++ "zzz"))
            labelss /\
    predict h ("x" ++ newline ++ "y" ++ newline ++ newline ++ "zzz") "naive"
    = Returns (join (map (fun p => output_block (fst p) (snd p))
                       (combine
                          (sentences_of
                             ("x" ++ newline ++ "y" ++ newline ++ newline
                              ++ "zzz"))
                          labelss))).
Proof.
  eexists.
  match goal with
  | |- exists labelss, train ?h0 ?obs = Ok ?h /\ _ =>
      assert (Ht : train h0 obs = Ok h) by (vm_compute; reflexivity);
      destruct (predict_output_layout h0 obs h
                  ("x" ++ newline ++ "y" ++ newline ++ newline ++ "zzz")
                  "naive" "START"%string "STOP"%string Ht)
        as (labelss & Hrel & Hp);
        [discriminate | reflexivity | reflexivity
        | intros s [ <- | [ <- | []]] [Hin | [Hin | []]]; discriminate
        | right; split; [reflexivity | intros [Hin | [Hin | []]]; discriminate]
        |];
      exists labelss
  end.
  repeat split; assumption.
Defined.

(** ** Reading back the text that was written *)

Lemma string_forall_app p a b :
  string_forall p (a ++ b) = string_forall p a && string_forall p b.
Proof.
  induction a as [|c a IH]; [reflexivity|]. cbn. now rewrite IH, andb_assoc.
Qed.

Lemma string_forall_impl (p q : ascii -> bool) s :
  (forall c, p c = true -> q c = true) ->
  string_forall p s = true -> string_forall q s = true.
Proof.
  intros Hpq. induction s as [|c s IH]; [reflexivity|]. cbn.
  intros H. apply andb_true_iff in H as [Hc Hs].
  now rewrite (Hpq c Hc), IH.
Qed.

Lemma prefix2_other c s :
  Ascii.eqb c "010"%char = false ->
  String.prefix (newline ++ newline) (String c s) = false.
Proof.
  intros Hc. unfold newline. cbn [append String.prefix].
  destruct (ascii_dec "010"%char c) as [<-|_]; [|reflexivity].
  discriminate Hc.
Qed.

Lemma prefix1_other c s :
  Ascii.eqb c "010"%char = false ->
  String.prefix newline (String c s) = false.
Proof.
  intros Hc. unfold newline. cbn [String.prefix].
  destruct (ascii_dec "010"%char c) as [<-|_]; [|reflexivity].
  discriminate Hc.
Qed.

Lemma no_newline_cons c s :
  no_newline (String c s) ->
  Ascii.eqb c "010"%char = false /\ no_newline s.
Proof.
  unfold no_newline. cbn [string_forall]. intros H.
  apply andb_true_iff in H as [Hc Hs]. split; [|assumption].
  now apply negb_true_iff.
Qed.

Lemma split2_plain a :
  no_newline a ->
  forall rest cur,
    split_from (newline ++ newline) (a ++ rest) 0 cur
    = split_from (newline ++ newline) rest 0 (cur ++ a).
Proof.
  induction a as [|c a IH]; intros Hn rest cur.
  - cbn [append]. now rewrite append_empty_r.
  - apply no_newline_cons in Hn as [Hc Ha].
    change ((String c a ++ rest)%string) with (String c (a ++ rest)%string).
    cbn [split_from]. rewrite (prefix2_other c _ Hc), IH by assumption.
    now rewrite append_assoc.
Qed.

Lemma split1_plain a :
  no_newline a ->
  forall rest cur,
    split_from newline (a ++ rest) 0 cur
    = split_from newline rest 0 (cur ++ a).
Proof.
  induction a as [|c a IH]; intros Hn rest cur.
  - cbn [append]. now rewrite append_empty_r.
  - apply no_newline_cons in Hn as [Hc Ha].
    change ((String c a ++ rest)%string) with (String c (a ++ rest)%string).
    cbn [split_from]. rewrite (prefix1_other c _ Hc), IH by assumption.
    now rewrite append_assoc.
Qed.

Lemma split_from_cons sep c s cur :
  split_from sep (String c s) 0 cur
  = if String.prefix sep (String c s)
    then cur :: split_from sep s (String.length sep - 1) EmptyString
    else split_from sep s 0 (cur ++ String c EmptyString)%string.
Proof. reflexivity. Qed.

Lemma split_from_skip sep c s k cur :
  split_from sep (String c s) (S k) cur = split_from sep s k cur.
Proof. reflexivity. Qed.

Lemma split2_single c rest cur :
  Ascii.eqb c "010"%char = false ->
  split_from (newline ++ newline) (String "010"%char (String c rest)) 0 cur
  = split_from (newline ++ newline) (String c rest) 0 (cur ++ newline).
Proof.
  intros Hc. rewrite split_from_cons.
  assert (Hp : String.prefix (newline ++ newline)
                 (String "010"%char (String c rest)) = false).
  { unfold newline. cbn [append String.prefix].
    destruct (ascii_dec "010"%char "010"%char) as [_|?]; [|reflexivity].
    destruct (ascii_dec "010"%char c) as [<-|_]; [|reflexivity].
    discriminate Hc. }
  now rewrite Hp.
Qed.

Lemma split2_double rest cur :
  split_from (newline ++ newline) (newline ++ newline ++ rest) 0 cur
  = cur :: split_from (newline ++ newline) rest 0 EmptyString.
Proof.
  unfold newline. cbn [append].
  rewrite split_from_cons.
  assert (Hp : String.prefix (String "010"%char (String "010"%char EmptyString))
                 (String "010"%char (String "010"%char rest)) = true).
  { cbn [String.prefix].
    destruct (ascii_dec "010"%char "010"%char) as [_|?]; [|contradiction].
    now destruct rest. }
  rewrite Hp. cbn [String.length Nat.sub]. now rewrite split_from_skip.
Qed.

Lemma split1_newline rest cur :
  split_from newline (newline ++ rest) 0 cur
  = cur :: split_from newline rest 0 EmptyString.
Proof.
  unfold newline. cbn [append]. rewrite split_from_cons.
  assert (Hp : String.prefix (String "010"%char EmptyString)
                 (String "010"%char rest) = true).
  { cbn [String.prefix].
    destruct (ascii_dec "010"%char "010"%char) as [_|?]; [|contradiction].
    now destruct rest. }
  now rewrite Hp.
Qed.

Lemma sep_by_head sep d x rest :
  sep_by sep (String d x) rest = String d (sep_by sep x rest).
Proof. destruct rest; reflexivity. Qed.

(** Cutting at line breaks gives back the lines that were joined. *)
Lemma split1_lines rest :
  forall first cur,
    Forall no_newline (first :: rest) ->
    split_from newline (sep_by newline first rest) 0 cur
    = (cur ++ first)%string :: rest.
Proof.
  induction rest as [|x rest IH]; intros first cur Hall;
    inversion Hall as [|? ? Hfirst Hrest]; subst; cbn [sep_by].
  - rewrite <- (append_empty_r first) at 1.
    now rewrite split1_plain.
  - rewrite split1_plain, split1_newline, IH by assumption. reflexivity.
Qed.

Lemma split2_block rest :
  forall first cur,
    Forall plain (first :: rest) ->
    (forall tail,
       split_from (newline ++ newline)
         (sep_by newline first rest ++ newline ++ newline ++ tail) 0 cur
       = (cur ++ sep_by newline first rest)%string
         :: split_from (newline ++ newline) tail 0 EmptyString) /\
    split_from (newline ++ newline) (sep_by newline first rest) 0 cur
    = [(cur ++ sep_by newline first rest)%string].
Proof.
  induction rest as [|x rest IH]; intros first cur Hall;
    inversion Hall as [|? ? [_ Hfirst] Hrest]; subst; cbn [sep_by].
  - split.
    + intros tail. now rewrite split2_plain, split2_double.
    + rewrite <- (append_empty_r first) at 1.
      now rewrite split2_plain.
  - destruct (IH x ((cur ++ first) ++ newline)%string Hrest) as [IH1 IH2].
    inversion Hrest as [|? ? [Hx Hxn] _]; subst.
    destruct x as [|d x]; [contradiction|].
    apply no_newline_cons in Hxn as [Hd _].
    split.
    + intros tail. rewrite !append_assoc, split2_plain by assumption.
      rewrite sep_by_head in *.
      change (newline ++ String d (sep_by newline x rest)
                ++ newline ++ newline ++ tail)%string
        with (String "010"%char
                (String d (sep_by newline x rest ++ newline ++ newline ++ tail))).
      rewrite split2_single by assumption.
      change (String d (sep_by newline x rest ++ newline ++ newline ++ tail))
        with (String d (sep_by newline x rest) ++ newline ++ newline ++ tail)%string.
      rewrite IH1. now rewrite !append_assoc.
    + rewrite split2_plain by assumption.
      rewrite sep_by_head in *.
      change (newline ++ String d (sep_by newline x rest))%string
        with (String "010"%char (String d (sep_by newline x rest))).
      rewrite split2_single by assumption.
      rewrite IH2. now rewrite !append_assoc.
Qed.

Lemma split2_blocks bs :
  forall b cur,
    Forall lines_ok (b :: bs) ->
    split_from (newline ++ newline)
      (sep_by (newline ++ newline) (block_text b) (map block_text bs)) 0 cur
    = (cur ++ block_text b)%string :: map block_text bs.
Proof.
  induction bs as [|b' bs IH]; intros b cur Hall;
    inversion Hall as [|? ? [Hne Hb] Hrest]; subst;
    (destruct b as [|first rest]; [contradiction|]); cbn [map sep_by].
  - now apply split2_block.
  - cbn [block_text]. rewrite (append_assoc newline newline).
    destruct (split2_block rest first cur Hb) as [-> _].
    now rewrite IH.
Qed.

(** Trailing white space *)
Lemma rstrip_blank_tail a ws :
  rstrip ws = EmptyString -> rstrip (a ++ ws) = rstrip a.
Proof.
  intros Hws. induction a as [|c a IH]; [assumption|].
  cbn [append rstrip]. now rewrite IH.
Qed.

Lemma rstrip_app_keep a b :
  rstrip b <> EmptyString -> (rstrip (a ++ b) = a ++ rstrip b)%string.
Proof.
  intros Hb. induction a as [|c a IH]; [reflexivity|].
  cbn [append rstrip]. rewrite IH.
  destruct (a ++ rstrip b)%string eqn:E; [|reflexivity].
  destruct a; [cbn in E; contradiction | discriminate E].
Qed.

Lemma rstrip_no_space s :
  string_forall (fun c => negb (isspace c)) s = true -> rstrip s = s.
Proof.
  induction s as [|c s IH]; [reflexivity|]. cbn [string_forall rstrip].
  intros H. apply andb_true_iff in H as [Hc Hs]. rewrite (IH Hs).
  apply negb_true_iff in Hc. rewrite Hc. now destruct s.
Qed.

Lemma stable_app a b : stable b -> stable (a ++ b).
Proof.
  intros [Hb Hne]. split.
  - rewrite rstrip_app_keep; rewrite Hb; [reflexivity | assumption].
  - destruct a; [assumption | discriminate].
Qed.

Lemma stable_solid s : solid s -> stable s.
Proof. intros [Hne Hs]. split; [now apply rstrip_no_space | assumption]. Qed.

Lemma stable_sep_by sep rest :
  forall first, Forall stable (first :: rest) -> stable (sep_by sep first rest).
Proof.
  induction rest as [|x rest IH]; intros first Hall;
    inversion Hall as [|? ? Hfirst Hrest]; subst; cbn [sep_by];
    [assumption|].
  apply stable_app, stable_app. now apply IH.
Qed.

Lemma rsplit_blank_none s :
  string_forall (fun c => negb (isspace c)) s = true ->
  rsplit_blank s = None.
Proof.
  induction s as [|c s IH]; [reflexivity|]. cbn [string_forall rsplit_blank].
  intros H. apply andb_true_iff in H as [Hc Hs]. rewrite (IH Hs).
  destruct (Ascii.eqb_spec c " "%char) as [->|_]; [discriminate Hc|].
  reflexivity.
Qed.

Lemma rsplit_blank_line w s :
  rsplit_blank s = None ->
  rsplit_blank (w ++ blank ++ s) = Some (w, s).
Proof.
  intros Hs. induction w as [|c w IH].
  - cbn [append blank rsplit_blank]. unfold blank. cbn [append rsplit_blank].
    now rewrite Hs.
  - cbn [append rsplit_blank]. now rewrite IH.
Qed.

Lemma writable_plain h ws : writable h ws -> plain (line_text ws).
Proof.
  intros (Hw & [Hne Hs] & _). unfold line_text. split.
  - destruct (fst ws); discriminate.
  - unfold no_newline in *. rewrite !string_forall_app, Hw. cbn [andb].
    apply andb_true_iff. split; [reflexivity|].
    eapply string_forall_impl; [|exact Hs].
    intros c Hc. destruct (Ascii.eqb_spec c "010"%char) as [->|_];
      [discriminate Hc | reflexivity].
Qed.

Lemma writable_stable h ws : writable h ws -> stable (line_text ws).
Proof.
  intros (_ & Hs & _). unfold line_text.
  now apply stable_app, stable_app, stable_solid.
Qed.

Lemma writable_tuple h data_type ws :
  lower data_type = "train"%string ->
  writable h ws ->
  line_tuple data_type (line_text ws) = Returns [fst ws; snd ws].
Proof.
  intros Hdt (_ & [_ Hs] & _). unfold line_tuple, rsplit1, line_text.
  rewrite Hdt. cbn [String.eqb Ascii.eqb Bool.eqb].
  now rewrite (rsplit_blank_line _ _ (rsplit_blank_none _ Hs)).
Qed.

Lemma for_each_map_Forall {A B C : Type} (f : B -> outcome C) (g : A -> B)
    (k : A -> C) (l : list A) :
  Forall (fun a => f (g a) = Returns (k a)) l ->
  for_each f (map g l) = Returns (map k l).
Proof.
  induction 1 as [|a l Ha _ IH]; [reflexivity|].
  cbn [map for_each]. rewrite Ha; cbn [and_then]. now rewrite IH.
Qed.

Lemma join_lines (body : sequence) :
  body <> [] ->
  join (map output_line body)
  = (block_text (map line_text body) ++ newline)%string.
Proof.
  induction body as [|ws body IH]; [contradiction|]. intros _.
  cbn [map join block_text]. destruct body as [|ws' body].
  - cbn [map join sep_by]. unfold output_line, line_text.
    now rewrite append_empty_r, !append_assoc.
  - rewrite IH by discriminate. cbn [map block_text sep_by].
    unfold output_line, line_text. now rewrite !append_assoc.
Qed.

Lemma written_text h start stop bodies :
  list_mem start (end_states h) = true ->
  list_mem stop (end_states h) = true ->
  Forall (fun body => body <> [] /\ Forall (writable h) body) bodies ->
  bodies <> [] ->
  forall out,
    fold_left (write_prediction h) (map (frame start stop) bodies) out
    = (out ++ blocks_text (map (map line_text) bodies)
           ++ newline ++ newline)%string.
Proof.
  intros Hstart Hstop Hall. induction Hall as [|body bodies [Hne Hb] Hrest IH];
    [contradiction|]. intros _ out.
  cbn [map fold_left].
  rewrite write_prediction_frame, (join_lines body Hne); try assumption.
  2:{ eapply Forall_impl; [|exact Hb]. now intros ws (_ & _ & Hend). }
  destruct bodies as [|body' bodies].
  - cbn [map fold_left blocks_text sep_by]. now rewrite !append_assoc.
  - rewrite IH by discriminate.
    cbn [map blocks_text sep_by]. now rewrite !append_assoc.
Qed.

Lemma lines_ok_body h body :
  body <> [] -> Forall (writable h) body -> lines_ok (map line_text body).
Proof.
  intros Hne Hb. split.
  - destruct body; [contradiction | discriminate].
  - apply Forall_map. eapply Forall_impl; [|exact Hb].
    intros ws. apply writable_plain.
Qed.

Lemma stable_blocks h bodies :
  Forall (fun body => body <> [] /\ Forall (writable h) body) bodies ->
  bodies <> [] ->
  stable (blocks_text (map (map line_text) bodies)).
Proof.
  intros Hall Hne. destruct bodies as [|body bodies]; [contradiction|].
  cbn [map blocks_text]. apply stable_sep_by.
  change (block_text (map line_text body)
          :: map block_text (map (map line_text) bodies))
    with (map block_text (map (map line_text) (body :: bodies))).
  rewrite map_map. apply Forall_map. eapply Forall_impl; [|exact Hall].
  intros b [Hb Hw]. destruct b as [|ws b]; [contradiction|].
  cbn [map block_text]. apply stable_sep_by.
  change (line_text ws :: map line_text b) with (map line_text (ws :: b)).
  apply Forall_map. eapply Forall_impl; [|exact Hw].
  intros x. apply writable_stable.
Qed.

(** The text of the output loop, read in train mode. *)
Lemma written_text_read_back h start stop bodies data_type :
  lower data_type = "train"%string ->
  getitem (end_states h) 0 = Ok start ->
  getitem (end_states h) 1 = Ok stop ->
  bodies <> [] ->
  Forall (fun body => body <> [] /\ Forall (writable h) body) bodies ->
  process_file h
    (fold_left (write_prediction h) (map (frame start stop) bodies)
       EmptyString)
    data_type
  = Returns (map (fun body =>
                    map (fun ws : word * state => [fst ws; snd ws])
                        (frame start stop body))
                 bodies).
Proof.
  intros Hdt Hstart Hstop Hne Hall.
  rewrite (written_text h start stop bodies
             (getitem_mem _ _ _ Hstart) (getitem_mem _ _ _ Hstop) Hall Hne).
  cbn [append]. unfold process_file. rewrite Hdt.
  change (negb (list_mem "train"%string ["train"%string; "test"%string]))
    with false. cbv iota.
  rewrite rstrip_blank_tail by reflexivity.
  destruct (stable_blocks h bodies Hall Hne) as [-> _].
  assert (Hsplit : split (newline ++ newline)
                     (blocks_text (map (map line_text) bodies))
                   = map block_text (map (map line_text) bodies)).
  { destruct bodies as [|body bodies]; [contradiction|].
    cbn [map blocks_text]. unfold split. rewrite split2_blocks; [reflexivity|].
    change (map line_text body :: map (map line_text) bodies)
      with (map (map line_text) (body :: bodies)).
    apply Forall_map. eapply Forall_impl; [|exact Hall].
    intros b [Hb Hw]. now apply (lines_ok_body h). }
  rewrite Hsplit, map_map.
  apply for_each_map_Forall. eapply Forall_impl; [|exact Hall].
  intros body [Hb Hw]. unfold sentence_deque.
  assert (Hlines : split newline (block_text (map line_text body))
                   = map line_text body).
  { destruct body as [|ws body]; [contradiction|].
    cbn [map block_text]. unfold split. rewrite split1_lines; [reflexivity|].
    change (line_text ws :: map line_text body)
      with (map line_text (ws :: body)).
    apply Forall_map. eapply Forall_impl; [|exact Hw].
    intros x Hx. now apply (writable_plain h). }
  rewrite Hlines.
  rewrite (for_each_map_Forall _ _ (fun ws : word * state => [fst ws; snd ws]))
    by (eapply Forall_impl; [|exact Hw];
        intros ws Hws; now apply (writable_tuple h)).
  cbn [and_then]. rewrite Hstart, Hstop. cbn [lift and_then].
  unfold frame. cbn [map fst snd]. now rewrite map_app.
Qed.

(** A text without a carriage return is read as it is. *)
Lemma read_text_id s : no_return s -> read_text s = s.
Proof.
  unfold no_return. induction s as [|c s IH]; [reflexivity|].
  cbn [string_forall read_text]. intros H.
  apply andb_true_iff in H as [Hc Hs]. apply negb_true_iff in Hc.
  now rewrite Hc, IH.
Qed.

Lemma string_forall_sep_by p sep rest :
  string_forall p sep = true ->
  forall first,
    Forall (fun x => string_forall p x = true) (first :: rest) ->
    string_forall p (sep_by sep first rest) = true.
Proof.
  intros Hsep. induction rest as [|x rest IH]; intros first Hall;
    inversion Hall as [|? ? Hfirst Hrest]; subst; cbn [sep_by];
    [assumption|].
  now rewrite !string_forall_app, Hfirst, Hsep, IH.
Qed.

(** The text of the output loop holds no carriage return when the words
    hold none. *)
Lemma written_text_no_return h start stop bodies :
  list_mem start (end_states h) = true ->
  list_mem stop (end_states h) = true ->
  bodies <> [] ->
  Forall (fun body => body <> [] /\ Forall (writable h) body) bodies ->
  Forall (Forall (fun ws : word * state => no_return (fst ws))) bodies ->
  no_return (fold_left (write_prediction h) (map (frame start stop) bodies)
               EmptyString).
Proof.
  intros Hstart Hstop Hne Hall Hret.
  rewrite (written_text h start stop bodies Hstart Hstop Hall Hne).
  cbn [append]. unfold no_return. rewrite string_forall_app.
  apply andb_true_iff. split; [|reflexivity].
  destruct bodies as [|body bodies]; [contradiction|].
  cbn [map blocks_text]. apply string_forall_sep_by; [reflexivity|].
  change (block_text (map line_text body)
          :: map block_text (map (map line_text) bodies))
    with (map block_text (map (map line_text) (body :: bodies))).
  rewrite map_map. apply Forall_map.
  rewrite Forall_forall in Hall, Hret. apply Forall_forall. intros b Hb.
  destruct (Hall b Hb) as [Hbne Hw]. specialize (Hret b Hb).
  destruct b as [|ws b]; [contradiction|].
  cbn [map block_text]. apply string_forall_sep_by; [reflexivity|].
  change (line_text ws :: map line_text b) with (map line_text (ws :: b)).
  apply Forall_map. rewrite Forall_forall in Hw, Hret.
  apply Forall_forall. intros x Hx.
  destruct (Hw x Hx) as (_ & [_ Hsolid] & _). specialize (Hret x Hx).
  unfold line_text. rewrite !string_forall_app, Hret. cbn [andb].
  apply andb_true_iff. split; [reflexivity|].
  eapply string_forall_impl; [|exact Hsolid].
  intros c Hc. destruct (Ascii.eqb_spec c "013"%char) as [->|_];
    [discriminate Hc | reflexivity].
Qed.

(** Round trip through a file.  The output loop writes the text of
    predictions whose words hold no line break and no carriage return and
    whose states are solid and are not end states.  That text, read back
    from the file, where a carriage return would be read as a line break,
    and given to [process_file] in train mode, yields these predictions:
    one deque per prediction, with one pair per labelled pair between the
    START pair and the STOP pair. *)
Theorem written_predictions_read_back h start stop bodies data_type :
  lower data_type = "train"%string ->
  getitem (end_states h) 0 = Ok start ->
  getitem (end_states h) 1 = Ok stop ->
  bodies <> [] ->
  Forall (fun body => body <> [] /\ Forall (writable h) body) bodies ->
  Forall (Forall (fun ws : word * state => no_return (fst ws))) bodies ->
  process_file h
    (read_text
       (fold_left (write_prediction h) (map (frame start stop) bodies)
          EmptyString))
    data_type
  = Returns (map (fun body =>
                    map (fun ws : word * state => [fst ws; snd ws])
                        (frame start stop body))
                 bodies).
Proof.
  intros Hdt Hstart Hstop Hne Hall Hret.
  rewrite read_text_id.
  - now apply written_text_read_back.
  - apply written_text_no_return; try assumption.
    + exact (getitem_mem _ _ _ Hstart).
    + exact (getitem_mem _ _ _ Hstop).
Qed.

(** The statement for two predictions, one with a word that holds a
    space. *)
Lemma written_predictions_read_back_witness :
  process_file Example.hmm0
    (read_text
       (fold_left (write_prediction Example.hmm0)
          (map (frame "START" "STOP")
               [[("a b", "A"); ("", "B")]; [("c", "A")]]%string)
          EmptyString))
    "train"
  = Returns (map (fun body =>
                    map (fun ws : word * state => [fst ws; snd ws])
                        (frame "START" "STOP" body))
                 [[("a b", "A"); ("", "B")]; [("c", "A")]]%string).
Proof.
  apply (written_predictions_read_back Example.hmm0 "START"%string
           "STOP"%string);
    [reflexivity | reflexivity | reflexivity | discriminate | |].
  - repeat constructor; discriminate.
  - repeat constructor.
Defined.

(** ** Reading back the text of [predict] *)

Lemma split1_no_newline s :
  forall cur,
    no_newline cur -> Forall no_newline (split_from newline s 0 cur).
Proof.
  induction s as [|c s IH]; intros cur Hcur.
  - cbn [split_from]. now constructor.
  - rewrite split_from_cons.
    destruct (String.prefix newline (String c s)) eqn:Ep.
    + constructor; [assumption|]. now apply IH.
    + apply IH. unfold no_newline in *. rewrite string_forall_app, Hcur.
      cbn [string_forall andb]. rewrite andb_true_r.
      unfold newline in Ep. cbn [String.prefix] in Ep.
      destruct (ascii_dec "010"%char c) as [<-|Hne].
      * now destruct s.
      * destruct (Ascii.eqb_spec c "010"%char) as [->|_];
          [contradiction | reflexivity].
Qed.

Lemma string_forall_rstrip p s :
  string_forall p s = true -> string_forall p (rstrip s) = true.
Proof.
  induction s as [|c s IH]; [reflexivity|]. cbn [string_forall rstrip].
  intros H. apply andb_true_iff in H as [Hc Hs]. specialize (IH Hs).
  destruct (rstrip s) as [|d r].
  - destruct (isspace c); [reflexivity|]. cbn [string_forall].
    now rewrite Hc.
  - cbn [string_forall] in *. now rewrite Hc, IH.
Qed.

Lemma Forall2_combine {A B : Type} (R : A -> B -> Prop) l l' a b :
  Forall2 R l l' -> In (a, b) (combine l l') -> R a b.
Proof.
  induction 1 as [|x y l l' Hxy _ IH]; intros Hin; [contradiction|].
  destruct Hin as [Heq|Hin]; [now inversion Heq; subst | now apply IH].
Qed.

Lemma frames_of start stop (P : string -> list state -> Prop)
    sentences predictions :
  Forall2 (fun sentence pred =>
             exists labels,
               P sentence labels /\ pred = framed start stop sentence labels)
          sentences predictions ->
  exists labelss,
    Forall2 P sentences labelss /\
    predictions
    = map (frame start stop)
          (map (fun p => labelled (fst p) (snd p))
               (combine sentences labelss)).
Proof.
  induction 1 as [|sentence pred sentences predictions
                    (labels & Hl & ->) _ (labelss & Hrel & ->)].
  - exists []. split; [constructor | reflexivity].
  - exists (labels :: labelss). split; [now constructor | reflexivity].
Qed.

(** On a trained model whose interior states are solid and are not end
    states, the text [predict] writes for any input text is read back by
    [process_file] in train mode as the labelled sentences: one deque per
    sentence of the input, holding a START pair, one pair per line with
    the line without its trailing white space and the label it was given,
    and a STOP pair.  This holds for Viterbi decoding, and for naive
    decoding when the empty string is not an end state. *)
Theorem predict_output_read_back h0 obs h text decoding_type data_type
    start stop :
  train h0 obs = Ok h ->
  states h0 <> [] ->
  getitem (end_states h0) 0 = Ok start ->
  getitem (end_states h0) 1 = Ok stop ->
  (forall s, In s (states h0) -> solid s /\ ~ In s (end_states h0)) ->
  lower decoding_type = "viterbi"%string \/
  (lower decoding_type = "naive"%string /\
   ~ In EmptyString (end_states h0)) ->
  lower data_type = "train"%string ->
  exists out labelss,
    predict h text decoding_type = Returns out /\
    Forall2 (labelling h0) (sentences_of text) labelss /\
    process_file h out data_type
    = Returns (map (fun p =>
                      map (fun ws : word * state => [fst ws; snd ws])
                          (frame start stop (labelled (fst p) (snd p))))
                   (combine (sentences_of text) labelss)).
Proof.
  intros Ht Hne Hstart Hstop Hsolid Hdt Htrain.
  destruct (train_fields _ _ _ Ht) as (_ & _ & _ & _ & _ & Hs & Hes).
  destruct (predict_predictions h0 obs h text decoding_type start stop
              Ht Hne Hstart Hstop Hdt) as (predictions & Hp & Hall).
  destruct (frames_of start stop (labelling h0) _ _ Hall)
    as (labelss & Hrel & ->).
  eexists. exists labelss. split; [exact Hp|]. split; [assumption|].
  rewrite <- Hes in Hstart, Hstop.
  rewrite (written_text_read_back h start stop _ data_type Htrain
             Hstart Hstop).
  - now rewrite map_map.
  - assert (Hsent : sentences_of text <> []).
    { unfold sentences_of, split. apply split_from_nonempty. }
    destruct Hrel as [|sentence labels sentences labelss _ _];
      [contradiction | discriminate].
  - apply Forall_map, Forall_forall. intros [sentence labels] Hin.
    destruct (Forall2_combine _ _ _ _ _ Hrel Hin) as [Hlen Hlabels].
    cbn [fst snd]. unfold labelled. split.
    + assert (Hlines : split newline sentence <> [])
        by apply split_from_nonempty.
      destruct (split newline sentence) as [|line lines]; [contradiction|].
      destruct labels as [|l labels]; [discriminate Hlen | discriminate].
    + apply Forall_forall. intros [w s] Hws. split; [|split].
      * apply in_combine_l, in_map_iff in Hws as (line & <- & Hline).
        cbn [fst]. apply string_forall_rstrip.
        pose proof (split1_no_newline sentence EmptyString eq_refl) as Hn.
        rewrite Forall_forall in Hn. now apply Hn.
      * apply in_combine_r in Hws. rewrite Forall_forall in Hlabels.
        now apply Hsolid, Hlabels.
      * apply in_combine_r in Hws. rewrite Forall_forall in Hlabels.
        cbn [snd]. rewrite Hes. apply not_In_list_mem.
        now apply Hsolid, Hlabels.
Qed.

(** The statement for the model of [Example], a text of two sentences and
    Viterbi decoding. *)
Lemma predict_output_read_back_witness :
  exists h out labelss,
    train Example.hmm0 Example.corpus = Ok h /\
    predict h ("x" ++ newline ++ "y" ++ newline ++ newline ++ "zzz")
      "viterbi" = Returns out /\
    process_file h out "train"
    = Returns (map (fun p =>
                      map (fun ws : word * state => [fst ws; snd ws])
                          (frame "START" "STOP"
                             (labelled (fst p) (snd p))))
                   (combine
                      (sentences_of
                         ("x" ++ newline ++ "y" ++ newline ++ newline
                          ++ "zzz"))
                      labelss)).
Proof.
  eexists.
  match goal with
  | |- exists out labelss, train ?h0 ?obs = Ok ?h /\ _ =>
      assert (Ht : train h0 obs = Ok h) by (vm_compute; reflexivity);
      destruct (predict_output_read_back h0 obs h
                  ("x" ++ newline ++ "y" ++ newline ++ newline ++ "zzz")
                  "viterbi" "train" "START"%string "STOP"%string Ht)
        as (out & labelss & Hp & _ & Hread);
        [discriminate | reflexivity | reflexivity
        | intros s [ <- | [ <- | []]];
          (split; [split; [discriminate | reflexivity]
                  | intros [Hin | [Hin | []]]; discriminate])
        | left; reflexivity | reflexivity |];
      exists out, labelss
  end.
  repeat split; assumption.
Defined.

(** ** The outcomes of [process_file] *)

Lemma line_tuple_returns data_type :
  lower data_type = "train"%string \/ lower data_type = "test"%string ->
  exists g, forall line, line_tuple data_type line = Returns (g line).
Proof.
  intros [Hdt|Hdt]; unfold line_tuple; rewrite Hdt.
  - exists rsplit1. reflexivity.
  - exists (fun line => [rstrip line; EmptyString]). reflexivity.
Qed.

(** [process_file] raises "Invalid data type given" when the data type is
    neither "train" nor "test" in any letter case.  Otherwise it returns
    one deque per sentence of the text when the model has two end states,
    and raises [IndexError] on every text, the empty one included, when it
    has fewer.  It never raises "Wrong testing set format". *)
Theorem process_file_outcomes h text data_type :
  (lower data_type <> "train"%string ->
   lower data_type <> "test"%string ->
   process_file h text data_type = Fails InvalidDataType) /\
  (lower data_type = "train"%string \/ lower data_type = "test"%string ->
   ((2 <= List.length (end_states h))%nat /\
    exists data,
      process_file h text data_type = Returns data /\
      List.length data = List.length (sentences_of text)) \/
   ((List.length (end_states h) < 2)%nat /\
    process_file h text data_type = Fails (Inner IndexError))) /\
  process_file h text data_type <> Fails WrongTestingSetFormat.
Proof.
  assert (Hbad : lower data_type <> "train"%string ->
                 lower data_type <> "test"%string ->
                 process_file h text data_type = Fails InvalidDataType).
  { intros Htrain Htest. unfold process_file. cbn [list_mem existsb keqb].
    unfold keqb; cbn [EqKey_string].
    destruct (String.eqb_spec (lower data_type) "train"); [contradiction|].
    destruct (String.eqb_spec (lower data_type) "test"); [contradiction|].
    reflexivity. }
  assert (Hgood :
    lower data_type = "train"%string \/ lower data_type = "test"%string ->
    ((2 <= List.length (end_states h))%nat /\
     exists data,
       process_file h text data_type = Returns data /\
       List.length data = List.length (sentences_of text)) \/
    ((List.length (end_states h) < 2)%nat /\
     process_file h text data_type = Fails (Inner IndexError))).
  { intros Hdt. destruct (line_tuple_returns data_type Hdt) as [g Hg].
    assert (Hmem : negb (list_mem (lower data_type)
                           ["train"%string; "test"%string]) = false).
    { destruct Hdt as [-> | ->]; reflexivity. }
    unfold process_file. rewrite Hmem. fold (sentences_of text).
    assert (Hsent : sentences_of text <> []).
    { unfold sentences_of, split. apply split_from_nonempty. }
    assert (Hdeque : forall sentence,
               sentence_deque h data_type sentence
               = and_then (lift (getitem (end_states h) 0))
                   (fun start =>
                      and_then (lift (getitem (end_states h) 1))
                        (fun stop =>
                           Returns (([EmptyString; start]
                                     :: map g (split newline sentence))
                                    ++ [[EmptyString; stop]])))).
    { intros sentence. unfold sentence_deque.
      now rewrite (for_each_map _ g _ Hg). }
    destruct (end_states h) as [|a [|b l]] eqn:Ees.
    - right. split; [cbn; lia|].
      destruct (sentences_of text) as [|s ss]; [contradiction|].
      cbn [for_each]. now rewrite Hdeque.
    - right. split; [cbn; lia|].
      destruct (sentences_of text) as [|s ss]; [contradiction|].
      cbn [for_each]. now rewrite Hdeque.
    - left. split; [cbn; lia|]. eexists. split.
      + apply for_each_map. intros sentence. rewrite Hdeque. reflexivity.
      + now rewrite length_map. }
  split; [assumption|]. split; [assumption|].
  destruct (String.eqb_spec (lower data_type) "train") as [Htrain|Htrain].
  - destruct (Hgood (or_introl Htrain)) as [[_ (data & -> & _)]|[_ ->]];
      discriminate.
  - destruct (String.eqb_spec (lower data_type) "test") as [Htest|Htest].
    + destruct (Hgood (or_intror Htest)) as [[_ (data & -> & _)]|[_ ->]];
        discriminate.
    + rewrite (Hbad Htrain Htest). discriminate.
Qed.

(** ** Reading a training file *)

Lemma rsplit_blank_spec s :
  match rsplit_blank s with
  | None => no_blank s
  | Some (before, after) =>
      s = (before ++ blank ++ after)%string /\ no_blank after
  end.
Proof.
  induction s as [|c s IH]; [reflexivity|]. cbn [rsplit_blank].
  destruct (rsplit_blank s) as [[before after]|].
  - destruct IH as [-> Hafter]. split; [reflexivity | assumption].
  - destruct (Ascii.eqb_spec c " "%char) as [->|Hc].
    + split; [reflexivity | assumption].
    + unfold no_blank in *. cbn [string_forall]. rewrite IH.
      destruct (Ascii.eqb_spec c " "%char); [contradiction | reflexivity].
Qed.

(** In train mode, on a model with START and STOP, [process_file] returns
    for every text: one deque per sentence, holding a START pair, the
    tuple of each line and a STOP pair.  A line is cut at its last space:
    a line without a space gives a tuple of one component, the line
    itself; any other line gives the pair of the text before its last
    space, which may hold spaces, and the text after it, which holds
    none. *)
Theorem process_file_train_mode h text data_type start stop :
  lower data_type = "train"%string ->
  getitem (end_states h) 0 = Ok start ->
  getitem (end_states h) 1 = Ok stop ->
  process_file h text data_type
  = Returns (map (train_deque start stop) (sentences_of text)) /\
  forall line,
    (no_blank line /\ rsplit1 line = [line]) \/
    (exists w s,
       line = (w ++ blank ++ s)%string /\ no_blank s /\
       rsplit1 line = [w; s]).
Proof.
  intros Hdt Hstart Hstop. split.
  - unfold process_file. rewrite Hdt.
    change (negb (list_mem "train"%string ["train"%string; "test"%string]))
      with false. cbv iota.
    apply for_each_map. intros sentence. unfold sentence_deque.
    rewrite (for_each_map _ rsplit1)
      by (intros line; unfold line_tuple; now rewrite Hdt).
    cbn [and_then]. rewrite Hstart, Hstop. reflexivity.
  - intros line. pose proof (rsplit_blank_spec line) as Hspec.
    unfold rsplit1. destruct (rsplit_blank line) as [[w s]|].
    + right. exists w, s. destruct Hspec as [Hline Hs]. auto.
    + left. auto.
Qed.

(** The statement for the model of [Example] and a text of one sentence
    whose first line holds two spaces and whose second line holds none. *)
Lemma process_file_train_mode_witness :
  process_file Example.hmm0 ("a b A" ++ newline ++ "c") "train"
  = Returns [[[""; "START"]; ["a b"; "A"]; ["c"]; [""; "STOP"]]]%string.
Proof.
  destruct (process_file_train_mode Example.hmm0
              ("a b A" ++ newline ++ "c") "train"%string
              "START"%string "STOP"%string eq_refl eq_refl eq_refl)
    as [Hp _].
  exact Hp.
Defined.
